(** * GNSS_RR: the time-series routines of [functions.py]

    A shallow embedding of the numerical core of the GNSS
    refractometry / reflectometry post-processing: the snow-mast
    heightening correction of [filter_rtklib_solutions] and
    [filter_gnssir], their rolling sigma filter, the daily resampling,
    [convert_swesh2density], [func_err_prop] and [exponential_regression];
    further the cleaning of the laser observations, the conversions
    between SWE and snow height, the density of new snow with
    [create_new_df], [func_err_prop2], [calc_footprint],
    [resample_allobs] and [calculate_stats].

    Conventions.  A pandas [Series] with a [DatetimeIndex] is a list of
    (label, value) pairs in index order; a label is a timestamp in whole
    seconds.  The up component and the reflector height are held in whole
    millimetres ([U * 1000], [RH * 1000]); rounding of binary floating
    point is not modelled.  Python exceptions are the [Raise] outcomes of
    the functions that can raise them. *)

From Stdlib Require Import String.
From Stdlib Require Import List ZArith QArith Qreals Bool Lia Lra Reals.
Import ListNotations.

Local Open Scope Z_scope.

(** ** Outcomes of a Python call *)

Inductive exn : Type :=
| IndexError
| KeyError
| UnboundLocalError
| LibraryError (msg : String.string).

(** [OutOfFuel] is not a Python outcome: it marks a run of the [while]
    loop that was cut after the given number of iterations. *)
Inductive outcome (A : Type) : Type :=
| Ret (a : A)
| Raise (e : exn)
| OutOfFuel.

Arguments Ret {A} a.
Arguments Raise {A} e.
Arguments OutOfFuel {A}.

Definition bind {A B : Type} (c : outcome A) (k : A -> outcome B) : outcome B :=
  match c with
  | Ret a => k a
  | Raise e => Raise e
  | OutOfFuel => OutOfFuel
  end.

Notation "x <- c ;; k" := (bind c (fun x => k))
  (at level 61, c at next level, right associativity).

(** ** Series *)

Abbreviation label := Z (only parsing).

(** A series of millimetre values. *)
Definition series := list (label * Z).

Definition index {V : Type} (u : list (label * V)) : list label := map fst u.
Definition values {V : Type} (u : list (label * V)) : list V := map snd u.

(** [is_monotonic_increasing] and [is_unique] together: the labels grow
    strictly.  Every series reaching the filters has this shape, the
    readers drop duplicated labels and the filters call [sort_index]. *)
Fixpoint strictly_increasing (l : list label) : bool :=
  match l with
  | [] => true
  | t :: r =>
      match r with
      | [] => true
      | t' :: _ => (t <? t') && strictly_increasing r
      end
  end.

(** [u.diff()]: the first entry is NaN ([None]), every other entry is the
    value minus the value one position before. *)
Fixpoint diff_from (prev : Z) (u : series) : list (label * option Z) :=
  match u with
  | [] => []
  | (t, v) :: r => (t, Some (v - prev)) :: diff_from v r
  end.

Definition diff (u : series) : list (label * option Z) :=
  match u with
  | [] => []
  | (t, v) :: r => (t, None) :: diff_from v r
  end.

(** [d > c] and [d < c] on a series of differences: a comparison with NaN
    is [False]. *)
Definition mask (p : Z -> bool) (d : list (label * option Z)) : list bool :=
  map (fun e => match snd e with Some x => p x | None => false end) d.

(** [s[m]] for a boolean mask [m] over the index of [s]. *)
Fixpoint select {A : Type} (m : list bool) (s : list A) : list A :=
  match m, s with
  | b :: m', x :: s' => if b then x :: select m' s' else select m' s'
  | _, _ => []
  end.

(** [u[u.index > t]], [u[u.index >= t]], [u[~(u.index >= t)]] and the label
    slice [u[:t]] (which includes [t]; the index is sorted). *)
Definition after (t : label) (u : series) : series :=
  filter (fun e => t <? fst e) u.
Definition from (t : label) (u : series) : series :=
  filter (fun e => t <=? fst e) u.
Definition before (t : label) (u : series) : series :=
  filter (fun e => negb (t <=? fst e)) u.
Definition upto (t : label) (u : series) : series :=
  filter (fun e => fst e <=? t) u.

(** [s[0]] on a series whose index holds no integers: position 0. *)
Definition iloc0 (s : series) : outcome Z :=
  match s with
  | [] => Raise IndexError
  | (_, v) :: _ => Ret v
  end.

(** [s[-2]]: the value one position before the last. *)
Definition iloc_neg2 (s : series) : outcome Z :=
  match rev s with
  | _ :: (_, v) :: _ => Ret v
  | _ => Raise IndexError
  end.

(** [l[0]] on the list [jump.index.format()]. *)
Definition first_label (l : list label) : outcome label :=
  match l with
  | [] => Raise IndexError
  | t :: _ => Ret t
  end.

(** [u[t]] for a label [t]; the labels of [u] are unique, so the label
    selects the one observation that carries it. *)
Definition loc (u : series) (t : label) : outcome Z :=
  match filter (fun e => fst e =? t) u with
  | [] => Raise KeyError
  | (_, v) :: _ => Ret v
  end.

(** [u.drop(t)]. *)
Definition drop (t : label) (u : series) : outcome series :=
  if existsb (fun e => fst e =? t) u
  then Ret (filter (fun e => negb (fst e =? t)) u)
  else Raise KeyError.

(** [s - c] for a scalar [c]. *)
Definition sub_scalar (s : series) (c : Z) : series :=
  map (fun e => (fst e, snd e - c)) s.

(** ** Snow-mast heightening: the jump correction *)

Section JumpCorrection.

(** The test on a difference that both filters write inline:
    [u.diff() < -1000] for the baseline, [gnssir_rh.diff() > 2500] for
    the reflector height. *)
Variable beyond : Z -> bool.

(** The index of [jump].  [u.diff()[m]] (baseline) and [gnssir_rh[m]]
    (reflector) carry the same index, and only the index and [empty] of
    [jump] are read. *)
Definition jump_index (u : series) : list label :=
  index (select (mask beyond (diff u)) u).

(** The same selection on a series that continues after the value
    [prev]: the index of [jump] restricted to a tail of [u]. *)
Definition jumps_from (prev : Z) (u : series) : list label :=
  index (select (mask beyond (diff_from prev u)) u).

(** Two consecutive observations whose difference passes the test. *)
Definition has_jump (u : series) : Prop :=
  exists pre a b post,
    u = pre ++ a :: b :: post /\ beyond (snd b - snd a) = true.

(** One pass of the loop body:
    [adj = u[u.index >= t] - jump_val;
     u = pd.concat([u[~(u.index >= t)], adj])]. *)
Definition adjust (jump_val : Z) (t : label) (u : series) : series :=
  let adj := sub_scalar (from t u) jump_val in
  before t u ++ adj.

(** [while jump.empty is False: ...], with [jump_val] fixed before the
    loop is entered. *)
Fixpoint while_jump (fuel : nat) (jump_val : Z) (u : series) : outcome series :=
  match jump_index u with
  | [] => Ret u
  | t :: _ =>
      match fuel with
      | O => OutOfFuel
      | S fuel' => while_jump fuel' jump_val (adjust jump_val t u)
      end
  end.

(** [jump.index.format()] renders every label of [jump] as a full
    timestamp, unless all of them are at midnight: then it renders bare
    dates. *)
Definition midnight (t : label) : bool := t mod 86400 =? 0.
Definition dates_only (l : list label) : bool := forallb midnight l.

(** From [jump = ...] to the end of the loop ([filter_rtklib_solutions],
    lines 1236-1247; [filter_gnssir], lines 3151-3164).  [jump_ind] and
    [jump_val] are read before [jump.empty] is tested.

    [jump_ind] is the string [jump.index.format()[0]].  As a full
    timestamp it selects the one observation with that label, and
    [u[:jump_ind]] ends with it: this is what [loc] and [upto] state.  As
    a bare date ([dates_only (jump_index u) = true]) it selects the whole
    day in both lookups and [jump_val] is a series; this definition does
    not describe that run, and the statements about what the correction
    returns exclude it.  Inside the loop the string is only compared
    with the index, as the timestamp it denotes in either rendering. *)
Definition correct_jumps (fuel : nat) (u : series) : outcome series :=
  jump_ind <- first_label (jump_index u) ;;
  after_jump <- loc u jump_ind ;;
  before_jump <- iloc_neg2 (upto jump_ind u) ;;
  let jump_val := after_jump - before_jump in
  while_jump fuel jump_val u.

End JumpCorrection.

(** The sum, over the consecutive differences of a series that continues
    after the value [prev], of a number [excess d] attached to each
    difference [d]: the measure that bounds the passes of the loop. *)
Fixpoint excess_from (excess : Z -> nat) (prev : Z) (u : series) : nat :=
  match u with
  | [] => O
  | (_, v) :: r => (excess (v - prev)%Z + excess_from excess v r)%nat
  end.

(** The two loops of [filter_rtklib_solutions] that erase false jumps
    (lines 1218-1233).  [cands] is [jump_or_outlier] (then [value_after_jump]), computed once
    from the series the loop starts with; [u] is rebound by [drop] while
    the loop runs. [is_outlier next_line v] is the test of the [if]. *)
Fixpoint drop_outliers (is_outlier : Z -> Z -> bool) (cands : series) (u : series)
  : outcome series :=
  match cands with
  | [] => Ret u
  | (t, v) :: cands' =>
      next_line <- iloc0 (firstn 1 (after t u)) ;;
      if is_outlier next_line v
      then (u' <- drop t u ;; drop_outliers is_outlier cands' u')
      else drop_outliers is_outlier cands' u
  end.

(** First the positive jumps that a negative jump follows, then the
    negative jumps that a positive jump follows. *)
Definition remove_false_jumps (u : series) : outcome series :=
  let jump_or_outlier := select (mask (fun d => 1000 <? d) (diff u)) u in
  u1 <- drop_outliers (fun next_line v => next_line <? v - 1000) jump_or_outlier u ;;
  let value_after_jump := select (mask (fun d => d <? -1000) (diff u1)) u1 in
  drop_outliers (fun next_line v => v + 1000 <? next_line) value_after_jump u1.

(** [filter_rtklib_solutions], lines "find true SMH-jumps" to the end of
    the loop, and the whole heightening correction of that function. *)
Definition rtklib_beyond (d : Z) : bool := d <? -1000.

Definition rtklib_correct_jumps (fuel : nat) (u : series) : outcome series :=
  correct_jumps rtklib_beyond fuel u.

Definition rtklib_heightening (fuel : nat) (u : series) : outcome series :=
  u' <- remove_false_jumps u ;;
  rtklib_correct_jumps fuel u'.

(** [filter_gnssir], "detect jump" to the end of the loop. *)
Definition gnssir_beyond (d : Z) : bool := 2500 <? d.

Definition gnssir_correct_jumps (fuel : nat) (u : series) : outcome series :=
  correct_jumps gnssir_beyond fuel u.

(** A series with labels [0, 900, 1800, ...] (one fix every 15 minutes). *)
Definition quarter_hourly (vs : list Z) : series :=
  combine (map (fun i => 900 * Z.of_nat i) (seq 0 (length vs))) vs.

(** The series of the jump example of the specification. *)
Definition spec_jump_series : series :=
  quarter_hourly [0; 1; 2; 3; 1003; 1004; 1005].

(** ** Rolling sigma filter *)

(** [sorted(l)], by insertion. *)
Fixpoint insert (x : Z) (l : list Z) : list Z :=
  match l with
  | [] => [x]
  | y :: r => if x <=? y then x :: y :: r else y :: insert x r
  end.

Definition sort (l : list Z) : list Z := fold_right insert [] l.

(** [median()]: NaN ([None]) without observations, the middle value for an
    odd count, the mean of the two middle values for an even count. *)
Definition median (l : list Z) : option Q :=
  let s := sort l in
  let n := length s in
  match n with
  | O => None
  | _ =>
      if Nat.even n
      then Some (inject_Z (nth (n / 2 - 1) s 0 + nth (n / 2) s 0)%Z / 2)%Q
      else Some (inject_Z (nth (n / 2) s 0))
  end.

Definition sum (l : list Z) : Z := fold_right Z.add 0 l.

(** The sample variance (one delta degree of freedom):
    [(n * sum x^2 - (sum x)^2) / (n * (n - 1))]. *)
Definition variance (l : list Z) : Q :=
  let n := Z.of_nat (length l) in
  (inject_Z (n * sum (map (fun x => x * x) l) - sum l * sum l)%Z / inject_Z (n * (n - 1))%Z)%Q.

(** The square root of a rational, kept as its radicand: the standard
    deviation is compared with rationals only, and the comparison is
    decided on the squares. *)
Record surd : Type := Sqrt { radicand : Q }.

(** [std()]: NaN with fewer than two observations. *)
Definition std (l : list Z) : option surd :=
  if (length l <? 2)%nat then None else Some (Sqrt (variance l)).

(** [x < k * sqrt r], for [0 <= r]. *)
Definition lt_surd (x k : Q) (r : surd) : bool :=
  if Qle_bool 0 k
  then negb (Qle_bool 0 x) || negb (Qle_bool (k * k * radicand r) (x * x))
  else negb (Qle_bool 0 x) && negb (Qle_bool (x * x) (k * k * radicand r)).

(** A rolling limit [median + factor * std]. *)
Record limit : Type := Limit { centre : Q; factor : Q; spread : surd }.

Definition limits (med : list (option Q)) (k : Q) (sd : list (option surd))
  : list (option limit) :=
  map (fun ms => match ms with
                 | (Some m, Some s) => Some (Limit m k s)
                 | _ => None
                 end) (combine med sd).

(** [u < lim] and [u > lim], observation by observation; a comparison with
    NaN is [False]. *)
Definition lt_limit (v : Z) (l : option limit) : bool :=
  match l with
  | Some (Limit m k s) => lt_surd (inject_Z v - m) k s
  | None => false
  end.

Definition gt_limit (v : Z) (l : option limit) : bool :=
  match l with
  | Some (Limit m k s) => lt_surd (m - inject_Z v) (- k) s
  | None => false
  end.

(** [u.rolling(window)]: the window of an observation holds the
    observations up to its position whose labels lie less than [window]
    before its own (the index is sorted, and closed on the right). *)
Fixpoint rolling_from (window : Z) (seen u : series) : list (list Z) :=
  match u with
  | [] => []
  | (t, v) :: r =>
      let seen' := seen ++ [(t, v)] in
      values (filter (fun e => t - window <? fst e) seen') :: rolling_from window seen' r
  end.

Definition rolling (window : Z) (u : series) : list (list Z) :=
  rolling_from window [] u.

(** ['3D'] in seconds. *)
Definition three_days : Z := 3 * 86400.

(** [filter_rtklib_solutions], lines 1253-1255, and [filter_gnssir], lines
    3170-3172, with [w = '3D']:
    [upper_limit = u.rolling(w).median() + threshold * u.rolling(w).std();
     lower_limit = u.rolling(w).median() - threshold * u.rolling(w).std();
     u_clean = u[(u > lower_limit) & (u < upper_limit)]]. *)
Definition sigma_filter (window : Z) (threshold : Q) (u : series) : series :=
  let med := map median (rolling window u) in
  let sd := map std (rolling window u) in
  let upper_limit := limits med threshold sd in
  let lower_limit := limits med (- threshold) sd in
  let above := map (fun p => gt_limit (snd (fst p)) (snd p)) (combine u lower_limit) in
  let below := map (fun p => lt_limit (snd (fst p)) (snd p)) (combine u upper_limit) in
  select (map (fun p => fst p && snd p) (combine above below)) u.

(** The filter as both functions call it. *)
Definition u_clean (threshold : Q) (u : series) : series :=
  sigma_filter three_days threshold u.

(** A series obtained from another by removing observations. *)
Inductive subseries {A : Type} : list A -> list A -> Prop :=
| sub_nil : subseries [] []
| sub_keep (x : A) (l l' : list A) : subseries l l' -> subseries (x :: l) (x :: l')
| sub_drop (x : A) (l l' : list A) : subseries l l' -> subseries l (x :: l').


(** ** Daily resampling *)

(** The calendar day of a timestamp, in days since the epoch. *)
Definition day_of (t : label) : Z := t / 86400.

Definition min_label (t0 : label) (l : list label) : label := fold_right Z.min t0 l.
Definition max_label (t0 : label) (l : list label) : label := fold_right Z.max t0 l.

(** The number of calendar days a series spans, first and last included. *)
Definition days_spanned (u : series) : nat :=
  match index u with
  | [] => O
  | t0 :: l => Z.to_nat (day_of (max_label t0 l) - day_of (min_label t0 l) + 1)
  end.

(** The bins of [resample('D')]: every day from the day of the earliest
    label to the day of the latest. *)
Definition day_axis (u : series) : list Z :=
  match index u with
  | [] => []
  | t0 :: l =>
      map (fun i => day_of (min_label t0 l) + Z.of_nat i) (seq 0 (days_spanned u))
  end.

(** The observations of one day. *)
Definition bucket (u : series) (d : Z) : list Z :=
  values (filter (fun e => day_of (fst e) =? d) u).

(** [u.resample('D').stat()]: one entry per bin, labelled with the start of
    the day; the statistic of an empty bin is NaN. *)
Definition resample_D {S : Type} (stat : list Z -> option S) (u : series)
  : list (label * option S) :=
  map (fun d => (86400 * d, stat (bucket u d))) (day_axis u).

(** [dropna()]. *)
Definition dropna {S : Type} (s : list (label * option S)) : list (label * option S) :=
  filter (fun e => match snd e with Some _ => true | None => false end) s.

(** [filter_rtklib_solutions], lines 1258-1269:
    [swe_gnss = u_clean - baseline_length;
     swe_gnss.index = swe_gnss.index + pd.Timedelta(seconds=18);
     swe_gnss_daily = swe_gnss.resample('D').median();
     std_gnss_daily = swe_gnss.resample('D').std()]. *)
Definition swe_gnss (baseline_length : Z) (u_clean : series) : series :=
  map (fun e => (fst e + 18, snd e)) (sub_scalar u_clean baseline_length).

Definition swe_gnss_daily (baseline_length : Z) (u_clean : series) : list (label * option Q) :=
  resample_D median (swe_gnss baseline_length u_clean).

Definition std_gnss_daily (baseline_length : Z) (u_clean : series) : list (label * option surd) :=
  resample_D std (swe_gnss baseline_length u_clean).

(** [resample_gnss] (lines 1920-1935) with its default [interval='D'], on
    one column per receiver.  [leica_res] and [emlid_res] are bound only under
    [is not None]. *)
Definition resample_gnss (gnss_leica gnss_emlid : option series)
  : outcome (list (label * option Q) * list (label * option Q)) :=
  match gnss_leica, gnss_emlid with
  | Some leica, Some emlid =>
      let leica_res := dropna (resample_D median leica) in
      let emlid_res := dropna (resample_D median emlid) in
      Ret (leica_res, emlid_res)
  | _, _ => Raise UnboundLocalError
  end.


(** ** Density from SWE and snow height *)

(** A float64 value: a rational, an infinity or NaN.  Zero carries no
    sign. *)
Inductive fnum : Type :=
| Fin (q : Q)
| PInf
| NInf
| NaN.

(** A series of floats, as the daily series are. *)
Definition fseries := list (label * fnum).

Definition Qis_zero (q : Q) : bool := Qeq_bool q 0.
Definition Qlt_bool (a b : Q) : bool := negb (Qle_bool b a).

(** [x * 1000]. *)
Definition fmul_1000 (x : fnum) : fnum :=
  match x with
  | Fin q => Fin (q * 1000)
  | other => other
  end.

(** Float division: no exception, a zero divisor gives an infinity, or NaN
    for 0/0. *)
Definition fdiv (x y : fnum) : fnum :=
  match x, y with
  | NaN, _ | _, NaN => NaN
  | Fin a, Fin b =>
      if Qis_zero b
      then (if Qis_zero a then NaN else if Qlt_bool 0 a then PInf else NInf)
      else Fin (a / b)
  | Fin _, _ => Fin 0
  | PInf, Fin b => if Qle_bool 0 b then PInf else NInf
  | NInf, Fin b => if Qle_bool 0 b then NInf else PInf
  | _, _ => NaN
  end.

(** [x < c] and [x >= c] for a finite [c]; a comparison with NaN is
    [False]. *)
Definition flt (x : fnum) (c : Q) : bool :=
  match x with
  | Fin q => Qlt_bool q c
  | NInf => true
  | _ => false
  end.

Definition fge (x : fnum) (c : Q) : bool :=
  match x with
  | Fin q => Qle_bool c q
  | PInf => true
  | _ => false
  end.

(** The value a series holds at a label after alignment: NaN where the
    label is absent. *)
Fixpoint get (s : fseries) (t : label) : fnum :=
  match s with
  | [] => NaN
  | (t', x) :: r => if t' =? t then x else get r t
  end.

(** The union of two indexes, sorted. *)
Fixpoint insert_label (t : label) (l : list label) : list label :=
  match l with
  | [] => [t]
  | t' :: r =>
      if t <? t' then t :: t' :: r
      else if t =? t' then t' :: r
      else t' :: insert_label t r
  end.

Definition union_index (a b : fseries) : list label :=
  fold_right insert_label [] (index a ++ index b).

(** [a.divide(b, axis=0)]: both series are aligned on the union of their
    labels.  The union is in increasing order, which is the order of the
    result for two series with strictly increasing labels; where the
    order of a result is stated, the operands are taken to be such. *)
Definition divide (a b : fseries) : fseries :=
  map (fun t => (t, fdiv (get a t) (get b t))) (union_index a b).

Definition fdropna (s : fseries) : fseries :=
  filter (fun e => match snd e with NaN => false | _ => true end) s.

(** [convert_swesh2density] (lines 1819-1837):
    [density = ((swe * 1000).divide(sh, axis=0)).dropna();
     density_cleaned = density[~((density < 50) | (density >= 830))]]. *)
Definition convert_swesh2density (swe sh : fseries) : fseries :=
  let swe_1000 := map (fun e => (fst e, fmul_1000 (snd e))) swe in
  let density := fdropna (divide swe_1000 sh) in
  let density_fil := density in
  filter (fun e => negb (flt (snd e) 50 || fge (snd e) 830)) density_fil.


(** ** Model functions and error propagation

    Floats are real numbers here: [np.exp], [np.sqrt] and the division are
    the functions of the reals. *)

Local Open Scope R_scope.

(** [a * np.exp(b * x) + c], [a * np.exp(b * x)] and [std / np.sqrt(x)]. *)
Definition func_exp (x a b c : R) : R := a * exp (b * x) + c.
Definition func_exp2 (x a b : R) : R := a * exp (b * x).
Definition func_exp3 (x std : R) : R := std / sqrt x.

(** [np.linspace(start, stop, num)]. *)
Definition linspace (start stop : R) (num : nat) : list R :=
  map (fun i => start + INR i * ((stop - start) / INR (num - 1))) (seq 0 num).

(** An operation on two arrays, element by element. *)
Fixpoint zip_with {A B C : Type} (f : A -> B -> C) (la : list A) (lb : list B) : list C :=
  match la, lb with
  | a :: la', b :: lb' => f a b :: zip_with f la' lb'
  | _, _ => []
  end.

(** A row of the data frame of [func_err_prop_single] (lines 2222-2230):
    the height, the relative and the absolute error. *)
Record error_row : Type := Row { row_h : R; rel_err : R; abs_err : R }.

Definition func_err_prop_single (a b c m_err h_err : R) : list error_row :=
  let h := linspace 0 10 1001 in
  let m := map (fun x => func_exp x a b c) h in
  let density := zip_with Rdiv m h in
  let rel_err := zip_with (fun mi hi => sqrt ((m_err / mi) ^ 2 + (h_err / hi) ^ 2)) m h in
  let abs_err := zip_with Rmult rel_err density in
  zip_with (fun hi ra => Row hi (fst ra) (snd ra)) h (combine rel_err abs_err).

(** [pd.concat([error1, error2, error3, error4], axis=1)]: the four frames
    share the index [h], the rows are joined side by side. *)
Definition func_err_prop (a b c m_err1 m_err2 m_err3 m_err4 h_err1 h_err2 h_err3 h_err4 : R)
  : list (error_row * error_row * error_row * error_row) :=
  let error1 := func_err_prop_single a b c m_err1 h_err1 in
  let error2 := func_err_prop_single a b c m_err2 h_err2 in
  let error3 := func_err_prop_single a b c m_err3 h_err3 in
  let error4 := func_err_prop_single a b c m_err4 h_err4 in
  combine (combine (combine error1 error2) error3) error4.

(** ** Exponential regression *)

(** A value of the list that [exponential_regression] returns: an array or
    the integer of the zero model. *)
Inductive pyval : Type :=
| Arr (l : list R)
| Int (z : Z).

Section Fit.

(** [scipy.optimize.curve_fit(f, xdata, ydata, p0, sigma)]: the optimal
    parameters and their covariance, or the exception it raises (when the
    least-squares minimisation fails, or the data are too few for the
    parameters).  The optimiser is not part of the repository. *)
Variable curve_fit :
  (R -> list R -> R) -> list R -> list R -> list R -> option (list R) ->
  outcome (list R * list (list R)).

(** [np.ones(n)], and [sigma[0] = 0.000001]. *)
Definition ones (n : nat) : list R := repeat 1 n.

Definition set_first (x : R) (l : list R) : outcome (list R) :=
  match l with
  | [] => Raise IndexError
  | _ :: r => Ret (x :: r)
  end.

Definition param (p : list R) (i : nat) : R := nth i p 0.

(** [exponential_regression(title, x_data, y_data, function, y_0, guess,
    unit)] (lines 2268-2340).  [title] and [unit] are printed only; [calculate_stats] prints
    and its result is discarded. *)
Definition exponential_regression
  (x_data y_data : list R) (function : String.string) (y_0 : Z) (guess : list R)
  : outcome (list pyval) :=
  if String.eqb function "a * exp(b * x) + c"%string then
    sigma <- (if (y_0 =? 0)%Z then set_first (1 / 1000000) (ones (length x_data))
              else Ret (ones (length x_data))) ;;
    fitted <- curve_fit (fun x p => func_exp x (param p 0) (param p 1) (param p 2))
                        x_data y_data guess (Some sigma) ;;
    let popt := fst fitted in
    let fit := map (fun x => func_exp x (param popt 0) (param popt 1) (param popt 2)) x_data in
    Ret [Arr x_data; Arr fit; Arr popt]
  else if String.eqb function "a * exp(b * x)"%string then
    fitted <- curve_fit (fun x p => func_exp2 x (param p 0) (param p 1))
                        x_data y_data guess None ;;
    let popt := fst fitted in
    let fit := map (fun x => func_exp2 x (param popt 0) (param popt 1)) x_data in
    Ret [Arr x_data; Arr fit; Arr popt]
  else if String.eqb function "std/sqrt(n)"%string then
    fitted <- curve_fit (fun x p => func_exp3 x (param p 0))
                        x_data y_data guess None ;;
    let popt := fst fitted in
    let fit := map (fun x => func_exp3 x (param popt 0)) x_data in
    Ret [Arr x_data; Arr fit; Arr popt]
  else
    Ret [Int 0; Int 0; Int 0].

End Fit.

(** The names [exponential_regression] fits a model for. *)
Definition fitted_model (function : string) : Prop :=
  function = "a * exp(b * x) + c"%string \/
  function = "a * exp(b * x)"%string \/
  function = "std/sqrt(n)"%string.

Local Close Scope R_scope.

(** ** The sigma filter, observation by observation *)

(** The test the mask applies to an observation [v] whose rolling window
    holds the values [l]: both comparisons with the limits. *)
Definition keeps (threshold : Q) (l : list Z) (v : Z) : bool :=
  match median l, std l with
  | Some m, Some s =>
      gt_limit v (Some (Limit m (- threshold) s)) && lt_limit v (Some (Limit m threshold s))
  | _, _ => false
  end.

(** The rolling window of the observation at label [t], the last of
    [seen]. *)
Definition window_values (window : Z) (t : label) (seen : series) : list Z :=
  values (filter (fun e => t - window <? fst e) seen).

(** The filter as one pass over the series; [seen] holds the observations
    before the current one. *)
Fixpoint sigma_from (window : Z) (threshold : Q) (seen u : series) : series :=
  match u with
  | [] => []
  | (t, v) :: r =>
      let seen' := seen ++ [(t, v)] in
      (if keeps threshold (window_values window t seen') v then [(t, v)] else [])
        ++ sigma_from window threshold seen' r
  end.

(** ** Laser distance sensor: [filter_laser_observations] (lines 1690-1736) *)

(** A row of the laser frame: the error code and the accumulation [dsh], in
    millimetres. *)
Record laser_row : Type := LaserRow { laser_error : Z; laser_dsh : Z }.

(** [laser[(laser.error == 0)].dsh]. *)
Definition error_free (laser : list (label * laser_row)) : series :=
  map (fun e => (fst e, laser_dsh (snd e)))
      (filter (fun e => laser_error (snd e) =? 0) laser).

(** [s.min()]: NaN ([None]) for the empty series. *)
Definition series_min (s : series) : option Z :=
  match values s with
  | [] => None
  | v :: l => Some (fold_right Z.min v l)
  end.

(** [f = dsh[(dsh > dsh.min())]]; a comparison with NaN is [False]. *)
Definition above_min (dsh : series) : series :=
  filter (fun e => match series_min dsh with
                   | Some m => m <? snd e
                   | None => false
                   end) dsh.

(** ['7D'] in seconds. *)
Definition seven_days : Z := 7 * 86400.

(** [(gradient > 500) | (gradient < -500)]. *)
Definition laser_beyond (g : Z) : bool := (500 <? g) || (g <? -500).

(** [f_clean.loc[~f_clean.index.isin(outliers)]]. *)
Definition not_isin (outliers : list label) (s : series) : series :=
  filter (fun e => negb (existsb (Z.eqb (fst e)) outliers)) s.

(** The loop on the gradient:
    [outliers = f_clean.index[(gradient > 500) | (gradient < -500)];
     while outliers.empty is False:
         f_clean = f_clean.loc[~f_clean.index.isin(outliers)]; ...]. *)
Fixpoint remove_gradient_outliers (fuel : nat) (f_clean : series) : outcome series :=
  match jump_index laser_beyond f_clean with
  | [] => Ret f_clean
  | outliers =>
      match fuel with
      | O => OutOfFuel
      | S fuel' =>
          let fil_dsh := not_isin outliers f_clean in
          remove_gradient_outliers fuel' fil_dsh
      end
  end.

(** [is_monotonic_increasing] and [is_monotonic_decreasing] of an
    index. *)
Fixpoint nondecreasing (l : list label) : bool :=
  match l with
  | [] => true
  | t :: r =>
      match r with
      | [] => true
      | t' :: _ => (t <=? t') && nondecreasing r
      end
  end.

Fixpoint nonincreasing (l : list label) : bool :=
  match l with
  | [] => true
  | t :: r =>
      match r with
      | [] => true
      | t' :: _ => (t' <=? t) && nonincreasing r
      end
  end.

(** Steps 0 to 3 of [filter_laser_observations]: the series [f_clean] that
    the median filter and the conversion to SWE start from.
    [f.rolling('7D')] raises [ValueError] unless the index of [f] is
    monotonic; the frame is not sorted by the function.  The windows of
    [sigma_filter] are those of an index in increasing order. *)
Definition laser_f_clean (fuel : nat) (threshold : Q) (laser : list (label * laser_row))
  : outcome series :=
  let dsh := error_free laser in
  let f := above_min dsh in
  if nondecreasing (index f) || nonincreasing (index f)
  then
    let f_clean := sigma_filter seven_days threshold f in
    remove_gradient_outliers fuel f_clean
  else Raise (LibraryError "ValueError: index must be monotonic").

(** ** Conversions between SWE and snow height

    The values are exact rationals, where the code rounds to float64:
    what is stated of a value below is whether it is missing, infinite
    or a number, never its digits.  As for [divide], two series are
    aligned as pandas aligns series with strictly increasing labels. *)

(** Float multiplication: 0 times an infinity is NaN. *)
Definition fmul (x y : fnum) : fnum :=
  match x, y with
  | NaN, _ | _, NaN => NaN
  | Fin a, Fin b => Fin (a * b)
  | Fin a, PInf | PInf, Fin a =>
      if Qis_zero a then NaN else if Qlt_bool 0 a then PInf else NInf
  | Fin a, NInf | NInf, Fin a =>
      if Qis_zero a then NaN else if Qlt_bool 0 a then NInf else PInf
  | PInf, PInf | NInf, NInf => PInf
  | PInf, NInf | NInf, PInf => NInf
  end.

(** [s * c] and [s / c] for a scalar [c]. *)
Definition mul_scalar (s : fseries) (c : Q) : fseries :=
  map (fun e => (fst e, fmul (snd e) (Fin c))) s.
Definition div_scalar (s : fseries) (c : Q) : fseries :=
  map (fun e => (fst e, fdiv (snd e) (Fin c))) s.

(** [a.multiply(b, axis=0)], aligned like [divide]. *)
Definition multiply (a b : fseries) : fseries :=
  map (fun t => (t, fmul (get a t) (get b t))) (union_index a b).

(** [convert_swe2sh] (lines 1869-1882):
    [sh = swe * 1000 / 408], or
    [sh = ((swe * 1000).divide(ipol_density, axis=0)).dropna()]. *)
Definition convert_swe2sh (swe : fseries) (ipol_density : option fseries) : fseries :=
  match ipol_density with
  | None => div_scalar (mul_scalar swe 1000) 408
  | Some density => fdropna (divide (mul_scalar swe 1000) density)
  end.

(** [convert_sh2swe] (lines 1885-1898):
    [swe = (sh / 1000) * 408], or
    [swe = ((sh / 1000).multiply(ipol_density, axis=0)).dropna()]. *)
Definition convert_sh2swe (sh : fseries) (ipol_density : option fseries) : fseries :=
  match ipol_density with
  | None => mul_scalar (div_scalar sh 1000) 408
  | Some density => fdropna (multiply (div_scalar sh 1000) density)
  end.

(** A float that is zero, and one that is an infinity. *)
Definition is_zero (x : fnum) : bool :=
  match x with Fin q => Qis_zero q | _ => false end.
Definition is_inf (x : fnum) : bool :=
  match x with PInf | NInf => true | _ => false end.

(** SWE to height and back for one value and one density. *)
Definition there_and_back (x d : fnum) : fnum :=
  fmul (fdiv (fdiv (fmul x (Fin 1000)) d) (Fin 1000)) d.

(** ** Data frames from aligned series, and the density of new snow *)

Definition is_nan (x : fnum) : bool :=
  match x with NaN => true | _ => false end.

(** Float subtraction. *)
Definition fsub (x y : fnum) : fnum :=
  match x, y with
  | NaN, _ | _, NaN => NaN
  | Fin a, Fin b => Fin (a - b)
  | Fin _, PInf => NInf
  | Fin _, NInf => PInf
  | PInf, Fin _ => PInf
  | NInf, Fin _ => NInf
  | PInf, NInf => PInf
  | NInf, PInf => NInf
  | PInf, PInf | NInf, NInf => NaN
  end.

(** A data frame of float columns: one row of values per label. *)
Definition frame := list (label * list fnum).

(** The sorted union of the labels of several series. *)
Definition union_all (cols : list fseries) : list label :=
  fold_right insert_label [] (concat (map index cols)).

(** [pd.concat(cols, axis=1)]: one row per label of any of the series, a
    series without the label contributes NaN; [None] objects are dropped
    silently.  The rows are in increasing order of the labels, as for
    series with strictly increasing labels (those of the resampled
    series are); series that share an index in another order keep that
    order, which this definition does not describe. *)
Definition given (cols : list (option fseries)) : list fseries :=
  flat_map (fun c => match c with Some s => [s] | None => [] end) cols.

Definition concat_columns (cols : list fseries) : frame :=
  map (fun t => (t, map (fun c => get c t) cols)) (union_all cols).

(** [dataframe.dropna()]: a row with a NaN in any column is dropped. *)
Definition dropna_rows (df : frame) : frame :=
  filter (fun r => forallb (fun x => negb (is_nan x)) (snd r)) df.

(** [dataframe.set_index(x_data_name)]: the first column becomes the
    index. *)
Definition set_index (df : frame) : list (fnum * list fnum) :=
  map (fun r => (hd NaN (snd r), tl (snd r))) df.

(** [create_new_df] (lines 2135-2164).  The branch is chosen by which of
    [y_data2], [y_data3], [y_data4] are [None]; assigning the branch's
    column names to a frame with fewer columns raises [ValueError]
    ([Length mismatch]).  The column names themselves are not modelled. *)
Definition create_new_df (x_data y_data : fseries) (y_data2 y_data3 y_data4 : option fseries)
  : outcome (frame * list (fnum * list fnum)) :=
  let build (objs : list (option fseries)) (names : nat) :=
    let dataframe := concat_columns (given objs) in
    if Nat.eqb (length (given objs)) names
    then
      let dataframe := dropna_rows dataframe in
      let df_x_index := set_index dataframe in
      Ret (dataframe, df_x_index)
    else Raise (LibraryError "ValueError: Length mismatch") in
  match y_data2, y_data3, y_data4 with
  | None, None, None => build [Some x_data; Some y_data] 2%nat
  | _, None, None => build [Some x_data; Some y_data; y_data2] 3%nat
  | _, _, None => build [Some x_data; Some y_data; y_data2; y_data3] 4%nat
  | _, _, _ => build [Some x_data; Some y_data; y_data2; y_data3; y_data4] 5%nat
  end.

(** The value at a position; NaN outside the series. *)
Definition at_pos (s : fseries) (i : Z) : fnum :=
  if i <? 0 then NaN else nth (Z.to_nat i) (values s) NaN.

(** [s.shift(k)]: the index stays, the value at position [i] is the one
    that was at position [i - k]. *)
Definition shift (s : fseries) (k : Z) : fseries :=
  map (fun i => (nth i (index s) 0, at_pos s (Z.of_nat i - k))) (seq 0 (length s)).

(** [a - b] for two series with the same index object: position by
    position. *)
Definition sub_same (a b : fseries) : fseries :=
  map (fun p => (fst (fst p), fsub (snd (fst p)) (snd (snd p)))) (combine a b).

(** [s[s < c] = np.nan]. *)
Definition mask_below (s : fseries) (c : Q) : fseries :=
  map (fun e => if flt (snd e) c then (fst e, NaN) else e) s.

(** [calc_new_snow_density] (lines 1840-1867); [int(interval/2)] truncates
    towards zero. *)
Definition calc_new_snow_density (snow_height swe : fseries) (interval : Z) (min_acc : Q)
  : outcome (frame * list (fnum * list fnum)) :=
  let h_t1 := shift snow_height (Z.quot interval 2) in
  let h_t2 := shift snow_height (- Z.quot interval 2) in
  let h_new_snow := sub_same h_t2 h_t1 in
  let h_new_snow := mask_below h_new_snow min_acc in
  let swe_t1 := shift swe (Z.quot interval 2) in
  let swe_t2 := shift swe (- Z.quot interval 2) in
  let swe_new_snow := sub_same swe_t2 swe_t1 in
  let d_new_snow := divide swe_new_snow h_new_snow in
  create_new_df h_new_snow swe_new_snow (Some d_new_snow) None None.

(** The series handed over in the order of the parameters, none left out
    before a later one. *)
Definition in_order (y_data2 y_data3 y_data4 : option fseries) : bool :=
  match y_data2, y_data3, y_data4 with
  | None, Some _, _ | _, None, Some _ => false
  | _, _, _ => true
  end.

(** The height and the mass gained around position [i]: the value
    [int(interval/2)] positions later minus the value as many positions
    earlier. *)
Definition gain (s : fseries) (interval : Z) (i : nat) : fnum :=
  fsub (at_pos s (Z.of_nat i + Z.quot interval 2))
       (at_pos s (Z.of_nat i - Z.quot interval 2)).

Definition gain_above (s : fseries) (interval : Z) (min_acc : Q) (i : nat) : fnum :=
  if flt (gain s interval i) min_acc then NaN else gain s interval i.

(** ** Error per density, and the footprint of the refracted signal *)

Local Open Scope R_scope.

(** A row of the data frame of [func_err_prop2] (lines 2242-2256): the
    height, the relative error, and the absolute error of four
    densities. *)
Record density_error_row : Type :=
  DensityRow { dens_h : R; dens_rel_err : R;
               abs_err1 : R; abs_err2 : R; abs_err3 : R; abs_err4 : R }.

Definition func_err_prop2 (a b c m_err h_err density1 density2 density3 density4 : R)
  : list density_error_row :=
  let h := linspace 0 10 1001 in
  let m := map (fun x => func_exp x a b c) h in
  let rel_err := zip_with (fun mi hi => sqrt ((m_err / mi) ^ 2 + (h_err / hi) ^ 2)) m h in
  let abs_err1 := map (fun r => r * density1) rel_err in
  let abs_err2 := map (fun r => r * density2) rel_err in
  let abs_err3 := map (fun r => r * density3) rel_err in
  let abs_err4 := map (fun r => r * density4) rel_err in
  zip_with (fun hi e => DensityRow hi (fst e) (fst (fst (snd e))) (snd (fst (snd e)))
                                   (fst (snd (snd e))) (snd (snd (snd e))))
           h (combine rel_err (combine (combine abs_err1 abs_err2) (combine abs_err3 abs_err4))).

(** [math.radians(a)]. *)
Definition radians (a : R) : R := a * PI / 180.

(** [func_footprint(h, n, a)] (lines 2213-2219): snow height, refractive
    index of the snow, angle of incidence in degrees. *)
Definition func_footprint (h n a : R) : R :=
  h * tan (asin (sin (radians a) / n)).

(** A row of the data frame of [calc_footprint] (lines 1805-1817): height
    and radii in centimetres for dry, moist, wet and very wet snow. *)
Record footprint_row : Type :=
  FootprintRow { fp_h : R; r_ds : R; r_ms : R; r_ws : R; r_vws : R }.

Definition calc_footprint (incident_angle : R) : list footprint_row :=
  let snowheight := linspace 0 2 201 in
  let footprint_drysnow := map (fun h => func_footprint h (132 / 100) incident_angle) snowheight in
  let footprint_moistsnow := map (fun h => func_footprint h (148 / 100) incident_angle) snowheight in
  let footprint_wetsnow := map (fun h => func_footprint h (181 / 100) incident_angle) snowheight in
  let footprint_verywetsnow := map (fun h => func_footprint h (23 / 10) incident_angle) snowheight in
  let scale := map (fun x => x * 100) in
  zip_with (fun h r => FootprintRow h (fst (fst r)) (snd (fst r)) (fst (snd r)) (snd (snd r)))
           (scale snowheight)
           (combine (combine (scale footprint_drysnow) (scale footprint_moistsnow))
                    (combine (scale footprint_wetsnow) (scale footprint_verywetsnow))).

Local Close Scope R_scope.

(** ** The two filters, from the input frame to the cleaned series *)

(** [w] is [u] with a multiple [k_i * c] of [c] subtracted from its i-th
    value, the multiples not decreasing along the series and none below
    [k]. *)
Inductive stepped (c : Z) : nat -> series -> series -> Prop :=
| stepped_nil (k : nat) : stepped c k [] []
| stepped_cons (k k' : nat) (t : label) (v : Z) (u w : series) :
    (k <= k')%nat -> stepped c k' u w ->
    stepped c k ((t, v) :: u) ((t, v - Z.of_nat k' * c) :: w).

(** [sort_index()], as a stable sort on the labels. *)
Fixpoint insert_row {V : Type} (e : label * V) (l : list (label * V)) : list (label * V) :=
  match l with
  | [] => [e]
  | e' :: r => if fst e <=? fst e' then e :: e' :: r else e' :: insert_row e r
  end.

Definition sort_index {V : Type} (l : list (label * V)) : list (label * V) :=
  fold_right insert_row [] l.

(** A row of [df_enu]: the up component in millimetres ([U * 1000]) and
    the state of the ambiguity resolution. *)
Record enu_row : Type := EnuRow { U_mm : Z; amb_state : Z }.

(** [swe_gnss[swe_gnss == swe_gnss.min()].index]. *)
Definition date_of_min (s : series) : list label :=
  match series_min s with
  | Some m => index (filter (fun e => snd e =? m) s)
  | None => []
  end.

(** What [filter_rtklib_solutions] returns (the rolling series, which no
    other result depends on, are left out). *)
Record rtklib_filtered : Type :=
  RtklibFiltered {
    out_fil_df : list (label * enu_row);
    out_u : series;
    out_u_clean : series;
    out_swe_gnss : series;
    out_swe_gnss_daily : list (label * option Q);
    out_std_gnss_daily : list (label * option surd);
    out_date_of_min : list label }.

(** [u = fil_df.U * 1000] of the rows with the selected ambiguity state,
    in time order (lines 1210-1213). *)
Definition selected_u (df_enu : list (label * enu_row)) (ambiguity : Z) : series :=
  map (fun e => (fst e, U_mm (snd e)))
      (sort_index (filter (fun e => amb_state (snd e) =? ambiguity) df_enu)).

(** [filter_rtklib_solutions] (lines 1191-1285) for one ambiguity state.
    The jump correction is the one of [correct_jumps], with its reading
    of [jump_ind]. *)
Definition filter_rtklib_solutions
  (fuel : nat) (df_enu : list (label * enu_row)) (ambiguity : Z) (threshold : Q)
  (baseline_length : Z) : outcome rtklib_filtered :=
  let fil_df := filter (fun e => amb_state (snd e) =? ambiguity) df_enu in
  let fil_df := sort_index fil_df in
  let u := map (fun e => (fst e, U_mm (snd e))) fil_df in
  u <- rtklib_heightening fuel u ;;
  let cleaned := u_clean threshold u in
  let swe := swe_gnss baseline_length cleaned in
  Ret (RtklibFiltered fil_df u cleaned swe
         (resample_D median swe) (resample_D std swe) (date_of_min swe)).

(** A row of [df_rh]: the reflector height in millimetres ([RH * 1000]),
    the azimuth in degrees and the code of the frequency. *)
Record rh_row : Type := RhRow { RH_mm : Z; Azim : Q; freq : Z }.

(** The parameter [freq]: ['all'], ['2nd'], ['1st'] or the code of one
    frequency. *)
Inductive frequency : Type :=
| All
| Second
| First
| Single (code : Z).

Definition selects (choice : frequency) (f : Z) : bool :=
  match choice with
  | All => true
  | Second => existsb (Z.eqb f) [5; 102; 205; 207]
  | First => existsb (Z.eqb f) [1; 101; 201]
  | Single code => f =? code
  end.

(** [gnssir_rh] after [sort_index] (lines 3128-3148): the reflector
    heights of the chosen frequencies and of the azimuths that are
    kept. *)
Definition selected_rh (df_rh : list (label * rh_row)) (choice : frequency) : series :=
  let gnssir_rh := filter (fun e => selects choice (freq (snd e))) df_rh in
  let gnssir_rh :=
    filter (fun e => Qlt_bool 30 (Azim (snd e)) && Qlt_bool (Azim (snd e)) 310) gnssir_rh in
  let gnssir_rh :=
    map (fun e => (fst e, RH_mm (snd e)))
        (filter (fun e => Qlt_bool 210 (Azim (snd e)) || Qlt_bool (Azim (snd e)) 160)
                gnssir_rh) in
  sort_index gnssir_rh.

(** Lines 3128-3172 of [filter_gnssir]: the values of the local names
    [gnssir_rh] and [gnssir_rh_clean] once line 3172 has run.  These are
    not what [filter_gnssir] returns: it goes on to rebind
    [gnssir_rh_clean] to its 15-minute medians and returns the
    accumulations computed from them. *)
Definition gnssir_cleaning
  (fuel : nat) (df_rh : list (label * rh_row)) (choice : frequency) (threshold : Q)
  : outcome (series * series) :=
  let gnssir_rh := selected_rh df_rh choice in
  gnssir_rh <- gnssir_correct_jumps fuel gnssir_rh ;;
  let gnssir_rh_clean := sigma_filter three_days threshold gnssir_rh in
  Ret (gnssir_rh, gnssir_rh_clean).

(** ** Resampling of the reference observations *)

(** [resample_ref_obs] (lines 1937-1947) with its default [interval='D'],
    on one column: no [dropna]. *)
Definition resample_ref_obs (ref_df : series) : list (label * option Q) :=
  resample_D median ref_df.

(** Reading a local name that is bound only under a condition. *)
Definition read_local {A : Type} (x : option A) : outcome A :=
  match x with
  | Some a => Ret a
  | None => Raise UnboundLocalError
  end.

(** [resample_allobs] (lines 1950-1987) with [interval='D'], on one
    column per sensor; the tuple it returns is the list of its
    components.  [buoy_res], [poles_res] and [laser_res] are bound only
    under [is not None]. *)
Definition resample_allobs (gnss_leica gnss_emlid : series) (buoy poles laser : option series)
  : outcome (list (list (label * option Q))) :=
  let leica_res := dropna (resample_D median gnss_leica) in
  let emlid_res := dropna (resample_D median gnss_emlid) in
  let buoy_res := option_map (resample_D median) buoy in
  let poles_res := option_map (resample_D median) poles in
  let laser_res := option_map (resample_D median) laser in
  match buoy, poles, laser with
  | Some _, Some _, Some _ =>
      b <- read_local buoy_res ;; p <- read_local poles_res ;; l <- read_local laser_res ;;
      Ret [leica_res; emlid_res; b; p; l]
  | None, Some _, Some _ =>
      p <- read_local poles_res ;; l <- read_local laser_res ;;
      Ret [leica_res; emlid_res; p; l]
  | Some _, None, Some _ =>
      b <- read_local buoy_res ;; l <- read_local laser_res ;;
      Ret [leica_res; emlid_res; b; l]
  | Some _, Some _, None =>
      b <- read_local buoy_res ;; p <- read_local poles_res ;;
      Ret [leica_res; emlid_res; b; p]
  | None, None, Some _ =>
      l <- read_local laser_res ;; Ret [leica_res; emlid_res; l]
  | Some _, None, None =>
      b <- read_local buoy_res ;; Ret [leica_res; emlid_res; b]
  | None, Some _, None =>
      p <- read_local poles_res ;; Ret [leica_res; emlid_res; p]
  | None, None, None => Ret [leica_res; emlid_res]
  end.

(** ** Statistics of the residuals: [calculate_stats] (lines 2018-2072)

    Floats are real numbers here.  Identities between the printed
    quantities that hold over the reals (mean squared error = variance +
    squared mean error) fail by rounding in float64 and are not stated;
    what is stated holds under any monotone rounding. *)

Local Open Scope R_scope.

(** [np.sum], [np.mean], [np.std] (the population form, [ddof=0]) on an
    array. *)
Definition np_sum (l : list R) : R := fold_right Rplus 0 l.
Definition np_mean (l : list R) : R := np_sum l / INR (length l).
Definition np_std (l : list R) : R :=
  sqrt (np_mean (map (fun x => (x - np_mean l) ^ 2) l)).

(** [np.max] and [np.min]: no value on an empty array. *)
Definition np_max (l : list R) : outcome R :=
  match l with
  | [] => Raise (LibraryError "ValueError: zero-size array to reduction operation")
  | x :: r => Ret (fold_right Rmax x r)
  end.
Definition np_min (l : list R) : outcome R :=
  match l with
  | [] => Raise (LibraryError "ValueError: zero-size array to reduction operation")
  | x :: r => Ret (fold_right Rmin x r)
  end.

(** The quantities [calculate_stats] computes; it prints all but the
    first two, which it returns. *)
Record statistics : Type :=
  Statistics {
    st_R : list R; st_R_p : list R; st_len : nat;
    st_ME : R; st_ME_p : R; st_MAE : R; st_MAE_p : R;
    st_range : R; st_range_p : R;
    st_MSE : R; st_MSE_p : R; st_RMSE : R; st_RMSE_p : R;
    st_std : R; st_std_p : R;
    st_SSR : R; st_TSS : R; st_R_squared : R }.

(** [data] and [reference_data] are arrays of one shape; [x ** 0.5] of a
    mean of squares is its square root. *)
Definition calculate_stats (reference_data data : list R) : outcome statistics :=
  let R := zip_with Rminus data reference_data in
  let R_p := zip_with (fun d r => (d - r) / r * 100) data reference_data in
  let len := length R in
  let ME := np_mean R in
  let ME_p := np_mean R_p in
  let MAE := np_mean (map Rabs R) in
  let MAE_p := np_mean (map Rabs R_p) in
  max_R <- np_max R ;; min_R <- np_min R ;;
  let range := max_R - min_R in
  max_R_p <- np_max R_p ;; min_R_p <- np_min R_p ;;
  let range_p := max_R_p - min_R_p in
  let MSE := np_mean (map (fun x => x ^ 2) R) in
  let MSE_p := np_mean (map (fun x => x ^ 2) R_p) in
  let RMSE := sqrt MSE in
  let RMSE_p := sqrt MSE_p in
  let std := np_std R in
  let std_p := np_std R_p in
  let SSR := np_sum (map (fun x => x ^ 2) R) in
  let TSS := np_sum (map (fun x => (x - np_mean data) ^ 2) data) in
  let R_squared := 1 - SSR / TSS in
  Ret (Statistics R R_p len ME ME_p MAE MAE_p range range_p MSE MSE_p RMSE RMSE_p
                  std std_p SSR TSS R_squared).

Local Close Scope R_scope.

(** * Properties *)

(** ** Strictly increasing labels *)

Lemma strictly_increasing_cons (t : label) (l : list label) :
  strictly_increasing (t :: l) = true ->
  strictly_increasing l = true /\ Forall (fun x => t < x) l.
Proof.
  revert t; induction l as [|a l IH]; intros t H.
  - split; [reflexivity | constructor].
  - change (strictly_increasing (t :: a :: l))
      with ((t <? a) && strictly_increasing (a :: l)) in H.
    apply andb_true_iff in H as [Hlt Hrest].
    apply Z.ltb_lt in Hlt.
    split; [exact Hrest|].
    constructor; [exact Hlt|].
    destruct (IH a Hrest) as [_ Hall].
    eapply Forall_impl; [|exact Hall].
    intros x Hx; cbn in Hx; lia.
Qed.

Lemma strictly_increasing_app (l1 l2 : list label) :
  strictly_increasing (l1 ++ l2) = true ->
  strictly_increasing l1 = true /\ strictly_increasing l2 = true /\
  (forall x y, In x l1 -> In y l2 -> x < y).
Proof.
  induction l1 as [|a l1 IH]; intros H.
  - repeat split; [exact H | intros x y []].
  - change ((a :: l1) ++ l2) with (a :: (l1 ++ l2)) in H.
    destruct (strictly_increasing_cons _ _ H) as [Hrest Hall].
    destruct (IH Hrest) as (H1 & H2 & H12).
    repeat split.
    + destruct l1 as [|b l1]; [reflexivity|].
      change (strictly_increasing (a :: b :: l1))
        with ((a <? b) && strictly_increasing (b :: l1)).
      rewrite H1, andb_true_r.
      apply Z.ltb_lt. inversion Hall; assumption.
    + exact H2.
    + intros x y [<-|Hx] Hy.
      * rewrite Forall_forall in Hall. apply Hall, in_or_app; now right.
      * now apply H12.
Qed.

(** In a series with strictly increasing labels, selecting by label cuts the
    list at the position of the label. *)
Section Cut.

Variables (pre post : series) (t : label) (v : Z).
Hypothesis Hinc : strictly_increasing (index (pre ++ (t, v) :: post)) = true.

Lemma cut_labels :
  (forall e, In e pre -> fst e < t) /\ (forall e, In e post -> t < fst e).
Proof.
  unfold index in Hinc. rewrite map_app in Hinc. cbn [map fst] in Hinc.
  destruct (strictly_increasing_app _ _ Hinc) as (_ & Hr & Hlr).
  destruct (strictly_increasing_cons _ _ Hr) as [_ Hall].
  rewrite Forall_forall in Hall.
  split; intros e He.
  - apply Hlr; [now apply in_map | now left].
  - apply Hall. now apply in_map.
Qed.

Lemma filter_all (f : label * Z -> bool) (l : series) :
  (forall e, In e l -> f e = true) -> filter f l = l.
Proof.
  induction l as [|a l IH]; intros H; [reflexivity|].
  cbn. rewrite (H a (or_introl eq_refl)). f_equal. apply IH.
  intros e He. apply H. now right.
Qed.

Lemma filter_none (f : label * Z -> bool) (l : series) :
  (forall e, In e l -> f e = false) -> filter f l = [].
Proof.
  induction l as [|a l IH]; intros H; [reflexivity|].
  cbn. rewrite (H a (or_introl eq_refl)). apply IH.
  intros e He. apply H. now right.
Qed.

Lemma from_cut : from t (pre ++ (t, v) :: post) = (t, v) :: post.
Proof.
  destruct cut_labels as [Hpre Hpost].
  unfold from. rewrite filter_app. cbn [filter fst].
  rewrite Z.leb_refl.
  rewrite filter_none, filter_all; [reflexivity| |].
  - intros e He. apply Z.leb_le. specialize (Hpost e He). lia.
  - intros e He. apply Z.leb_gt. now apply Hpre.
Qed.

Lemma before_cut : before t (pre ++ (t, v) :: post) = pre.
Proof.
  destruct cut_labels as [Hpre Hpost].
  unfold before. rewrite filter_app. cbn [filter fst].
  rewrite Z.leb_refl. cbn [negb].
  rewrite filter_all, filter_none; [apply app_nil_r| |].
  - intros e He. apply negb_false_iff, Z.leb_le. specialize (Hpost e He). lia.
  - intros e He. apply negb_true_iff, Z.leb_gt. now apply Hpre.
Qed.

Lemma upto_cut : upto t (pre ++ (t, v) :: post) = pre ++ [(t, v)].
Proof.
  destruct cut_labels as [Hpre Hpost].
  unfold upto. rewrite filter_app. cbn [filter fst].
  rewrite Z.leb_refl.
  rewrite filter_all, filter_none; [reflexivity| |].
  - intros e He. apply Z.leb_gt. now apply Hpost.
  - intros e He. apply Z.leb_le. specialize (Hpre e He). lia.
Qed.

Lemma after_cut : after t (pre ++ (t, v) :: post) = post.
Proof.
  destruct cut_labels as [Hpre Hpost].
  unfold after. rewrite filter_app. cbn [filter fst].
  rewrite Z.ltb_irrefl.
  rewrite filter_none, filter_all; [reflexivity| |].
  - intros e He. apply Z.ltb_lt. now apply Hpost.
  - intros e He. apply Z.ltb_ge. specialize (Hpre e He). lia.
Qed.

Lemma loc_cut : loc (pre ++ (t, v) :: post) t = Ret v.
Proof.
  destruct cut_labels as [Hpre Hpost].
  unfold loc. rewrite filter_app. cbn [filter fst].
  rewrite Z.eqb_refl, filter_none; [reflexivity|].
  intros e He. apply Z.eqb_neq. specialize (Hpre e He). lia.
Qed.

End Cut.

Lemma iloc_neg2_snoc2 (pre : series) (a b : label * Z) :
  iloc_neg2 (pre ++ [a; b]) = Ret (snd a).
Proof.
  unfold iloc_neg2. rewrite rev_app_distr. cbn. now destruct a.
Qed.

(** ** Series with observations removed *)

Lemma select_subseries (A : Type) (m : list bool) (l : list A) :
  subseries (select m l) l.
Proof.
  revert m; induction l as [|x l IH]; intros m.
  - destruct m; constructor.
  - destruct m as [|[] m]; cbn [select].
    + apply sub_drop. specialize (IH []). now destruct l.
    + apply sub_keep, IH.
    + apply sub_drop, IH.
Qed.

Lemma subseries_In (A : Type) (a b : list A) (x : A) :
  subseries a b -> In x a -> In x b.
Proof.
  induction 1 as [|y l l' _ IH|y l l' _ IH]; intros Hx.
  - exact Hx.
  - destruct Hx as [->|Hx]; [now left | right; now apply IH].
  - right; now apply IH.
Qed.

Lemma subseries_map (A B : Type) (f : A -> B) (a b : list A) :
  subseries a b -> subseries (map f a) (map f b).
Proof. induction 1; cbn [map]; now constructor. Qed.

Lemma subseries_length (A : Type) (a b : list A) :
  subseries a b -> (length a <= length b)%nat.
Proof. induction 1; cbn [length]; lia. Qed.

(** With strictly increasing labels a label carries one value. *)
Lemma label_unique (u : series) (t : label) (v v' : Z) :
  strictly_increasing (index u) = true ->
  In (t, v) u -> In (t, v') u -> v = v'.
Proof.
  induction u as [|[t0 v0] u IH]; intros Hinc Hv Hv'; [destruct Hv|].
  cbn [index map fst] in Hinc. fold (index u) in Hinc.
  destruct (strictly_increasing_cons _ _ Hinc) as [Hrest Hall].
  rewrite Forall_forall in Hall.
  assert (Hlt : forall x, In (t, x) u -> t0 < t).
  { intros x Hx. apply Hall. change t with (fst (t, x)). now apply in_map. }
  destruct Hv as [Hv|Hv], Hv' as [Hv'|Hv'].
  - congruence.
  - injection Hv as -> _. specialize (Hlt _ Hv'). lia.
  - injection Hv' as -> _. specialize (Hlt _ Hv). lia.
  - now apply IH.
Qed.

(** ** The index of [jump] *)

Section JumpIndex.

Variable beyond : Z -> bool.

Lemma jump_index_cons (t : label) (v : Z) (u : series) :
  jump_index beyond ((t, v) :: u) = jumps_from beyond v u.
Proof. reflexivity. Qed.

Lemma jumps_from_cons (prev : Z) (t : label) (v : Z) (u : series) :
  jumps_from beyond prev ((t, v) :: u) =
  (if beyond (v - prev) then [t] else []) ++ jumps_from beyond v u.
Proof.
  unfold jumps_from. cbn. now destruct (beyond (v - prev)).
Qed.

Lemma jumps_from_app (prev : Z) (a b : series) :
  jumps_from beyond prev (a ++ b) =
  jumps_from beyond prev a ++ jumps_from beyond (last (values a) prev) b.
Proof.
  revert prev; induction a as [|[t v] a IH]; intros prev; [reflexivity|].
  change (((t, v) :: a) ++ b) with ((t, v) :: (a ++ b)).
  rewrite !jumps_from_cons, IH, <- app_assoc.
  do 2 f_equal.
  destruct a as [|[t' v'] a]; [reflexivity|].
  cbn [values map snd].
  change (last (v :: v' :: map snd a) prev) with (last (v' :: map snd a) prev).
  clear. revert v'. induction (map snd a) as [|x l IHl]; intros v'; [reflexivity|].
  change (last (v' :: x :: l) v) with (last (x :: l) v).
  change (last (v' :: x :: l) prev) with (last (x :: l) prev).
  apply IHl.
Qed.

Lemma jump_index_app (a : series) (e : label * Z) (b : series) :
  jump_index beyond ((a ++ [e]) ++ b) =
  jump_index beyond (a ++ [e]) ++ jumps_from beyond (snd e) b.
Proof.
  destruct a as [|[t v] a].
  - destruct e as [t v]. reflexivity.
  - change ((((t, v) :: a) ++ [e]) ++ b) with ((t, v) :: ((a ++ [e]) ++ b)).
    change (((t, v) :: a) ++ [e]) with ((t, v) :: (a ++ [e])).
    rewrite !jump_index_cons, jumps_from_app. f_equal. f_equal.
    unfold values. rewrite map_app. cbn [map]. apply last_last.
Qed.

(** A constant subtracted from every value, and from the value before,
    leaves the differences as they are. *)
Lemma jumps_from_sub_scalar (prev c : Z) (u : series) :
  jumps_from beyond (prev - c) (sub_scalar u c) = jumps_from beyond prev u.
Proof.
  revert prev; induction u as [|[t v] u IH]; intros prev; [reflexivity|].
  cbn [sub_scalar map fst snd]. rewrite !jumps_from_cons.
  fold (sub_scalar u c). rewrite IH.
  now replace (v - c - (prev - c)) with (v - prev) by lia.
Qed.

Lemma has_jump_cons2 (a b : label * Z) (r : series) :
  has_jump beyond (a :: b :: r) <->
  beyond (snd b - snd a) = true \/ has_jump beyond (b :: r).
Proof.
  split.
  - intros (pre & x & y & post & E & Hb).
    destruct pre as [|z pre]; cbn in E.
    + injection E as -> -> _. now left.
    + injection E as _ E. right. now exists pre, x, y, post.
  - intros [Hb | (pre & x & y & post & E & Hb)].
    + now exists [], a, b, r.
    + exists (a :: pre), x, y, post. split; [cbn; now rewrite E | exact Hb].
Qed.

Lemma has_jump_short (a : label * Z) : ~ has_jump beyond [a].
Proof.
  intros (pre & x & y & post & E & _).
  destruct pre as [|z [|z' pre]]; discriminate E.
Qed.

Lemma jumps_from_nil_iff (t0 : label) (prev : Z) (u : series) :
  jumps_from beyond prev u = [] <-> ~ has_jump beyond ((t0, prev) :: u).
Proof.
  revert t0 prev; induction u as [|[t v] u IH]; intros t0 prev.
  - split; [intros _; apply has_jump_short | reflexivity].
  - rewrite jumps_from_cons, has_jump_cons2. cbn [snd].
    specialize (IH t v).
    destruct (beyond (v - prev)); cbn [app].
    + split; [discriminate | intros H; exfalso; apply H; now left].
    + rewrite IH. split.
      * intros H [Hb | Hj]; [discriminate | contradiction].
      * intros H Hj. apply H. now right.
Qed.

(** [jump.empty] holds exactly when no two consecutive observations differ
    by more than the threshold allows. *)
Lemma jump_index_nil_iff (u : series) :
  jump_index beyond u = [] <-> ~ has_jump beyond u.
Proof.
  destruct u as [|[t v] u].
  - split; [|reflexivity].
    intros _ (pre & a & b & post & E & _).
    destruct pre; discriminate E.
  - rewrite jump_index_cons. apply jumps_from_nil_iff.
Qed.

(** Whether [jump] is empty decides [has_jump]. *)
Lemma has_jump_decided (u : series) : has_jump beyond u \/ ~ has_jump beyond u.
Proof.
  destruct (jump_index beyond u) eqn:E.
  - right. now apply jump_index_nil_iff.
  - left. destruct (jump_index_nil_iff u) as [_ H].
    destruct u as [|[t v] u]; [discriminate E|].
    rewrite jump_index_cons in E.
    revert t v E H. induction u as [|[t' v'] u IH]; intros t v E H; [discriminate E|].
    rewrite jumps_from_cons in E.
    apply has_jump_cons2. cbn [snd].
    destruct (beyond (v' - v)) eqn:Hb; [now left|].
    right. apply (IH t' v' E).
    intros Hn. rewrite jump_index_cons. apply (jumps_from_nil_iff t'). exact Hn.
Qed.

End JumpIndex.

(** ** The loop *)

Section JumpCorrectionFacts.

Variable beyond : Z -> bool.

(** The loop is left only with an empty [jump]. *)
Lemma while_jump_ret (fuel : nat) (jump_val : Z) (u v : series) :
  while_jump beyond fuel jump_val u = Ret v -> jump_index beyond v = [].
Proof.
  revert u; induction fuel as [|fuel IH]; intros u; cbn [while_jump].
  - destruct (jump_index beyond u) eqn:E; [|discriminate].
    now intros [= <-].
  - destruct (jump_index beyond u) eqn:E; [now intros [= <-]|].
    apply IH.
Qed.

(** More fuel does not change a result. *)
Lemma while_jump_fuel (fuel extra : nat) (jump_val : Z) (u v : series) :
  while_jump beyond fuel jump_val u = Ret v ->
  while_jump beyond (fuel + extra) jump_val u = Ret v.
Proof.
  revert u; induction fuel as [|fuel IH]; intros u; cbn [while_jump].
  - destruct (jump_index beyond u) eqn:E; [|discriminate].
    intros H. destruct extra; cbn [Nat.add while_jump]; now rewrite E.
  - cbn [Nat.add while_jump].
    destruct (jump_index beyond u) eqn:E; [trivial|]. apply IH.
Qed.

Lemma correct_jumps_fuel (fuel extra : nat) (u v : series) :
  correct_jumps beyond fuel u = Ret v ->
  correct_jumps beyond (fuel + extra) u = Ret v.
Proof.
  unfold correct_jumps.
  destruct (first_label (jump_index beyond u)) as [t| |]; cbn [bind]; try discriminate.
  destruct (loc u t); cbn [bind]; try discriminate.
  destruct (iloc_neg2 (upto t u)); cbn [bind]; try discriminate.
  apply while_jump_fuel.
Qed.

Lemma correct_jumps_empty_jump (fuel : nat) (u : series) :
  jump_index beyond u = [] -> correct_jumps beyond fuel u = Raise IndexError.
Proof. intros H. unfold correct_jumps. now rewrite H. Qed.

Lemma correct_jumps_ret (fuel : nat) (u v : series) :
  correct_jumps beyond fuel u = Ret v ->
  jump_index beyond u <> [] /\ jump_index beyond v = [].
Proof.
  unfold correct_jumps.
  destruct (jump_index beyond u) as [|t l] eqn:E; [discriminate|].
  cbn [first_label bind].
  destruct (loc u t); [|discriminate..]. cbn [bind].
  destruct (iloc_neg2 (upto t u)); [|discriminate..]. cbn [bind].
  intros H. split; [discriminate|]. eapply while_jump_ret, H.
Qed.

(** A series with one step.  The step is found, measured as the value
    after minus the value before, and taken off every observation from
    its label on. *)
Lemma correct_jumps_single (pre post : series) (tp t : label) (p v : Z) (fuel : nat) :
  beyond 0 = false ->
  strictly_increasing (index (pre ++ (tp, p) :: (t, v) :: post)) = true ->
  ~ has_jump beyond (pre ++ [(tp, p)]) ->
  ~ has_jump beyond ((t, v) :: post) ->
  beyond (v - p) = true ->
  jump_index beyond (pre ++ (tp, p) :: (t, v) :: post) = [t] /\
  correct_jumps beyond (S fuel) (pre ++ (tp, p) :: (t, v) :: post) =
    Ret (pre ++ (tp, p) :: sub_scalar ((t, v) :: post) (v - p)).
Proof.
  intros H0 Hinc Hpre Hpost Hstep.
  apply jump_index_nil_iff in Hpre, Hpost.
  rewrite jump_index_cons in Hpost.
  assert (E : pre ++ (tp, p) :: (t, v) :: post = (pre ++ [(tp, p)]) ++ (t, v) :: post)
    by now rewrite <- app_assoc.
  assert (Hidx : jump_index beyond (pre ++ (tp, p) :: (t, v) :: post) = [t]).
  { rewrite E, jump_index_app, Hpre, jumps_from_cons. cbn [snd app].
    now rewrite Hstep, Hpost. }
  split; [exact Hidx|].
  unfold correct_jumps. rewrite Hidx. cbn [first_label bind].
  rewrite E in Hinc |- *.
  rewrite (loc_cut _ _ _ _ Hinc). cbn [bind].
  rewrite (upto_cut _ _ _ _ Hinc), <- app_assoc. cbn [app].
  rewrite iloc_neg2_snoc2. cbn [bind snd].
  cbn [while_jump]. rewrite <- E, Hidx, E.
  unfold adjust. rewrite (from_cut _ _ _ _ Hinc), (before_cut _ _ _ _ Hinc).
  assert (Hq : jump_index beyond ((pre ++ [(tp, p)]) ++ sub_scalar ((t, v) :: post) (v - p)) = []).
  { rewrite jump_index_app, Hpre. cbn [snd app sub_scalar map fst].
    rewrite jumps_from_cons. fold (sub_scalar post (v - p)).
    replace (v - (v - p) - p) with 0 by lia. rewrite H0. cbn [app].
    now rewrite jumps_from_sub_scalar. }
  destruct fuel; cbn [while_jump]; rewrite Hq; now rewrite <- app_assoc.
Qed.

End JumpCorrectionFacts.

(** ** The loop ends *)

Section Termination.

Variable beyond : Z -> bool.

(** How far a difference lies beyond the threshold, as a number that a
    correction by the magnitude of a detected step makes smaller. *)
Variable excess : Z -> nat.
Hypothesis excess_step :
  forall d m, beyond d = true -> beyond m = true -> (excess (d - m) < excess d)%nat.

Lemma last_cons_default (A : Type) (a d : A) (l : list A) :
  last (a :: l) d = last l a.
Proof.
  revert a d; induction l as [|b l IH]; intros a d; [reflexivity|].
  change (last (a :: b :: l) d) with (last (b :: l) d).
  rewrite IH. symmetry. apply IH.
Qed.

Lemma excess_from_app (prev : Z) (a b : series) :
  excess_from excess prev (a ++ b) =
  (excess_from excess prev a + excess_from excess (last (values a) prev) b)%nat.
Proof.
  revert prev; induction a as [|[t v] a IH]; intros prev; [reflexivity|].
  cbn [app excess_from values map snd]. rewrite IH, last_cons_default.
  unfold values. lia.
Qed.

Lemma excess_from_sub_scalar (prev c : Z) (u : series) :
  excess_from excess (prev - c) (sub_scalar u c) = excess_from excess prev u.
Proof.
  revert prev; induction u as [|[t v] u IH]; intros prev; [reflexivity|].
  cbn [sub_scalar map fst snd excess_from]. fold (sub_scalar u c).
  rewrite IH. now replace (v - c - (prev - c)) with (v - prev) by lia.
Qed.

(** The first label of [jump] splits the series at the first step. *)
Lemma jumps_from_first (prev : Z) (u : series) (t : label) (rest : list label) :
  jumps_from beyond prev u = t :: rest ->
  exists pre v post,
    u = pre ++ (t, v) :: post /\
    jumps_from beyond prev pre = [] /\
    beyond (v - last (values pre) prev) = true.
Proof.
  revert prev; induction u as [|[t' v'] u IH]; intros prev; [discriminate|].
  rewrite jumps_from_cons.
  destruct (beyond (v' - prev)) eqn:Hb; cbn [app].
  - intros [= -> _]. now exists [], v', u.
  - intros H. destruct (IH _ H) as (pre & v & post & -> & Hq & Hv).
    exists ((t', v') :: pre), v, post. repeat split.
    + rewrite jumps_from_cons, Hb. exact Hq.
    + cbn [values map snd]. rewrite last_cons_default. exact Hv.
Qed.

Lemma index_sub_scalar (u : series) (c : Z) : index (sub_scalar u c) = index u.
Proof. unfold index, sub_scalar. rewrite map_map. reflexivity. Qed.

Lemma while_jump_terminates (jump_val : Z) (n : nat) (t0 : label) (v0 : Z) (u : series) :
  beyond jump_val = true ->
  strictly_increasing (index ((t0, v0) :: u)) = true ->
  (excess_from excess v0 u <= n)%nat ->
  exists v, while_jump beyond n jump_val ((t0, v0) :: u) = Ret v.
Proof.
  intros Hm. revert u. induction n as [|n IH]; intros u Hinc Hn.
  - cbn [while_jump]. rewrite jump_index_cons.
    destruct (jumps_from beyond v0 u) as [|t rest] eqn:E; [now eexists|].
    exfalso.
    destruct (jumps_from_first _ _ _ _ E) as (pre & v & post & -> & _ & Hv).
    rewrite excess_from_app in Hn. cbn [excess_from] in Hn.
    pose proof (excess_step _ _ Hv Hm). lia.
  - cbn [while_jump]. rewrite jump_index_cons.
    destruct (jumps_from beyond v0 u) as [|t rest] eqn:E; [now eexists|].
    destruct (jumps_from_first _ _ _ _ E) as (pre & v & post & -> & _ & Hv).
    change ((t0, v0) :: pre ++ (t, v) :: post)
      with (((t0, v0) :: pre) ++ (t, v) :: post) in Hinc |- *.
    unfold adjust.
    rewrite (from_cut _ _ _ _ Hinc), (before_cut _ _ _ _ Hinc).
    cbn [app]. apply IH.
    + cbn [index map fst] in Hinc |- *. fold (index (pre ++ (t, v) :: post)) in Hinc.
      unfold index in *. rewrite map_app in *.
      fold (index (sub_scalar ((t, v) :: post) jump_val)).
      rewrite index_sub_scalar. exact Hinc.
    + rewrite excess_from_app in Hn |- *.
      cbn [sub_scalar map fst snd excess_from] in Hn |- *.
      fold (sub_scalar post jump_val). rewrite excess_from_sub_scalar.
      pose proof (excess_step _ _ Hv Hm) as Hlt.
      replace (v - jump_val - last (values pre) v0)
        with (v - last (values pre) v0 - jump_val) by lia.
      lia.
Qed.

(** With strictly increasing labels and at least one step, the correction
    returns; [excess_from] bounds the number of passes. *)
Lemma correct_jumps_terminates (u : series) :
  strictly_increasing (index u) = true ->
  jump_index beyond u <> [] ->
  exists fuel v, correct_jumps beyond fuel u = Ret v.
Proof.
  intros Hinc Hj.
  destruct u as [|[t0 v0] u]; [now contradiction Hj|].
  rewrite jump_index_cons in Hj.
  destruct (jumps_from beyond v0 u) as [|t rest] eqn:E; [now contradiction Hj|].
  destruct (jumps_from_first _ _ _ _ E) as (pre & v & post & -> & _ & Hv).
  unfold correct_jumps. rewrite jump_index_cons, E. cbn [first_label bind].
  change ((t0, v0) :: pre ++ (t, v) :: post)
    with (((t0, v0) :: pre) ++ (t, v) :: post) in Hinc |- *.
  rewrite (loc_cut _ _ _ _ Hinc). cbn [bind].
  rewrite (upto_cut _ _ _ _ Hinc).
  assert (Hp : iloc_neg2 (((t0, v0) :: pre) ++ [(t, v)]) = Ret (last (values pre) v0)).
  { clear. destruct (@exists_last _ ((t0, v0) :: pre)) as (l & [tp p] & El); [discriminate|].
    rewrite El, <- app_assoc. cbn [app]. rewrite iloc_neg2_snoc2. cbn [snd].
    f_equal.
    assert (Ev : values ((t0, v0) :: pre) = values (l ++ [(tp, p)])) by now rewrite El.
    unfold values in *. rewrite map_app in Ev. cbn [map snd] in Ev.
    rewrite <- (last_cons_default _ v0 0), Ev. symmetry. apply last_last. }
  rewrite Hp. cbn [bind].
  exists (excess_from excess v0 (pre ++ (t, v) :: post)).
  change (((t0, v0) :: pre) ++ (t, v) :: post)
    with ((t0, v0) :: pre ++ (t, v) :: post) in Hinc |- *.
  now apply while_jump_terminates.
Qed.

End Termination.

(** ** The two deployed corrections *)

Lemma rtklib_excess_step (d m : Z) :
  rtklib_beyond d = true -> rtklib_beyond m = true ->
  (Z.to_nat (-1000 - (d - m)) < Z.to_nat (-1000 - d))%nat.
Proof. unfold rtklib_beyond. rewrite !Z.ltb_lt. lia. Qed.

Lemma gnssir_excess_step (d m : Z) :
  gnssir_beyond d = true -> gnssir_beyond m = true ->
  (Z.to_nat (d - m - 2500) < Z.to_nat (d - 2500))%nat.
Proof. unfold gnssir_beyond. rewrite !Z.ltb_lt. lia. Qed.

(** Both loops return on every sorted series that holds a step. *)
Lemma rtklib_correct_jumps_terminates (u : series) :
  strictly_increasing (index u) = true ->
  has_jump rtklib_beyond u ->
  exists fuel v, rtklib_correct_jumps fuel u = Ret v.
Proof.
  intros Hinc Hj.
  apply (correct_jumps_terminates rtklib_beyond (fun d => Z.to_nat (-1000 - d))
           rtklib_excess_step u Hinc).
  intros E. now apply jump_index_nil_iff in E.
Qed.

Lemma gnssir_correct_jumps_terminates (u : series) :
  strictly_increasing (index u) = true ->
  has_jump gnssir_beyond u ->
  exists fuel v, gnssir_correct_jumps fuel u = Ret v.
Proof.
  intros Hinc Hj.
  apply (correct_jumps_terminates gnssir_beyond (fun d => Z.to_nat (d - 2500))
           gnssir_excess_step u Hinc).
  intros E. now apply jump_index_nil_iff in E.
Qed.

(** The series of the worked examples, one observation every 15 minutes. *)
Example spec_jump_series_labels :
  spec_jump_series =
  [(0, 0); (900, 1); (1800, 2); (2700, 3); (3600, 1003); (4500, 1004); (5400, 1005)].
Proof. reflexivity. Qed.

(** C1, as the specification states it, fails on the code: the thresholds
    are the constants [-1000] and [2500] of the two filters, a step of
    1000 mm is no step for either of them, and both corrections raise
    [IndexError] on the series [0,1,2,3,1003,1004,1005] instead of
    returning [0,1,2,3,3,4,5]. *)
Lemma spec_jump_example_raises :
  ~ (exists fuel, gnssir_correct_jumps fuel spec_jump_series
                  = Ret (quarter_hourly [0; 1; 2; 3; 3; 4; 5])) /\
  ~ (exists fuel, rtklib_heightening fuel spec_jump_series
                  = Ret (quarter_hourly [0; 1; 2; 3; 3; 4; 5])) /\
  gnssir_correct_jumps 7 spec_jump_series = Raise IndexError /\
  rtklib_heightening 7 spec_jump_series = Raise IndexError.
Proof.
  repeat split; try reflexivity; intros [fuel H]; discriminate H.
Qed.

(** C1, amended.  With the threshold of the code (a difference below
    -1000 mm in [filter_rtklib_solutions], above 2500 mm in
    [filter_gnssir]), on a series with strictly increasing labels in which
    one step beyond the threshold separates two consecutive observations
    and no other difference is beyond it, and the observation after the
    step is not at midnight (so that [jump.index.format()] renders its
    full timestamp), the jump correction detects exactly one event, at the
    label after the step, computes its magnitude as the value after minus
    the value before, and subtracts it from every observation at or after
    that label. *)
Theorem single_jump_is_corrected
  (beyond : Z -> bool) (pre post : series) (tp t : label) (p v : Z) (fuel : nat) :
  beyond = rtklib_beyond \/ beyond = gnssir_beyond ->
  strictly_increasing (index (pre ++ (tp, p) :: (t, v) :: post)) = true ->
  t mod 86400 <> 0 ->
  ~ has_jump beyond (pre ++ [(tp, p)]) ->
  ~ has_jump beyond ((t, v) :: post) ->
  beyond (v - p) = true ->
  jump_index beyond (pre ++ (tp, p) :: (t, v) :: post) = [t] /\
  dates_only (jump_index beyond (pre ++ (tp, p) :: (t, v) :: post)) = false /\
  correct_jumps beyond (S fuel) (pre ++ (tp, p) :: (t, v) :: post) =
    Ret (pre ++ (tp, p) :: sub_scalar ((t, v) :: post) (v - p)).
Proof.
  intros HB Hinc Ht Hpre Hpost Hb.
  destruct (correct_jumps_single beyond pre post tp t p v fuel) as [Hj Hc];
    try assumption.
  { destruct HB as [-> | ->]; reflexivity. }
  split; [exact Hj|]. split; [|exact Hc].
  rewrite Hj. cbn [dates_only forallb]. unfold midnight.
  destruct (Z.eqb_spec (t mod 86400) 0); [contradiction | reflexivity].
Qed.

(** The amended example: [0,1,2,3,3003,3004,3005], one fix every 15
    minutes from midnight on, holds one step of 3000 mm between index 3
    and 4, at 01:00, and the jump correction of [filter_gnssir] turns it
    into [0,1,2,3,3,4,5]. *)
Lemma single_jump_is_corrected_witness :
  jump_index gnssir_beyond (quarter_hourly [0; 1; 2; 3; 3003; 3004; 3005]) = [3600] /\
  dates_only (jump_index gnssir_beyond (quarter_hourly [0; 1; 2; 3; 3003; 3004; 3005]))
    = false /\
  gnssir_correct_jumps 1 (quarter_hourly [0; 1; 2; 3; 3003; 3004; 3005]) =
    Ret (quarter_hourly [0; 1; 2; 3; 3; 4; 5]).
Proof.
  apply (single_jump_is_corrected gnssir_beyond
           [(0, 0); (900, 1); (1800, 2)] [(4500, 3004); (5400, 3005)]
           2700 3600 3 3003 0).
  - right; reflexivity.
  - reflexivity.
  - vm_compute. discriminate.
  - apply jump_index_nil_iff; reflexivity.
  - apply jump_index_nil_iff; reflexivity.
  - reflexivity.
Defined.

(** The same for the baseline: a drop of 2000 mm is taken off. *)
Example rtklib_single_jump :
  rtklib_heightening 1 (quarter_hourly [0; 1; 2; 3; -1997; -1996; -1995]) =
  Ret (quarter_hourly [0; 1; 2; 3; 3; 4; 5]).
Proof. reflexivity. Qed.

(** C2.  The first loop of [filter_rtklib_solutions] drops the single point
    2000 of [10,11,2000,12,13] and leaves [10,11,12,13]; no difference
    below -1000 mm is left, and the statements that follow raise
    [IndexError], so the function yields no series at all. *)
Theorem transient_outlier_example :
  remove_false_jumps (quarter_hourly [10; 11; 2000; 12; 13]) =
    Ret [(0, 10); (900, 11); (2700, 12); (3600, 13)] /\
  (forall fuel,
     rtklib_heightening fuel (quarter_hourly [10; 11; 2000; 12; 13]) = Raise IndexError).
Proof. split; [reflexivity | intros fuel; reflexivity]. Qed.

(** C3.  Two steps in immediate succession, of -3000 mm and -1500 mm.
    [jump_val] is computed once, before the loop: the second pass finds the
    step of -1500 mm (value after minus value before, on the series
    corrected so far) and subtracts -3000 mm again. *)
Theorem second_jump_gets_first_magnitude :
  let u := quarter_hourly [5000; 2000; 500; 501; 502] in
  let u1 := adjust (-3000) 900 u in
  u1 = quarter_hourly [5000; 5000; 3500; 3501; 3502] /\
  jump_index rtklib_beyond u1 = [1800] /\
  (after_jump <- loc u1 1800 ;;
   before_jump <- iloc_neg2 (upto 1800 u1) ;;
   Ret (after_jump - before_jump)) = Ret (-1500) /\
  rtklib_heightening 2 u = Ret (quarter_hourly [5000; 5000; 6500; 6501; 6502]) /\
  rtklib_heightening 2 u <> Ret (quarter_hourly [5000; 5000; 5000; 5001; 5002]) /\
  gnssir_correct_jumps 2 (quarter_hourly [0; 3000; 3001; 8000; 8001]) =
    Ret (quarter_hourly [0; 0; 1; 2000; 2001]).
Proof. repeat split; try reflexivity. discriminate. Qed.

(** Re-running a correction on what it returned. *)
Lemma correct_jumps_rerun (beyond : Z -> bool) (fuel fuel' : nat) (u v : series) :
  correct_jumps beyond fuel u = Ret v ->
  correct_jumps beyond fuel' v = Raise IndexError.
Proof.
  intros H. apply correct_jumps_empty_jump. now apply correct_jumps_ret in H.
Qed.

(** C4.  The corrected series holds no step, so a second run reads
    [jump.index.format()[0]] from an empty list: the correction is not
    idempotent, it raises [IndexError] on its own output. *)
Theorem rerun_on_corrected_series_raises :
  let u := quarter_hourly [0; 1; 2; 3; 3003; 3004; 3005] in
  let w := quarter_hourly [0; 1; 2; 3; -1997; -1996; -1995] in
  let corrected := quarter_hourly [0; 1; 2; 3; 3; 4; 5] in
  gnssir_correct_jumps 1 u = Ret corrected /\
  (forall fuel, gnssir_correct_jumps fuel corrected = Raise IndexError) /\
  rtklib_heightening 1 w = Ret corrected /\
  (forall fuel, rtklib_heightening fuel corrected = Raise IndexError).
Proof.
  repeat split; intros; reflexivity.
Qed.

(** C5.  [jump_ind] and [jump_val] are read before [jump.empty] is tested.
    The correction of each filter returns a series only if two consecutive
    observations differ by more than the threshold (below -1000 mm for the
    baseline, above 2500 mm for the reflector height), and raises
    [IndexError] on every series without such a difference. *)
Theorem jump_correction_needs_a_jump (fuel : nat) (u : series) :
  ((forall v, rtklib_correct_jumps fuel u = Ret v ->
      exists pre a b post, u = pre ++ a :: b :: post /\ snd b - snd a < -1000) /\
   ((forall pre a b post, u = pre ++ a :: b :: post -> ~ snd b - snd a < -1000) ->
      rtklib_correct_jumps fuel u = Raise IndexError)) /\
  ((forall v, gnssir_correct_jumps fuel u = Ret v ->
      exists pre a b post, u = pre ++ a :: b :: post /\ 2500 < snd b - snd a) /\
   ((forall pre a b post, u = pre ++ a :: b :: post -> ~ 2500 < snd b - snd a) ->
      gnssir_correct_jumps fuel u = Raise IndexError)).
Proof.
  split; split.
  - intros v H. apply correct_jumps_ret in H as [H _].
    destruct (jump_index_nil_iff rtklib_beyond u) as [_ Hn].
    destruct (has_jump_decided rtklib_beyond u) as [Hj | Hj]; [|now apply Hn in Hj].
    destruct Hj as (pre & a & b & post & E & Hb).
    exists pre, a, b, post. split; [exact E | now apply Z.ltb_lt in Hb].
  - intros H. apply correct_jumps_empty_jump, jump_index_nil_iff.
    intros (pre & a & b & post & E & Hb).
    apply (H _ _ _ _ E). now apply Z.ltb_lt in Hb.
  - intros v H. apply correct_jumps_ret in H as [H _].
    destruct (jump_index_nil_iff gnssir_beyond u) as [_ Hn].
    destruct (has_jump_decided gnssir_beyond u) as [Hj | Hj]; [|now apply Hn in Hj].
    destruct Hj as (pre & a & b & post & E & Hb).
    exists pre, a, b, post. split; [exact E | now apply Z.ltb_lt in Hb].
  - intros H. apply correct_jumps_empty_jump, jump_index_nil_iff.
    intros (pre & a & b & post & E & Hb).
    apply (H _ _ _ _ E). now apply Z.ltb_lt in Hb.
Qed.

(** ** The loops that erase false jumps *)

Lemma filter_subseries (A : Type) (f : A -> bool) (l : list A) :
  subseries (filter f l) l.
Proof.
  induction l as [|x l IH]; cbn [filter]; [constructor|].
  destruct (f x); now constructor.
Qed.

Lemma subseries_refl (A : Type) (l : list A) : subseries l l.
Proof. induction l; now constructor. Qed.

Lemma subseries_trans (A : Type) (a b c : list A) :
  subseries a b -> subseries b c -> subseries a c.
Proof.
  intros Hab Hbc. revert a Hab.
  induction Hbc as [|x l l' _ IH|x l l' _ IH]; intros a Hab.
  - exact Hab.
  - inversion Hab; subst; constructor; now apply IH.
  - constructor. now apply IH.
Qed.

Lemma subseries_increasing (a b : list label) :
  subseries a b -> strictly_increasing b = true -> strictly_increasing a = true.
Proof.
  induction 1 as [|x l l' Hs IH|x l l' _ IH]; intros Hb.
  - reflexivity.
  - destruct (strictly_increasing_cons _ _ Hb) as [Hl' Hall].
    specialize (IH Hl').
    destruct l as [|y l]; [reflexivity|].
    change (strictly_increasing (x :: y :: l)) with ((x <? y) && strictly_increasing (y :: l)).
    rewrite IH, andb_true_r. apply Z.ltb_lt.
    rewrite Forall_forall in Hall. apply Hall.
    apply (subseries_In _ _ _ _ Hs). now left.
  - apply IH. now destruct (strictly_increasing_cons _ _ Hb).
Qed.

Section DropOutliers.

Variable is_outlier : Z -> Z -> bool.

(** The loop only removes observations. *)
Lemma drop_outliers_subseries (cands u r : series) :
  drop_outliers is_outlier cands u = Ret r -> subseries r u.
Proof.
  revert u; induction cands as [|[t v] cands IH]; intros u; cbn [drop_outliers].
  - intros [= <-]. apply subseries_refl.
  - destruct (iloc0 (firstn 1 (after t u))) as [n| |]; cbn [bind]; try discriminate.
    destruct (is_outlier n v).
    + unfold drop. destruct (existsb _ u); cbn [bind]; [|discriminate].
      intros H. eapply subseries_trans; [apply (IH _ H) | apply filter_subseries].
    + apply IH.
Qed.

Lemma after_drop (t0 t : label) (u : series) :
  t0 < t ->
  after t (filter (fun e => negb (fst e =? t0)) u) = after t u.
Proof.
  intros Hlt. unfold after.
  induction u as [|[t' v'] u IH]; [reflexivity|].
  cbn [filter fst].
  destruct (Z.eqb_spec t' t0) as [-> | Hne]; cbn [negb filter fst].
  - destruct (Z.ltb_spec t t0); [lia | exact IH].
  - destruct (t <? t'); now rewrite IH.
Qed.

(** A candidate whose next observation passes the test of the [if] is not
    in the series the loop returns. *)
Lemma drop_outliers_drops (cands u r : series) (t : label) (v n : Z) :
  strictly_increasing (index cands) = true ->
  In (t, v) cands ->
  iloc0 (firstn 1 (after t u)) = Ret n ->
  is_outlier n v = true ->
  drop_outliers is_outlier cands u = Ret r ->
  ~ In t (index r).
Proof.
  revert u; induction cands as [|[t0 v0] cands IH]; intros u Hinc Hin Hnext Hout;
    [destruct Hin|].
  cbn [index map fst] in Hinc. fold (index cands) in Hinc.
  destruct (strictly_increasing_cons _ _ Hinc) as [Hinc' Hall].
  cbn [drop_outliers].
  destruct Hin as [[= -> ->] | Hin].
  - rewrite Hnext. cbn [bind]. rewrite Hout.
    unfold drop. destruct (existsb _ u); cbn [bind]; [|discriminate].
    intros H Ht. apply drop_outliers_subseries in H.
    apply (subseries_In _ _ _ t (subseries_map _ _ fst _ _ H)) in Ht.
    unfold index in Ht. apply in_map_iff in Ht as ([t' v'] & E & Hf).
    cbn [fst] in E. subst t'.
    apply filter_In in Hf as [_ Hf]. cbn [fst] in Hf.
    now rewrite Z.eqb_refl in Hf.
  - assert (Hlt : t0 < t).
    { rewrite Forall_forall in Hall. apply Hall.
      change t with (fst (t, v)). now apply in_map. }
    destruct (iloc0 (firstn 1 (after t0 u))) as [n0| |]; cbn [bind]; try discriminate.
    destruct (is_outlier n0 v0).
    + unfold drop. destruct (existsb _ u); cbn [bind]; [|discriminate].
      apply IH; try assumption.
      now rewrite after_drop.
    + now apply IH.
Qed.

End DropOutliers.

(** In [filter_rtklib_solutions], a sample that lies more than 1000 mm
    above the sample before it, and whose next sample lies more than
    1000 mm below it (as it does when it returns to the level before the
    excursion, or past it), is removed before jumps are searched. *)
Lemma upward_excursion_is_dropped
  (pre post : series) (tp t tn : label) (p v n : Z) (r : series) :
  strictly_increasing (index (pre ++ (tp, p) :: (t, v) :: (tn, n) :: post)) = true ->
  1000 < v - p ->
  n <= p \/ n < v - 1000 ->
  remove_false_jumps (pre ++ (tp, p) :: (t, v) :: (tn, n) :: post) = Ret r ->
  ~ In t (index r).
Proof.
  intros Hinc Hup Hback. unfold remove_false_jumps.
  set (u := pre ++ (tp, p) :: (t, v) :: (tn, n) :: post) in *.
  set (cands := select (mask (fun d => 1000 <? d) (diff u)) u).
  destruct (drop_outliers _ cands u) as [u1| |] eqn:E1; cbn [bind]; try discriminate.
  intros E2 Ht.
  apply drop_outliers_subseries in E2.
  apply (subseries_In _ _ _ t (subseries_map _ _ fst _ _ E2)) in Ht.
  revert Ht. fold (index u1).
  assert (Eu : u = (pre ++ [(tp, p)]) ++ (t, v) :: (tn, n) :: post)
    by (unfold u; now rewrite <- app_assoc).
  assert (Hsub : subseries cands u) by apply select_subseries.
  apply (drop_outliers_drops (fun next_line v => next_line <? v - 1000) cands u u1 t v n).
  - apply (subseries_increasing _ (index u)); [now apply subseries_map | exact Hinc].
  - assert (Hj : In t (jump_index (fun d => 1000 <? d) u)).
    { rewrite Eu, jump_index_app, jumps_from_cons. cbn [snd].
      apply in_or_app. right.
      replace (1000 <? v - p) with true by (symmetry; now apply Z.ltb_lt).
      now left. }
    unfold jump_index, index in Hj. fold cands in Hj.
    apply in_map_iff in Hj as ([t' v'] & E & Hc). cbn [fst] in E. subst t'.
    replace v with v'; [exact Hc|].
    apply (label_unique u t v' v Hinc).
    + now apply (subseries_In _ _ _ _ Hsub).
    + rewrite Eu. apply in_or_app. right. now left.
  - rewrite Eu in Hinc |- *. now rewrite (after_cut _ _ _ _ Hinc).
  - apply Z.ltb_lt. lia.
  - exact E1.
Qed.

(** ** The rolling sigma filter only drops *)

(** The first observation has a window of one observation, no standard
    deviation and no limits: it is never retained. *)
Lemma sigma_filter_drops_first (window : Z) (threshold : Q) (e : label * Z) (u : series) :
  subseries (sigma_filter window threshold (e :: u)) u.
Proof.
  unfold sigma_filter. destruct e as [t v].
  cbn [rolling rolling_from app filter fst values map].
  destruct (t - window <? t); cbn [map snd std length Nat.ltb Nat.leb limits combine map
    gt_limit lt_limit fst snd andb select]; apply select_subseries.
Qed.

(** C6.  The output of the rolling sigma filter is the input with some
    observations removed, for every window length and every sigma
    multiplier: every retained observation is an observation of the input,
    with its label and its value; with strictly increasing labels the
    value at a retained label is the value the input holds there; and a
    series that is not empty loses at least its first observation. *)
Theorem sigma_filter_only_drops (window : Z) (threshold : Q) (u : series) :
  let out := sigma_filter window threshold u in
  subseries out u /\
  subseries (index out) (index u) /\
  (forall t v, In (t, v) out -> In (t, v) u) /\
  (strictly_increasing (index u) = true ->
   forall t v v', In (t, v) out -> In (t, v') u -> v = v') /\
  (u <> [] -> (length out < length u)%nat).
Proof.
  intros out.
  assert (H : subseries out u) by apply select_subseries.
  split; [exact H|]. split; [now apply subseries_map|].
  split; [intros t v; now apply subseries_In|]. split.
  - intros Hinc t v v' Hout Hu.
    apply (label_unique u t v v' Hinc); [|exact Hu].
    now apply (subseries_In _ _ _ _ H).
  - intros Hne. destruct u as [|e u]; [now contradiction Hne|].
    pose proof (subseries_length _ _ _ (sigma_filter_drops_first window threshold e u))
      as Hlen.
    fold out in Hlen. cbn [length]. lia.
Qed.

Example sigma_filter_run :
  u_clean 2 (quarter_hourly [0; 1; 2; 3; 3; 4; 5; 400; 5; 6; 7]) =
  [(900, 1); (1800, 2); (2700, 3); (3600, 3); (4500, 4); (5400, 5);
   (7200, 5); (8100, 6); (9000, 7)].
Proof. reflexivity. Qed.

Lemma square_le (a b : R) : (0 <= a <= b -> a * a <= b * b)%R.
Proof. intros [Ha Hab]. apply Rmult_le_compat; lra. Qed.

Lemma square_lt (a b : R) : (0 <= a < b -> a * a < b * b)%R.
Proof. intros [Ha Hab]. apply Rmult_le_0_lt_compat; lra. Qed.

(** The comparison on squares decides the comparison with the square root. *)
Lemma lt_surd_correct (x k : Q) (r : surd) :
  (0 <= radicand r)%Q ->
  lt_surd x k r = true <-> (Q2R x < Q2R k * sqrt (Q2R (radicand r)))%R.
Proof.
  intros Hr. apply Qle_Rle in Hr. rewrite RMicromega.Q2R_0 in Hr.
  set (X := Q2R x). set (K := Q2R k). set (S := sqrt (Q2R (radicand r))).
  assert (HS : (0 <= S)%R) by apply sqrt_pos.
  assert (HSS : (S * S = Q2R (radicand r))%R) by now apply sqrt_sqrt.
  assert (Hx0 : Qle_bool 0 x = true <-> (0 <= X)%R).
  { rewrite Qle_bool_iff. split; intros H.
    - apply Qle_Rle in H. now rewrite RMicromega.Q2R_0 in H.
    - apply Rle_Qle. now rewrite RMicromega.Q2R_0. }
  assert (Hk0 : Qle_bool 0 k = true <-> (0 <= K)%R).
  { rewrite Qle_bool_iff. split; intros H.
    - apply Qle_Rle in H. now rewrite RMicromega.Q2R_0 in H.
    - apply Rle_Qle. now rewrite RMicromega.Q2R_0. }
  assert (Hle1 : Qle_bool (k * k * radicand r) (x * x) = true <->
                 (K * K * (S * S) <= X * X)%R).
  { rewrite Qle_bool_iff, HSS. split; intros H.
    - apply Qle_Rle in H. now rewrite !Q2R_mult in H.
    - apply Rle_Qle. now rewrite !Q2R_mult. }
  assert (Hle2 : Qle_bool (x * x) (k * k * radicand r) = true <->
                 (X * X <= K * K * (S * S))%R).
  { rewrite Qle_bool_iff, HSS. split; intros H.
    - apply Qle_Rle in H. now rewrite !Q2R_mult in H.
    - apply Rle_Qle. now rewrite !Q2R_mult. }
  assert (Hprod : (K * K * (S * S) = K * S * (K * S))%R) by ring.
  assert (Hneg : (K * K * (S * S) = - (K * S) * - (K * S))%R) by ring.
  assert (Hxx : (X * X = - X * - X)%R) by ring.
  unfold lt_surd.
  destruct (Qle_bool 0 k) eqn:Ek.
  - assert (HK : (0 <= K)%R) by now apply Hk0.
    assert (HKS : (0 <= K * S)%R) by now apply Rmult_le_pos.
    rewrite orb_true_iff, !negb_true_iff. split.
    + intros [H | H].
      * assert (~ (0 <= X)%R) by (rewrite <- Hx0, H; discriminate). lra.
      * assert (Hn : ~ (K * K * (S * S) <= X * X)%R) by (rewrite <- Hle1, H; discriminate).
        destruct (Rlt_le_dec X (K * S)) as [Hlt | Hge]; [exact Hlt | exfalso].
        apply Hn. rewrite Hprod. apply square_le. lra.
    + intros H.
      destruct (Qle_bool 0 x) eqn:Ex; [right | now left].
      assert (HX : (0 <= X)%R) by now apply Hx0.
      destruct (Qle_bool (k * k * radicand r) (x * x)) eqn:E1; [|reflexivity].
      exfalso. assert (Hc : (K * K * (S * S) <= X * X)%R) by now apply Hle1.
      rewrite Hprod in Hc.
      pose proof (square_lt X (K * S) (conj HX H)). lra.
  - assert (HK : ~ (0 <= K)%R) by (rewrite <- Hk0; discriminate).
    assert (HKS : (0 <= - (K * S))%R).
    { replace (- (K * S))%R with ((- K) * S)%R by ring. apply Rmult_le_pos; lra. }
    rewrite andb_true_iff, !negb_true_iff. split.
    + intros [H1 H2].
      assert (HX : ~ (0 <= X)%R) by (rewrite <- Hx0, H1; discriminate).
      assert (Hn : ~ (X * X <= K * K * (S * S))%R) by (rewrite <- Hle2, H2; discriminate).
      destruct (Rlt_le_dec X (K * S)) as [Hlt | Hge]; [exact Hlt | exfalso].
      apply Hn. rewrite Hneg, Hxx. apply square_le. lra.
    + intros H. split.
      * destruct (Qle_bool 0 x) eqn:Ex; [|reflexivity].
        exfalso. assert (HX : (0 <= X)%R) by now apply Hx0. lra.
      * destruct (Qle_bool (x * x) (k * k * radicand r)) eqn:E2; [|reflexivity].
        exfalso. assert (Hc : (X * X <= K * K * (S * S))%R) by now apply Hle2.
        rewrite Hneg, Hxx in Hc.
        assert (Hlt : (- (K * S) < - X)%R) by lra.
        pose proof (square_lt (- (K * S)) (- X) (conj HKS Hlt)). lra.
Qed.

(** The sample variance is not negative, so the standard deviation is the
    square root of a non-negative rational. *)
Lemma sum_squares_shift (y : Z) (l : list Z) :
  sum (map (fun x => (x - y) * (x - y)) l) =
  sum (map (fun x => x * x) l) - 2 * y * sum l + Z.of_nat (length l) * (y * y).
Proof.
  induction l as [|x l IH]; [cbn; lia|].
  cbn [map sum fold_right length]. fold (sum l).
  fold (sum (map (fun x => x * x) l)). fold (sum (map (fun x => (x - y) * (x - y)) l)).
  rewrite IH, Nat2Z.inj_succ. lia.
Qed.

Lemma sum_squares_nonneg (f : Z -> Z) (l : list Z) :
  0 <= sum (map (fun x => f x * f x) l).
Proof.
  induction l as [|x l IH]; [cbn; lia|].
  cbn [map sum fold_right]. fold (sum (map (fun x => f x * f x) l)). nia.
Qed.

Lemma square_of_sum_le (l : list Z) :
  sum l * sum l <= Z.of_nat (length l) * sum (map (fun x => x * x) l).
Proof.
  induction l as [|y l IH]; [cbn; lia|].
  cbn [map sum fold_right length]. fold (sum l). fold (sum (map (fun x => x * x) l)).
  rewrite Nat2Z.inj_succ.
  pose proof (sum_squares_nonneg (fun x => x - y) l) as Hs.
  cbv beta in Hs. rewrite sum_squares_shift in Hs. nia.
Qed.

Lemma variance_nonneg (l : list Z) : (0 <= variance l)%Q.
Proof.
  unfold variance, Qdiv.
  apply Qmult_le_0_compat; [|apply Qinv_le_0_compat];
    unfold Qle; cbn [Qnum Qden inject_Z]; rewrite Z.mul_1_r.
  - pose proof (square_of_sum_le l). lia.
  - nia.
Qed.

Lemma std_radicand_nonneg (l : list Z) (s : surd) :
  std l = Some s -> (0 <= radicand s)%Q.
Proof.
  unfold std. destruct (length l <? 2)%nat; [discriminate|].
  intros [= <-]. apply variance_nonneg.
Qed.

Lemma Q2R_inject_Z (z : Z) : Q2R (inject_Z z) = IZR z.
Proof. unfold Q2R, inject_Z. cbn [Qnum Qden]. field. Qed.

(** The two tests of the mask, read over the reals: the observation lies
    below [centre + factor * sqrt radicand], or above it. *)
Lemma lt_limit_correct (v : Z) (m k : Q) (s : surd) :
  (0 <= radicand s)%Q ->
  lt_limit v (Some (Limit m k s)) = true <->
  (IZR v < Q2R m + Q2R k * sqrt (Q2R (radicand s)))%R.
Proof.
  intros Hs. cbn [lt_limit]. rewrite (lt_surd_correct _ _ _ Hs).
  unfold Qminus. rewrite Q2R_plus, Q2R_opp, Q2R_inject_Z. split; lra.
Qed.

Lemma gt_limit_correct (v : Z) (m k : Q) (s : surd) :
  (0 <= radicand s)%Q ->
  gt_limit v (Some (Limit m k s)) = true <->
  (Q2R m + Q2R k * sqrt (Q2R (radicand s)) < IZR v)%R.
Proof.
  intros Hs. cbn [gt_limit]. rewrite (lt_surd_correct _ _ _ Hs).
  unfold Qminus. rewrite Q2R_plus, !Q2R_opp, Q2R_inject_Z. split; lra.
Qed.

(** ** Daily resampling keeps the calendar axis *)

Lemma insert_length (x : Z) (l : list Z) : length (insert x l) = S (length l).
Proof.
  induction l as [|y l IH]; [reflexivity|].
  cbn [insert]. destruct (x <=? y); cbn [length]; [reflexivity | now rewrite IH].
Qed.

Lemma sort_length (l : list Z) : length (sort l) = length l.
Proof.
  induction l as [|x l IH]; [reflexivity|].
  cbn [sort fold_right]. fold (sort l). now rewrite insert_length, IH.
Qed.

(** The median is missing for the empty bucket only. *)
Lemma median_none_iff (l : list Z) : median l = None <-> l = [].
Proof.
  split; [|now intros ->].
  unfold median. rewrite sort_length.
  destruct l as [|x l]; [reflexivity|].
  cbn [length]. destruct (Nat.even (S (length l))); discriminate.
Qed.

Lemma std_empty : std [] = None.
Proof. reflexivity. Qed.

Lemma day_axis_length (u : series) : length (day_axis u) = days_spanned u.
Proof.
  unfold day_axis. destruct (index u) eqn:E.
  - unfold days_spanned. now rewrite E.
  - now rewrite length_map, length_seq.
Qed.

Lemma resample_D_length (S : Type) (stat : list Z -> option S) (u : series) :
  length (resample_D stat u) = days_spanned u.
Proof. unfold resample_D. now rewrite length_map, day_axis_length. Qed.

Lemma resample_D_entry (S : Type) (stat : list Z -> option S) (u : series) (d : Z) :
  In d (day_axis u) -> In (86400 * d, stat (bucket u d)) (resample_D stat u).
Proof.
  intros H. unfold resample_D.
  now apply (in_map (fun d => (86400 * d, stat (bucket u d)))).
Qed.

Lemma dropna_all (S : Type) (s : list (label * option S)) :
  (forall e, In e s -> snd e <> None) -> dropna s = s.
Proof.
  induction s as [|e s IH]; intros H; [reflexivity|].
  cbn [dropna filter].
  destruct (snd e) eqn:E.
  - f_equal. apply IH. intros x Hx. apply H. now right.
  - exfalso. now apply (H e (or_introl eq_refl)).
Qed.

(** C9, as the specification states it, fails on [resample_gnss]: with
    observations on two days and none on the day between, the bucket of the
    empty day is dropped from the axis, not kept as missing. *)
Lemma resample_gnss_drops_empty_day :
  let u := [(100, 5); (200, 7); (2 * 86400 + 5, 9)] in
  days_spanned u = 3%nat /\
  bucket u 1 = [] /\
  resample_gnss (Some u) (Some u) =
    Ret ([(0, Some (12 # 2)); (172800, Some (9 # 1))],
         [(0, Some (12 # 2)); (172800, Some (9 # 1))]) /\
  ~ (exists r x, resample_gnss (Some u) (Some u) = Ret r /\ In (86400, x) (fst r)).
Proof.
  repeat split.
  intros (r & x & H & Hin). cbv in H. injection H as <-.
  cbn in Hin. destruct Hin as [H | [H | []]]; discriminate H.
Qed.

(** C9, amended.  A daily resampling of a series that spans N calendar
    days has exactly N entries, one per day, each holding the median of
    the day's observations and their standard deviation.  In
    [filter_rtklib_solutions] a day without observations keeps its entry,
    with both statistics missing.  [resample_gnss] drops the days whose
    median is missing; it returns N entries when every day holds at least
    one observation. *)
Theorem daily_aggregation_entries (baseline_length : Z) (u leica emlid : series) :
  let s := swe_gnss baseline_length u in
  (length (swe_gnss_daily baseline_length u) = days_spanned s /\
   length (std_gnss_daily baseline_length u) = days_spanned s /\
   (forall d, In d (day_axis s) ->
      In (86400 * d, median (bucket s d)) (swe_gnss_daily baseline_length u) /\
      In (86400 * d, std (bucket s d)) (std_gnss_daily baseline_length u) /\
      (bucket s d = [] -> median (bucket s d) = None /\ std (bucket s d) = None) /\
      (bucket s d <> [] -> median (bucket s d) <> None))) /\
  ((forall d, In d (day_axis leica) -> bucket leica d <> []) ->
   (forall d, In d (day_axis emlid) -> bucket emlid d <> []) ->
   resample_gnss (Some leica) (Some emlid) =
     Ret (resample_D median leica, resample_D median emlid) /\
   length (resample_D median leica) = days_spanned leica /\
   length (resample_D median emlid) = days_spanned emlid).
Proof.
  intros s. split; [split; [|split]|].
  - apply resample_D_length.
  - apply resample_D_length.
  - intros d Hd. split; [|split; [|split]].
    + now apply resample_D_entry.
    + now apply resample_D_entry.
    + intros ->. split; reflexivity.
    + intros Hne Hm. now apply median_none_iff in Hm.
  - intros Hl He.
    assert (Hfull : forall w, (forall d, In d (day_axis w) -> bucket w d <> []) ->
                              dropna (resample_D median w) = resample_D median w).
    { intros w Hw. apply dropna_all.
      intros e Hin. unfold resample_D in Hin. apply in_map_iff in Hin as (d & <- & Hd).
      cbn [snd]. intros Hm. apply median_none_iff in Hm. now apply (Hw d). }
    unfold resample_gnss. rewrite (Hfull _ Hl), (Hfull _ He).
    repeat split; apply resample_D_length.
Qed.

Example daily_aggregation_two_days :
  let u := [(100, 5); (200, 7); (86400 + 5, 9)] in
  days_spanned u = 2%nat /\
  resample_D median u = [(0, Some (12 # 2)); (86400, Some (9 # 1))] /\
  resample_D std u = [(0, Some (Sqrt (4 # 2))); (86400, None)] /\
  resample_gnss (Some u) (Some u) =
    Ret ([(0, Some (12 # 2)); (86400, Some (9 # 1))],
         [(0, Some (12 # 2)); (86400, Some (9 # 1))]).
Proof. repeat split. Qed.

Example rtklib_daily_gap :
  swe_gnss_daily 0 [(100, 5); (200, 7); (2 * 86400 + 5, 9)] =
    [(0, Some (12 # 2)); (86400, None); (172800, Some (9 # 1))] /\
  std_gnss_daily 0 [(100, 5); (200, 7); (2 * 86400 + 5, 9)] =
    [(0, Some (Sqrt (4 # 2))); (86400, None); (172800, None)].
Proof. split; reflexivity. Qed.

(** ** Density guardrails *)

Lemma get_map_value (f : fnum -> fnum) (s : fseries) (t : label) :
  f NaN = NaN ->
  get (map (fun e => (fst e, f (snd e))) s) t = f (get s t).
Proof.
  intros Hf. induction s as [|[t' x] s IH]; cbn [map get fst snd]; [now rewrite Hf|].
  now destruct (t' =? t).
Qed.

(** Every retained density is the quotient of its bucket, is a number, and
    lies in the accepted range. *)
Lemma density_retained (swe sh : fseries) (t : label) (v : fnum) :
  In (t, v) (convert_swesh2density swe sh) ->
  v = fdiv (fmul_1000 (get swe t)) (get sh t) /\
  v <> NaN /\ flt v 50 = false /\ fge v 830 = false.
Proof.
  unfold convert_swesh2density, fdropna, divide.
  intros H.
  apply filter_In in H as [H Hrange].
  apply filter_In in H as [H Hnan].
  apply in_map_iff in H as (t' & E & _). injection E as -> <-.
  rewrite get_map_value in * by reflexivity.
  cbn [snd] in Hrange, Hnan.
  apply negb_true_iff, orb_false_iff in Hrange as [H50 H830].
  repeat split; try assumption.
  intros E. now rewrite E in Hnan.
Qed.

Lemma Qlt_bool_false (a b : Q) : Qlt_bool a b = false -> (b <= a)%Q.
Proof.
  unfold Qlt_bool. intros H. apply negb_false_iff in H. now apply Qle_bool_iff.
Qed.

Lemma Qle_bool_false (a b : Q) : Qle_bool a b = false -> (b < a)%Q.
Proof.
  intros H. apply Qnot_le_lt. intros Hle. apply Qle_bool_iff in Hle. congruence.
Qed.

(** One bucket of mass over one bucket of height with the same label. *)
Lemma density_single_bucket (t : label) (m h : fnum) :
  convert_swesh2density [(t, m)] [(t, h)] =
  filter (fun e => negb (flt (snd e) 50 || fge (snd e) 830))
         (fdropna [(t, fdiv (fmul_1000 m) h)]).
Proof.
  unfold convert_swesh2density, divide, union_index.
  cbn [map index fst snd app fold_right insert_label].
  rewrite Z.ltb_irrefl, Z.eqb_refl.
  cbn [map get]. now rewrite Z.eqb_refl.
Qed.

(** C7.  [convert_swesh2density] raises nothing and returns numbers only.
    A bucket whose height is zero or missing is absent from the density
    series; every density it returns is the quotient mass * 1000 / height
    of its bucket and lies in [50, 830), every other quotient is
    discarded.  Mass 100 over height 0 is missing.  Mass 10 over a height
    of 1.0 m is missing: the pipeline passes the height in millimetres
    ([gnssir_acc_daily]), the density is 10 * 1000 / 1000 = 10, below 50;
    with the height passed as 1.0 the quotient is beyond the range as
    well. *)
Theorem density_guardrails (swe sh : fseries) :
  let out := convert_swesh2density swe sh in
  (forall t v, In (t, v) out ->
     exists m h, get swe t = Fin m /\ get sh t = Fin h /\ ~ (h == 0)%Q /\
                 v = Fin (m * 1000 / h) /\
                 (50 <= m * 1000 / h)%Q /\ (m * 1000 / h < 830)%Q) /\
  (forall t, get sh t = NaN \/ (exists h, get sh t = Fin h /\ (h == 0)%Q) ->
             ~ In t (index out)) /\
  (forall t, convert_swesh2density [(t, Fin 100)] [(t, Fin 0)] = []) /\
  (forall t, convert_swesh2density [(t, Fin 10)] [(t, Fin 1000)] = [] /\
             flt (fdiv (fmul_1000 (Fin 10)) (Fin 1000)) 50 = true) /\
  (forall t, convert_swesh2density [(t, Fin 10)] [(t, Fin 1)] = []).
Proof.
  intros out.
  assert (Hret : forall t v, In (t, v) out ->
     exists m h, get swe t = Fin m /\ get sh t = Fin h /\ ~ (h == 0)%Q /\
                 v = Fin (m * 1000 / h) /\
                 (50 <= m * 1000 / h)%Q /\ (m * 1000 / h < 830)%Q).
  { intros t v H.
    destruct (density_retained _ _ _ _ H) as (E & Hnan & H50 & H830).
    destruct (get swe t) as [m| | |] eqn:Em, (get sh t) as [h| | |] eqn:Eh;
      cbn [fmul_1000 fdiv] in E; subst v;
      try (now contradiction Hnan); try discriminate H50; try discriminate H830.
    - destruct (Qis_zero h) eqn:Ez.
      + destruct (Qis_zero (m * 1000)); [now contradiction Hnan|].
        destruct (Qlt_bool 0 (m * 1000)); [discriminate H830 | discriminate H50].
      + exists m, h. repeat split.
        * intros Hz. apply Qeq_bool_iff in Hz. unfold Qis_zero in Ez. congruence.
        * now apply Qlt_bool_false.
        * now apply Qle_bool_false.
    - destruct (Qle_bool 0 h); [discriminate H830 | discriminate H50].
    - destruct (Qle_bool 0 h); [discriminate H50 | discriminate H830]. }
  split; [exact Hret|]. split; [|repeat split].
  - intros t Hsh Hin. unfold index in Hin.
    apply in_map_iff in Hin as ([t' v] & E & Hin). cbn [fst] in E. subst t'.
    destruct (Hret _ _ Hin) as (m & h & _ & Eh & Hnz & _).
    destruct Hsh as [Hs | (h' & Hs & Hz)]; rewrite Hs in Eh; [discriminate|].
    injection Eh as ->. contradiction.
  - intros t. now rewrite density_single_bucket.
  - now rewrite density_single_bucket.
  - intros t. now rewrite density_single_bucket.
Qed.

Example density_run :
  convert_swesh2density
    [(0, Fin 300); (86400, Fin 310); (172800, Fin 320); (259200, Fin 40)]
    [(0, Fin 1000); (172800, Fin 800); (259200, Fin 1000); (345600, Fin 10)] =
  [(0, Fin (300 * 1000 / 1000)); (172800, Fin (320 * 1000 / 800))].
Proof. reflexivity. Qed.

(** ** Error propagation *)

Section ZipWith.

Variables (A B C : Type) (f : A -> B -> C).

Lemma zip_with_length (la : list A) (lb : list B) :
  length (zip_with f la lb) = Nat.min (length la) (length lb).
Proof.
  revert lb; induction la as [|a la IH]; intros [|b lb]; cbn [zip_with length Nat.min];
    try reflexivity.
  now rewrite IH.
Qed.

Lemma zip_with_nth (la : list A) (lb : list B) (i : nat) (da : A) (db : B) (dc : C) :
  (i < length la)%nat -> (i < length lb)%nat ->
  nth i (zip_with f la lb) dc = f (nth i la da) (nth i lb db).
Proof.
  revert lb i; induction la as [|a la IH]; intros [|b lb] i Ha Hb;
    cbn [length] in Ha, Hb; try lia.
  destruct i as [|i]; [reflexivity|].
  cbn [zip_with nth]. apply IH; lia.
Qed.

End ZipWith.

Lemma nth_map_seq (A : Type) (f : nat -> A) (n i : nat) (d : A) :
  (i < n)%nat -> nth i (map f (seq 0 n)) d = f i.
Proof.
  intros Hi. rewrite (nth_indep _ d (f O)) by now rewrite length_map, length_seq.
  rewrite map_nth, seq_nth by exact Hi. reflexivity.
Qed.

Lemma nth_map_in (A B : Type) (f : A -> B) (l : list A) (i : nat) (da : A) (db : B) :
  (i < length l)%nat -> nth i (map f l) db = f (nth i l da).
Proof.
  intros Hi. rewrite (nth_indep _ db (f da)) by now rewrite length_map.
  apply map_nth.
Qed.

Lemma linspace_length (start stop : R) (num : nat) :
  length (linspace start stop num) = num.
Proof. unfold linspace. now rewrite length_map, length_seq. Qed.

Lemma linspace_nth (start stop d : R) (num i : nat) :
  (i < num)%nat ->
  nth i (linspace start stop num) d =
  (start + INR i * ((stop - start) / INR (num - 1)))%R.
Proof.
  intros Hi. unfold linspace. now apply nth_map_seq.
Qed.

(** The grid of heights is 0, 0.01, ..., 10. *)
Lemma height_grid (i : nat) (d : R) :
  (i < 1001)%nat -> nth i (linspace 0 10 1001) d = (INR i / 100)%R.
Proof.
  intros Hi. rewrite linspace_nth by exact Hi.
  replace (1001 - 1)%nat with 1000%nat by reflexivity.
  rewrite (INR_IZR_INZ 1000).
  change (Z.of_nat 1000) with 1000%Z.
  field.
Qed.

Lemma func_err_prop_single_length (a b c m_err h_err : R) :
  length (func_err_prop_single a b c m_err h_err) = 1001%nat.
Proof.
  unfold func_err_prop_single.
  rewrite !zip_with_length, length_combine, !zip_with_length, !length_map,
    !linspace_length.
  rewrite !Nat.min_id. reflexivity.
Qed.

Lemma func_err_prop_single_nth (a b c m_err h_err : R) (i : nat) :
  (i < 1001)%nat ->
  nth i (func_err_prop_single a b c m_err h_err) (Row 0 0 0) =
  let h := (INR i / 100)%R in
  let m := func_exp h a b c in
  let rel := sqrt ((m_err / m) ^ 2 + (h_err / h) ^ 2) in
  Row h rel (rel * (m / h))%R.
Proof.
  intros Hi. unfold func_err_prop_single.
  set (h := linspace 0 10 1001).
  set (m := map (fun x => func_exp x a b c) h).
  assert (Lh : length h = 1001%nat) by apply linspace_length.
  assert (Lm : length m = 1001%nat) by (unfold m; now rewrite length_map).
  assert (Nh : nth i h 0%R = (INR i / 100)%R) by now apply height_grid.
  assert (Nm : nth i m 0%R = func_exp (INR i / 100) a b c).
  { unfold m. rewrite (nth_map_in _ _ _ _ _ 0%R) by lia. now rewrite Nh. }
  set (density := zip_with Rdiv m h).
  set (rel := zip_with (fun mi hi => sqrt ((m_err / mi) ^ 2 + (h_err / hi) ^ 2)) m h).
  set (abs := zip_with Rmult rel density).
  assert (Ld : length density = 1001%nat)
    by (unfold density; rewrite zip_with_length, Lh, Lm; apply Nat.min_id).
  assert (Lr : length rel = 1001%nat)
    by (unfold rel; rewrite zip_with_length, Lh, Lm; apply Nat.min_id).
  assert (La : length abs = 1001%nat)
    by (unfold abs; rewrite zip_with_length, Lr, Ld; apply Nat.min_id).
  rewrite (zip_with_nth _ _ _ _ _ _ i 0%R (0%R, 0%R))
    by (rewrite ?length_combine, ?Lr, ?La, ?Lh; try rewrite Nat.min_id; lia).
  rewrite combine_nth by congruence.
  cbn [fst snd]. rewrite Nh.
  assert (Nr : nth i rel 0%R =
               sqrt ((m_err / func_exp (INR i / 100) a b c) ^ 2 + (h_err / (INR i / 100)) ^ 2)).
  { unfold rel. rewrite (zip_with_nth _ _ _ _ _ _ i 0%R 0%R) by lia. now rewrite Nh, Nm. }
  assert (Nd : nth i density 0%R = (func_exp (INR i / 100) a b c / (INR i / 100))%R).
  { unfold density. rewrite (zip_with_nth _ _ _ _ _ _ i 0%R 0%R) by lia. now rewrite Nh, Nm. }
  unfold abs at 1. rewrite (zip_with_nth _ _ _ _ _ _ i 0%R 0%R) by lia.
  now rewrite Nr, Nd.
Qed.

(** C8.  At every height h > 0 of the grid 0, 0.01, ..., 10 the relative
    error of [func_err_prop_single] is
    sqrt((m_err / mass(h))^2 + (h_err / h)^2) with mass(h) = a exp(b h) + c,
    the absolute error is the relative error times mass(h) / h, and
    [func_err_prop] holds these for its four pairs (m_err, h_err) side by
    side. *)
Theorem error_propagation_formula
  (a b c m_err1 m_err2 m_err3 m_err4 h_err1 h_err2 h_err3 h_err4 : R) (i : nat) :
  (1 <= i <= 1000)%nat ->
  let h := (INR i / 100)%R in
  let mass := (a * exp (b * h) + c)%R in
  let rel := fun m_err h_err => sqrt ((m_err / mass) ^ 2 + (h_err / h) ^ 2) in
  let row := fun m_err h_err => Row h (rel m_err h_err) (rel m_err h_err * (mass / h))%R in
  (0 < h)%R /\
  nth i (func_err_prop_single a b c m_err1 h_err1) (Row 0 0 0) = row m_err1 h_err1 /\
  nth i (func_err_prop a b c m_err1 m_err2 m_err3 m_err4 h_err1 h_err2 h_err3 h_err4)
        (Row 0 0 0, Row 0 0 0, Row 0 0 0, Row 0 0 0) =
    (row m_err1 h_err1, row m_err2 h_err2, row m_err3 h_err3, row m_err4 h_err4).
Proof.
  intros Hi h mass rel row.
  assert (Hlt : (i < 1001)%nat) by lia.
  repeat split.
  - unfold h. apply Rdiv_lt_0_compat; [|lra].
    apply lt_0_INR. lia.
  - now rewrite func_err_prop_single_nth.
  - unfold func_err_prop.
    rewrite !combine_nth
      by (rewrite ?length_combine, !func_err_prop_single_length, ?Nat.min_id; reflexivity).
    now rewrite !func_err_prop_single_nth.
Qed.

Lemma error_propagation_formula_witness :
  let h := (INR 100 / 100)%R in
  let mass := (120 * exp (1 * h) + -120)%R in
  let rel := fun m_err h_err => sqrt ((m_err / mass) ^ 2 + (h_err / h) ^ 2) in
  let row := fun m_err h_err => Row h (rel m_err h_err) (rel m_err h_err * (mass / h))%R in
  (0 < h)%R /\
  nth 100 (func_err_prop_single 120 1 (-120) 10 (1 / 10)) (Row 0 0 0) = row 10%R (1 / 10)%R /\
  nth 100 (func_err_prop 120 1 (-120) 10 30 50 90 (1 / 10) (1 / 10) (1 / 10) (1 / 10))
        (Row 0 0 0, Row 0 0 0, Row 0 0 0, Row 0 0 0) =
    (row 10%R (1 / 10)%R, row 30%R (1 / 10)%R, row 50%R (1 / 10)%R, row 90%R (1 / 10)%R).
Proof.
  apply (error_propagation_formula 120 1 (-120) 10 30 50 90
           (1 / 10) (1 / 10) (1 / 10) (1 / 10) 100).
  lia.
Defined.

(** ** Exponential regression *)

Section FitFacts.

Variable curve_fit :
  (R -> list R -> R) -> list R -> list R -> list R -> option (list R) ->
  outcome (list R * list (list R)).

(** The zero model is the answer to an unknown model name only. *)
Lemma zero_model_iff_unknown_name
  (x_data y_data : list R) (function : string) (y_0 : Z) (guess : list R) :
  exponential_regression curve_fit x_data y_data function y_0 guess
    = Ret [Int 0; Int 0; Int 0] <->
  ~ fitted_model function.
Proof.
  unfold exponential_regression, fitted_model.
  destruct (String.eqb_spec function "a * exp(b * x) + c") as [E1 | N1].
  { split; [|intros H; exfalso; apply H; now left].
    destruct (y_0 =? 0)%Z; [destruct (set_first _ _)|]; cbn [bind];
      try discriminate; destruct (curve_fit _ _ _ _ _); cbn [bind]; discriminate. }
  destruct (String.eqb_spec function "a * exp(b * x)") as [E2 | N2].
  { split; [|intros H; exfalso; apply H; right; now left].
    destruct (curve_fit _ _ _ _ _); cbn [bind]; discriminate. }
  destruct (String.eqb_spec function "std/sqrt(n)") as [E3 | N3].
  { split; [|intros H; exfalso; apply H; right; now right].
    destruct (curve_fit _ _ _ _ _); cbn [bind]; discriminate. }
  split; [|reflexivity].
  intros _ [H | [H | H]]; contradiction.
Qed.

(** What the call made for the model with an offset raises reaches the
    caller; its weights are ones, the first one replaced when [y_0] is
    0. *)
Lemma fit_error_propagates
  (x_data y_data : list R) (y_0 : Z) (guess : list R) (e : exn) :
  (forall sigma,
     (if (y_0 =? 0)%Z then set_first (1 / 1000000)%R (ones (length x_data))
      else Ret (ones (length x_data))) = Ret sigma ->
     curve_fit (fun x p => func_exp x (param p 0) (param p 1) (param p 2))
               x_data y_data guess (Some sigma) = Raise e) ->
  exponential_regression curve_fit x_data y_data "a * exp(b * x) + c" y_0 guess = Raise e \/
  (x_data = [] /\ y_0 = 0%Z /\
   exponential_regression curve_fit x_data y_data "a * exp(b * x) + c" y_0 guess
     = Raise IndexError).
Proof.
  intros Hfit. unfold exponential_regression.
  cbn [String.eqb Ascii.eqb Bool.eqb andb].
  destruct (Z.eqb_spec y_0 0) as [-> | Hy].
  - destruct x_data as [|x xs].
    + right. now repeat split.
    + left. cbn [length ones repeat set_first bind] in Hfit |- *.
      now rewrite (Hfit _ eq_refl).
  - left. cbn [bind]. now rewrite (Hfit _ eq_refl).
Qed.

End FitFacts.

(** C10.  When the call of [curve_fit] that [exponential_regression]
    makes for the exponential mass-height model, or the one it makes for
    the noise-decay model, raises (the optimiser does not converge, or
    the pairs are too few for the parameters), [exponential_regression]
    raises: the exception of that call (or [IndexError], for an empty
    sample with [y_0 = 0]) reaches the caller, and the result is not the
    zero model [[0, 0, 0]], which is returned for an unknown model name
    only.  Nothing is assumed about any other call of the optimiser. *)
Theorem fit_failure_is_an_error
  (curve_fit : (R -> list R -> R) -> list R -> list R -> list R -> option (list R) ->
               outcome (list R * list (list R)))
  (x_data y_data : list R) (function : string) (y_0 : Z) (guess : list R) (e : exn) :
  (function = "a * exp(b * x) + c"%string /\
   forall sigma,
     (if (y_0 =? 0)%Z then set_first (1 / 1000000)%R (ones (length x_data))
      else Ret (ones (length x_data))) = Ret sigma ->
     curve_fit (fun x p => func_exp x (param p 0) (param p 1) (param p 2))
               x_data y_data guess (Some sigma) = Raise e) \/
  (function = "std/sqrt(n)"%string /\
   curve_fit (fun x p => func_exp3 x (param p 0)) x_data y_data guess None = Raise e) ->
  (exists e', exponential_regression curve_fit x_data y_data function y_0 guess = Raise e' /\
              (e' = e \/ (e' = IndexError /\ x_data = [] /\ y_0 = 0%Z))) /\
  exponential_regression curve_fit x_data y_data function y_0 guess
    <> Ret [Int 0; Int 0; Int 0].
Proof.
  intros Hcall.
  assert (Hm : fitted_model function).
  { destruct Hcall as [[-> _] | [-> _]]; [now left | right; now right]. }
  split.
  - destruct Hcall as [[-> Hfit] | [-> Hfit]].
    + destruct (fit_error_propagates curve_fit _ _ y_0 guess e Hfit)
        as [H | (Hx & Hy & H)].
      * exists e. split; [exact H | now left].
      * exists IndexError. split; [exact H | right; now repeat split].
    + exists e. split; [|now left].
      unfold exponential_regression. cbn [String.eqb Ascii.eqb Bool.eqb andb].
      now rewrite Hfit.
  - intros H. now apply zero_model_iff_unknown_name in H.
Qed.

(** An optimiser that refuses a sample with fewer pairs than parameters
    and answers every other call: two pairs for the three parameters of
    the model with an offset. *)
Lemma fit_failure_is_an_error_witness :
  let few_pairs := fun (_ : R -> list R -> R) (x_data _ p0 : list R) (_ : option (list R)) =>
                     if (length x_data <? length p0)%nat
                     then @Raise (list R * list (list R))
                            (LibraryError "TypeError: The number of func parameters must not exceed the number of data points")
                     else Ret (p0, []) in
  (exists e', exponential_regression few_pairs [0%R; 1%R] [0%R; 0%R] "a * exp(b * x) + c" 0
                [100%R; 1%R; (-100)%R] = Raise e' /\
              (e' = LibraryError "TypeError: The number of func parameters must not exceed the number of data points" \/
               (e' = IndexError /\ [0%R; 1%R] = [] /\ 0%Z = 0%Z))) /\
  exponential_regression few_pairs [0%R; 1%R] [0%R; 0%R] "a * exp(b * x) + c" 0
    [100%R; 1%R; (-100)%R] <> Ret [Int 0; Int 0; Int 0].
Proof.
  intros few_pairs.
  apply (fit_failure_is_an_error few_pairs [0%R; 1%R] [0%R; 0%R] "a * exp(b * x) + c" 0
           [100%R; 1%R; (-100)%R]
           (LibraryError "TypeError: The number of func parameters must not exceed the number of data points")).
  left. split; [reflexivity|].
  intros sigma _. reflexivity.
Defined.

(** What the function does with a name it does not know. *)
Example unknown_model_name (curve_fit : (R -> list R -> R) -> list R -> list R -> list R ->
    option (list R) -> outcome (list R * list (list R))) (x_data y_data guess : list R) :
  exponential_regression curve_fit x_data y_data "a * exp(b * x) + d" 1 guess =
  Ret [Int 0; Int 0; Int 0].
Proof. reflexivity. Qed.

(** * Further properties of the filters *)

(** ** The jump correction keeps the index and the first observation *)

Lemma before_from_sorted (t : label) (u : series) :
  strictly_increasing (index u) = true -> before t u ++ from t u = u.
Proof.
  induction u as [|[t0 v0] u IH]; intros Hinc; [reflexivity|].
  cbn [index map fst] in Hinc. fold (index u) in Hinc.
  destruct (strictly_increasing_cons _ _ Hinc) as [Hrest Hall].
  rewrite Forall_forall in Hall.
  unfold before, from in *. cbn [filter fst].
  destruct (Z.leb_spec t t0) as [Hle | Hlt]; cbn [negb].
  - rewrite filter_none, filter_all; [reflexivity| |].
    + intros e He. apply Z.leb_le.
      assert (t0 < fst e) by (apply Hall; now apply in_map). lia.
    + intros e He. apply negb_false_iff, Z.leb_le.
      assert (t0 < fst e) by (apply Hall; now apply in_map). lia.
  - cbn [app]. f_equal. now apply IH.
Qed.

Lemma index_app (a b : series) : index (a ++ b) = index a ++ index b.
Proof. unfold index. apply map_app. Qed.

Lemma adjust_index (jump_val : Z) (t : label) (u : series) :
  strictly_increasing (index u) = true -> index (adjust jump_val t u) = index u.
Proof.
  intros Hinc. unfold adjust.
  rewrite index_app, index_sub_scalar, <- index_app.
  now rewrite before_from_sorted.
Qed.

Section Shape.

Variable beyond : Z -> bool.

(** The label of a detected step is never the first label: the first
    difference is NaN. *)
Lemma adjust_head (jump_val : Z) (t0 : label) (v0 : Z) (u : series) (t : label)
      (rest : list label) :
  strictly_increasing (index ((t0, v0) :: u)) = true ->
  jump_index beyond ((t0, v0) :: u) = t :: rest ->
  exists r, adjust jump_val t ((t0, v0) :: u) = (t0, v0) :: r /\ index r = index u.
Proof.
  intros Hinc E. rewrite jump_index_cons in E.
  destruct (jumps_from_first _ _ _ _ _ E) as (pre & v & post & -> & _ & _).
  change ((t0, v0) :: pre ++ (t, v) :: post)
    with (((t0, v0) :: pre) ++ (t, v) :: post) in Hinc |- *.
  unfold adjust. rewrite (from_cut _ _ _ _ Hinc), (before_cut _ _ _ _ Hinc).
  exists (pre ++ sub_scalar ((t, v) :: post) jump_val). split; [reflexivity|].
  now rewrite !index_app, index_sub_scalar.
Qed.

Lemma while_jump_shape (fuel : nat) (jump_val : Z) (t0 : label) (v0 : Z) (u w : series) :
  strictly_increasing (index ((t0, v0) :: u)) = true ->
  while_jump beyond fuel jump_val ((t0, v0) :: u) = Ret w ->
  exists r, w = (t0, v0) :: r /\ index r = index u.
Proof.
  revert u; induction fuel as [|fuel IH]; intros u Hinc; cbn [while_jump].
  - destruct (jump_index beyond ((t0, v0) :: u)); [|discriminate].
    intros [= <-]. now exists u.
  - destruct (jump_index beyond ((t0, v0) :: u)) as [|t rest] eqn:E.
    + intros [= <-]. now exists u.
    + destruct (adjust_head jump_val t0 v0 u t rest Hinc E) as (r & -> & Hr).
      intros H. apply IH in H.
      * destruct H as (r' & -> & Hr'). exists r'. split; [reflexivity | congruence].
      * cbn [index map fst] in Hinc |- *. fold (index r). fold (index u) in Hinc.
        now rewrite Hr.
Qed.

Lemma correct_jumps_shape (fuel : nat) (u w : series) :
  strictly_increasing (index u) = true ->
  correct_jumps beyond fuel u = Ret w ->
  index w = index u /\ hd_error w = hd_error u.
Proof.
  intros Hinc. unfold correct_jumps.
  destruct (first_label (jump_index beyond u)) as [t| |]; cbn [bind]; try discriminate.
  destruct (loc u t); cbn [bind]; try discriminate.
  destruct (iloc_neg2 (upto t u)); cbn [bind]; try discriminate.
  destruct u as [|[t0 v0] u].
  - destruct fuel; cbn; now intros [= <-].
  - intros H. destruct (while_jump_shape _ _ _ _ _ _ Hinc H) as (r & -> & Hr).
    split; [|reflexivity]. cbn [index map fst]. fold (index r). fold (index u). now rewrite Hr.
Qed.

Lemma correct_jumps_result_unique (fuel fuel' : nat) (u v v' : series) :
  correct_jumps beyond fuel u = Ret v ->
  correct_jumps beyond fuel' u = Ret v' -> v = v'.
Proof.
  intros H H'.
  apply (correct_jumps_fuel _ _ fuel') in H.
  apply (correct_jumps_fuel _ _ fuel) in H'.
  rewrite Nat.add_comm in H'. congruence.
Qed.

End Shape.

(** X1.  On a series with strictly increasing timestamps that holds a
    difference beyond the threshold, the detected jumps not all at
    midnight, the jump correction of either filter ends and returns a
    series; the result does not depend on the number of passes allowed
    beyond those it needs, has the timestamps of the input and its first
    observation, and holds no difference beyond the threshold. *)
Theorem jump_correction_returns (beyond : Z -> bool) (u : series) :
  beyond = rtklib_beyond \/ beyond = gnssir_beyond ->
  strictly_increasing (index u) = true ->
  has_jump beyond u ->
  dates_only (jump_index beyond u) = false ->
  exists fuel v,
    correct_jumps beyond fuel u = Ret v /\
    (forall fuel' v', correct_jumps beyond fuel' u = Ret v' -> v' = v) /\
    index v = index u /\
    hd_error v = hd_error u /\
    ~ has_jump beyond v.
Proof.
  intros HB Hinc Hj _.
  assert (Hex : exists fuel v, correct_jumps beyond fuel u = Ret v).
  { destruct HB as [-> | ->].
    - now apply rtklib_correct_jumps_terminates.
    - now apply gnssir_correct_jumps_terminates. }
  destruct Hex as (fuel & v & H). exists fuel, v.
  split; [exact H|]. split; [|split; [|split]].
  - intros fuel' v' H'. apply (correct_jumps_result_unique beyond fuel' fuel u v' v H' H).
  - now apply (correct_jumps_shape beyond fuel u v Hinc).
  - now apply (correct_jumps_shape beyond fuel u v Hinc).
  - apply jump_index_nil_iff. now apply (correct_jumps_ret beyond fuel u v).
Qed.

Lemma jump_correction_returns_witness :
  exists fuel v,
    correct_jumps rtklib_beyond fuel (quarter_hourly [5000; 2000; 500; 501; 502]) = Ret v /\
    (forall fuel' v',
        correct_jumps rtklib_beyond fuel' (quarter_hourly [5000; 2000; 500; 501; 502]) = Ret v' ->
        v' = v) /\
    index v = index (quarter_hourly [5000; 2000; 500; 501; 502]) /\
    hd_error v = hd_error (quarter_hourly [5000; 2000; 500; 501; 502]) /\
    ~ has_jump rtklib_beyond v.
Proof.
  apply (jump_correction_returns rtklib_beyond (quarter_hourly [5000; 2000; 500; 501; 502])).
  - left; reflexivity.
  - reflexivity.
  - exists [], (0, 5000), (900, 2000), [(1800, 500); (2700, 501); (3600, 502)].
    split; reflexivity.
  - reflexivity.
Defined.

(** ** The loops that erase false jumps: what they return and when they
    raise *)

Section DropOutliersRaise.

Variable is_outlier : Z -> Z -> bool.

Lemma after_last (t : label) (u : series) :
  (forall e, In e u -> fst e <= t) -> after t u = [].
Proof.
  intros H. unfold after. apply filter_none.
  intros e He. apply Z.ltb_ge. now apply H.
Qed.

(** A candidate that carries the latest label of the series has no next
    line: the loop raises [IndexError]. *)
Lemma drop_outliers_last_raises (cands u : series) (t : label) (v : Z) :
  strictly_increasing (index cands) = true ->
  In (t, v) cands ->
  (forall e, In e cands -> In (fst e) (index u)) ->
  (forall e, In e u -> fst e <= t) ->
  drop_outliers is_outlier cands u = Raise IndexError.
Proof.
  revert u; induction cands as [|[t0 v0] cands IH]; intros u Hinc Hin Hlab Hmax;
    [destruct Hin|].
  cbn [index map fst] in Hinc. fold (index cands) in Hinc.
  destruct (strictly_increasing_cons _ _ Hinc) as [Hinc' Hall].
  rewrite Forall_forall in Hall.
  cbn [drop_outliers].
  destruct Hin as [[= -> ->] | Hin].
  - now rewrite (after_last t u Hmax).
  - destruct (iloc0 (firstn 1 (after t0 u))) as [n| |] eqn:En; cbn [bind].
    + destruct (is_outlier n v0).
      * unfold drop.
        assert (Ht0 : existsb (fun e => fst e =? t0) u = true).
        { apply existsb_exists.
          specialize (Hlab (t0, v0) (or_introl eq_refl)). cbn [fst] in Hlab.
          unfold index in Hlab. apply in_map_iff in Hlab as (e & E & He).
          exists e. split; [exact He | now apply Z.eqb_eq]. }
        rewrite Ht0. cbn [bind]. apply IH; try assumption.
        -- intros e He.
           assert (Hne : t0 < fst e) by (apply Hall; now apply in_map).
           specialize (Hlab e (or_intror He)).
           unfold index in *. apply in_map_iff in Hlab as (x & E & Hx).
           apply in_map_iff. exists x. split; [exact E|].
           apply filter_In. split; [exact Hx|].
           apply negb_true_iff, Z.eqb_neq. lia.
        -- intros e He. apply filter_In in He as [He _]. now apply Hmax.
      * apply IH; try assumption.
        intros e He. apply Hlab. now right.
    + destruct e; try reflexivity; exfalso;
        destruct (firstn 1 (after t0 u)) as [|[? ?] ?]; discriminate En.
    + exfalso. destruct (firstn 1 (after t0 u)) as [|[? ?] ?]; discriminate En.
Qed.

End DropOutliersRaise.

Lemma remove_false_jumps_subseries (u r : series) :
  remove_false_jumps u = Ret r -> subseries r u.
Proof.
  unfold remove_false_jumps.
  destruct (drop_outliers _ _ u) as [u1| |] eqn:E1; cbn [bind]; try discriminate.
  intros E2. apply drop_outliers_subseries in E1, E2.
  eapply subseries_trans; eassumption.
Qed.

(** X2.  Whatever [remove_false_jumps] returns is the input with
    observations removed: labels and values of the observations it keeps
    are those of the input, in the order of the input. *)
Theorem remove_false_jumps_only_drops (u r : series) :
  remove_false_jumps u = Ret r ->
  subseries r u /\ (forall t v, In (t, v) r -> In (t, v) u) /\
  (length r <= length u)%nat.
Proof.
  unfold remove_false_jumps.
  destruct (drop_outliers _ _ u) as [u1| |] eqn:E1; cbn [bind]; try discriminate.
  intros E2.
  apply drop_outliers_subseries in E1, E2.
  assert (H : subseries r u) by (eapply subseries_trans; eassumption).
  repeat split.
  - exact H.
  - intros t v. now apply subseries_In.
  - now apply subseries_length.
Qed.

Lemma remove_false_jumps_only_drops_witness :
  subseries [(0, 10); (900, 11); (2700, 12); (3600, 13)]
            (quarter_hourly [10; 11; 2000; 12; 13]) /\
  (forall t v, In (t, v) [(0, 10); (900, 11); (2700, 12); (3600, 13)] ->
               In (t, v) (quarter_hourly [10; 11; 2000; 12; 13])) /\
  Nat.le (length [(0, 10); (900, 11); (2700, 12); (3600, 13)])
         (length (quarter_hourly [10; 11; 2000; 12; 13])).
Proof.
  apply (remove_false_jumps_only_drops (quarter_hourly [10; 11; 2000; 12; 13])).
  reflexivity.
Defined.

(** X3.  A sample more than 1000 mm above the sample before it, whose next
    sample has come back to the level before the excursion (or lies more
    than 1000 mm below the sample), is not in the series that
    [remove_false_jumps] returns. *)
Theorem upward_excursion_removed
  (pre post : series) (tp t tn : label) (p v n : Z) (r : series) :
  strictly_increasing (index (pre ++ (tp, p) :: (t, v) :: (tn, n) :: post)) = true ->
  1000 < v - p ->
  n <= p \/ n < v - 1000 ->
  remove_false_jumps (pre ++ (tp, p) :: (t, v) :: (tn, n) :: post) = Ret r ->
  ~ In t (index r) /\ subseries r (pre ++ (tp, p) :: (tn, n) :: post).
Proof.
  intros Hinc Hup Hback Hr.
  assert (Ht : ~ In t (index r))
    by (eapply upward_excursion_is_dropped; eassumption).
  split; [exact Ht|].
  pose proof (remove_false_jumps_subseries _ _ Hr) as Hsub.
  clear - Hsub Ht.
  set (a := pre ++ [(tp, p)]) in *.
  replace (pre ++ (tp, p) :: (t, v) :: (tn, n) :: post)
    with (a ++ (t, v) :: (tn, n) :: post) in Hsub
    by (unfold a; now rewrite <- app_assoc).
  replace (pre ++ (tp, p) :: (tn, n) :: post) with (a ++ (tn, n) :: post)
    by (unfold a; now rewrite <- app_assoc).
  revert r Hsub Ht. induction a as [|x a IH]; intros r Hsub Ht; cbn [app] in *.
  - inversion Hsub; subst; [|assumption].
    exfalso. apply Ht. now left.
  - inversion Hsub; subst.
    + constructor. apply IH; [assumption|].
      intros Hin. apply Ht. now right.
    + constructor. now apply IH.
Qed.

Lemma upward_excursion_removed_witness :
  ~ In 1800 (index [(0, 10); (900, 11); (2700, 12); (3600, 13)]) /\
  subseries [(0, 10); (900, 11); (2700, 12); (3600, 13)]
            ([(0, 10)] ++ (900, 11) :: (2700, 12) :: [(3600, 13)]).
Proof.
  apply (upward_excursion_removed [(0, 10)] [(3600, 13)] 900 1800 2700 11 2000 12).
  - reflexivity.
  - lia.
  - right; lia.
  - reflexivity.
Defined.

(** X4.  A series with strictly increasing timestamps whose last
    observation lies more than 1000 mm above the one before it makes
    [remove_false_jumps], and with it the filter, raise [IndexError]: the
    last observation is a candidate and has no next line. *)
Theorem trailing_upward_jump_raises (pre : series) (tp t : label) (p v : Z) (fuel : nat) :
  strictly_increasing (index (pre ++ [(tp, p); (t, v)])) = true ->
  1000 < v - p ->
  remove_false_jumps (pre ++ [(tp, p); (t, v)]) = Raise IndexError /\
  rtklib_heightening fuel (pre ++ [(tp, p); (t, v)]) = Raise IndexError.
Proof.
  intros Hinc Hup.
  set (u := pre ++ [(tp, p); (t, v)]) in *.
  set (cands := select (mask (fun d => 1000 <? d) (diff u)) u).
  assert (Hsub : subseries cands u) by apply select_subseries.
  assert (Eu : u = (pre ++ [(tp, p)]) ++ [(t, v)])
    by (unfold u; now rewrite <- app_assoc).
  assert (E1 : drop_outliers (fun next_line v => next_line <? v - 1000) cands u
               = Raise IndexError).
  { apply (drop_outliers_last_raises _ cands u t v).
    - apply (subseries_increasing _ (index u)); [now apply subseries_map | exact Hinc].
    - assert (Hj : In t (jump_index (fun d => 1000 <? d) u)).
      { rewrite Eu, jump_index_app, jumps_from_cons. cbn [snd].
        apply in_or_app. right.
        replace (1000 <? v - p) with true by (symmetry; now apply Z.ltb_lt).
        now left. }
      unfold jump_index, index in Hj. fold cands in Hj.
      apply in_map_iff in Hj as ([t' v'] & E & Hc). cbn [fst] in E. subst t'.
      replace v with v'; [exact Hc|].
      apply (label_unique u t v' v Hinc).
      + now apply (subseries_In _ _ _ _ Hsub).
      + rewrite Eu. apply in_or_app. right. now left.
    - intros e He. unfold index. apply in_map. now apply (subseries_In _ _ _ _ Hsub).
    - intros e He. rewrite Eu in Hinc, He.
      destruct (cut_labels _ _ _ _ Hinc) as [Hpre _].
      apply in_app_or in He as [He | [<- | []]]; [|cbn; lia].
      specialize (Hpre e He). lia. }
  assert (E : remove_false_jumps u = Raise IndexError).
  { unfold remove_false_jumps. fold cands. now rewrite E1. }
  split; [exact E|]. unfold rtklib_heightening. now rewrite E.
Qed.

Lemma trailing_upward_jump_raises_witness :
  remove_false_jumps ([(0, 10)] ++ [(900, 11); (1800, 2000)]) = Raise IndexError /\
  rtklib_heightening 3 ([(0, 10)] ++ [(900, 11); (1800, 2000)]) = Raise IndexError.
Proof.
  apply (trailing_upward_jump_raises [(0, 10)] 900 1800 11 2000 3).
  - reflexivity.
  - lia.
Defined.

(** ** The sigma filter over the reals *)

Lemma sigma_from_correct (window : Z) (threshold : Q) (seen u : series) :
  (let roll := rolling_from window seen u in
   let med := map median roll in
   let sd := map std roll in
   let upper_limit := limits med threshold sd in
   let lower_limit := limits med (- threshold) sd in
   let above := map (fun p => gt_limit (snd (fst p)) (snd p)) (combine u lower_limit) in
   let below := map (fun p => lt_limit (snd (fst p)) (snd p)) (combine u upper_limit) in
   select (map (fun p => fst p && snd p) (combine above below)) u)
  = sigma_from window threshold seen u.
Proof.
  revert seen; induction u as [|[t v] u IH]; intros seen; [reflexivity|].
  cbn [rolling_from map limits combine fst snd select sigma_from].
  fold (window_values window t (seen ++ [(t, v)])).
  specialize (IH (seen ++ [(t, v)])). cbv zeta in IH.
  unfold limits in IH. unfold keeps.
  destruct (median (window_values window t (seen ++ [(t, v)]))) as [m|];
    destruct (std (window_values window t (seen ++ [(t, v)]))) as [s|];
    cbn [gt_limit lt_limit andb]; try (cbn [app]; exact IH).
  destruct (lt_surd (m - inject_Z v) (- - threshold) s && lt_surd (inject_Z v - m) threshold s);
    cbn [app]; now rewrite IH.
Qed.

Lemma sigma_filter_direct (window : Z) (threshold : Q) (u : series) :
  sigma_filter window threshold u = sigma_from window threshold [] u.
Proof. unfold sigma_filter, rolling. apply sigma_from_correct. Qed.

Lemma sigma_from_app (window : Z) (threshold : Q) (seen a b : series) :
  sigma_from window threshold seen (a ++ b) =
  sigma_from window threshold seen a ++ sigma_from window threshold (seen ++ a) b.
Proof.
  revert seen; induction a as [|[t v] a IH]; intros seen.
  - now rewrite app_nil_r.
  - cbn [app sigma_from]. rewrite IH, <- !app_assoc. reflexivity.
Qed.

Lemma sigma_from_subseries (window : Z) (threshold : Q) (seen u : series) :
  subseries (sigma_from window threshold seen u) u.
Proof.
  revert seen; induction u as [|[t v] u IH]; intros seen; cbn [sigma_from]; [constructor|].
  destruct (keeps _ _ _); cbn [app]; constructor; apply IH.
Qed.

(** The window is not empty: it holds the observation itself when the
    window length is positive. *)
Lemma keeps_length (threshold : Q) (l : list Z) (v : Z) :
  keeps threshold l v = true -> (2 <= length l)%nat.
Proof.
  unfold keeps, std. destruct (median l); [|discriminate].
  destruct (Nat.ltb_spec (length l) 2); [discriminate | trivial].
Qed.

(** What [keeps] decides, read over the reals: the observation lies
    strictly between median - k * std and median + k * std. *)
Lemma keeps_correct (threshold : Q) (l : list Z) (v : Z) :
  keeps threshold l v = true <->
  (2 <= length l)%nat /\
  exists m, median l = Some m /\
    (Q2R m - Q2R threshold * sqrt (Q2R (variance l)) < IZR v
     < Q2R m + Q2R threshold * sqrt (Q2R (variance l)))%R.
Proof.
  split.
  - intros H. split; [now apply keeps_length in H|].
    unfold keeps in H. destruct (median l) as [m|]; [|discriminate].
    unfold std in *. destruct (length l <? 2)%nat; [discriminate|].
    apply andb_true_iff in H as [Hg Hl].
    apply gt_limit_correct in Hg; [|apply variance_nonneg].
    apply lt_limit_correct in Hl; [|apply variance_nonneg].
    cbn [radicand] in *. rewrite Q2R_opp in Hg.
    exists m. split; [reflexivity | lra].
  - intros (Hlen & m & Hm & Hlo & Hhi).
    unfold keeps, std. rewrite Hm.
    destruct (Nat.ltb_spec (length l) 2); [lia|].
    apply andb_true_iff. split.
    + apply gt_limit_correct; [apply variance_nonneg|].
      cbn [radicand]. rewrite Q2R_opp. lra.
    + apply lt_limit_correct; [apply variance_nonneg|]. exact Hhi.
Qed.

(** X5.  An observation of a series with strictly increasing timestamps is
    retained by the rolling sigma filter exactly when its window (the
    observations up to it that are less than the window length older)
    holds at least two observations and the value lies strictly between
    median - k * std and median + k * std of that window, with std the
    square root of the sample variance. *)
Theorem sigma_filter_retains_iff
  (window : Z) (threshold : Q) (pre post : series) (t : label) (v : Z) :
  strictly_increasing (index (pre ++ (t, v) :: post)) = true ->
  let l := window_values window t (pre ++ [(t, v)]) in
  In (t, v) (sigma_filter window threshold (pre ++ (t, v) :: post)) <->
  (2 <= length l)%nat /\
  exists m, median l = Some m /\
    (Q2R m - Q2R threshold * sqrt (Q2R (variance l)) < IZR v
     < Q2R m + Q2R threshold * sqrt (Q2R (variance l)))%R.
Proof.
  intros Hinc l.
  rewrite <- keeps_correct.
  rewrite sigma_filter_direct, sigma_from_app. cbn [sigma_from app].
  fold l.
  destruct (cut_labels _ _ _ _ Hinc) as [Hpre Hpost].
  split.
  - intros H. apply in_app_or in H as [H | H].
    + apply (subseries_In _ _ _ _ (sigma_from_subseries _ _ _ _)) in H.
      specialize (Hpre _ H). cbn in Hpre. lia.
    + destruct (keeps threshold l v); [reflexivity|].
      cbn [app] in H.
      apply (subseries_In _ _ _ _ (sigma_from_subseries _ _ _ _)) in H.
      specialize (Hpost _ H). cbn in Hpost. lia.
  - intros ->. apply in_or_app. right. now left.
Qed.

Lemma sigma_filter_retains_iff_witness :
  let l := window_values three_days 900 ([(0, 0)] ++ [(900, 1)]) in
  In (900, 1) (sigma_filter three_days 2 ([(0, 0)] ++ (900, 1) :: [(1800, 2)])) <->
  (2 <= length l)%nat /\
  exists m, median l = Some m /\
    (Q2R m - Q2R 2 * sqrt (Q2R (variance l)) < IZR 1
     < Q2R m + Q2R 2 * sqrt (Q2R (variance l)))%R.
Proof.
  apply (sigma_filter_retains_iff three_days 2 [(0, 0)] [(1800, 2)] 900 1).
  reflexivity.
Defined.

(** X6.  With a sigma multiplier that is zero or negative the filter
    raises nothing and returns the empty series. *)
Theorem sigma_filter_nonpositive_threshold (window : Z) (threshold : Q) (u : series) :
  (threshold <= 0)%Q -> sigma_filter window threshold u = [].
Proof.
  intros Hk. rewrite sigma_filter_direct.
  assert (Hkeep : forall l v, keeps threshold l v = false).
  { intros l v. destruct (keeps threshold l v) eqn:E; [|reflexivity].
    exfalso. apply keeps_correct in E as (_ & m & _ & Hlo & Hhi).
    apply Qle_Rle in Hk. rewrite RMicromega.Q2R_0 in Hk.
    pose proof (sqrt_pos (Q2R (variance l))) as Hs.
    assert (Hp : (Q2R threshold * sqrt (Q2R (variance l)) <= 0)%R).
    { replace 0%R with (0 * sqrt (Q2R (variance l)))%R by ring.
      apply Rmult_le_compat_r; assumption. }
    lra. }
  assert (Hgen : forall seen, sigma_from window threshold seen u = []).
  { induction u as [|[t v] u IH]; intros seen; [reflexivity|].
    cbn [sigma_from]. now rewrite Hkeep, IH. }
  apply Hgen.
Qed.

Lemma sigma_filter_nonpositive_threshold_witness :
  sigma_filter three_days 0 (quarter_hourly [0; 1; 2; 3; 3; 4; 5]) = [].
Proof.
  apply (sigma_filter_nonpositive_threshold three_days 0). discriminate.
Defined.

Lemma sum_constant (c : Z) (l : list Z) :
  (forall x, In x l -> x = c) -> sum l = Z.of_nat (length l) * c.
Proof.
  induction l as [|x l IH]; intros H; [reflexivity|].
  cbn [sum fold_right length]. fold (sum l).
  rewrite IH by (intros y Hy; apply H; now right).
  rewrite (H x (or_introl eq_refl)), Nat2Z.inj_succ. lia.
Qed.

Lemma variance_constant (c : Z) (l : list Z) :
  (forall x, In x l -> x = c) -> (variance l == 0)%Q.
Proof.
  intros H. unfold variance.
  rewrite (sum_constant c l H).
  rewrite (sum_constant (c * c) (map (fun x => x * x) l)).
  - rewrite length_map.
    replace (Z.of_nat (length l) * (Z.of_nat (length l) * (c * c)) -
             Z.of_nat (length l) * c * (Z.of_nat (length l) * c)) with 0 by ring.
    unfold Qdiv. now rewrite Qmult_0_l.
  - intros y Hy. apply in_map_iff in Hy as (x & <- & Hx). now rewrite (H x Hx).
Qed.

(** X7.  A series whose values are all equal is emptied by the filter,
    whatever the window and the multiplier: the standard deviation is
    zero and both comparisons with the limits are strict. *)
Theorem sigma_filter_constant_series (window : Z) (threshold : Q) (c : Z) (u : series) :
  (forall e, In e u -> snd e = c) -> sigma_filter window threshold u = [].
Proof.
  intros Hc. rewrite sigma_filter_direct.
  assert (Hgen : forall seen,
             (forall e, In e seen -> snd e = c) ->
             sigma_from window threshold seen u = []).
  { induction u as [|[t v] u IH]; intros seen Hseen; [reflexivity|].
    cbn [sigma_from].
    assert (Hseen' : forall e, In e (seen ++ [(t, v)]) -> snd e = c).
    { intros e He. apply in_app_or in He as [He | [<- | []]].
      - now apply Hseen.
      - apply (Hc (t, v)). now left. }
    rewrite IH; [|intros e He; apply Hc; now right | exact Hseen'].
    destruct (keeps threshold _ v) eqn:E; [|reflexivity].
    exfalso. apply keeps_correct in E as (_ & m & _ & Hlo & Hhi).
    assert (Hv : (variance (window_values window t (seen ++ [(t, v)])) == 0)%Q).
    { apply (variance_constant c). intros x Hx.
      unfold window_values, values in Hx. apply in_map_iff in Hx as (e & <- & He).
      apply filter_In in He as [He _]. now apply Hseen'. }
    apply Qeq_eqR in Hv. rewrite Hv, RMicromega.Q2R_0, sqrt_0 in Hlo, Hhi. lra. }
  apply Hgen. intros e [].
Qed.

Lemma sigma_filter_constant_series_witness :
  sigma_filter three_days 3 (quarter_hourly [7; 7; 7; 7]) = [].
Proof.
  apply (sigma_filter_constant_series three_days 3 7).
  intros e [<- | [<- | [<- | [<- | []]]]]; reflexivity.
Defined.

(** ** The laser filter *)

Lemma jump_index_incl (beyond : Z -> bool) (u : series) (t : label) :
  In t (jump_index beyond u) -> In t (index u).
Proof.
  unfold jump_index. intros H.
  apply (subseries_In _ _ _ t
           (subseries_map _ _ fst _ _ (select_subseries _ (mask beyond (diff u)) u))).
  exact H.
Qed.

Lemma not_isin_subseries (outliers : list label) (s : series) :
  subseries (not_isin outliers s) s.
Proof. apply filter_subseries. Qed.

Lemma filter_length_lt (A : Type) (f : A -> bool) (l : list A) (x : A) :
  In x l -> f x = false -> (length (filter f l) < length l)%nat.
Proof.
  induction l as [|y l IH]; intros Hin Hf; [destruct Hin|].
  cbn [filter length].
  destruct Hin as [-> | Hin].
  - rewrite Hf. pose proof (filter_length_le f l). lia.
  - specialize (IH Hin Hf). destruct (f y); cbn [length]; lia.
Qed.

(** A pass of the loop removes at least one observation. *)
Lemma not_isin_shorter (f_clean : series) (t : label) (rest : list label) :
  jump_index laser_beyond f_clean = t :: rest ->
  (length (not_isin (t :: rest) f_clean) < length f_clean)%nat.
Proof.
  intros E.
  assert (Hin : In t (index f_clean)) by (apply (jump_index_incl laser_beyond); rewrite E; now left).
  unfold index in Hin. apply in_map_iff in Hin as (e & Ee & He).
  apply (filter_length_lt _ _ _ e He).
  apply negb_false_iff. cbn [existsb]. now rewrite Ee, Z.eqb_refl.
Qed.

Lemma remove_gradient_outliers_returns (fuel : nat) (f_clean : series) :
  (length f_clean <= fuel)%nat ->
  exists r, remove_gradient_outliers fuel f_clean = Ret r /\
            subseries r f_clean /\ jump_index laser_beyond r = [].
Proof.
  revert f_clean; induction fuel as [|fuel IH]; intros f_clean Hlen.
  - destruct f_clean; [|cbn in Hlen; lia].
    exists []. repeat split. constructor.
  - cbn [remove_gradient_outliers].
    destruct (jump_index laser_beyond f_clean) as [|t rest] eqn:E.
    + exists f_clean. repeat split; [apply subseries_refl | exact E].
    + pose proof (not_isin_shorter _ _ _ E) as Hlt.
      destruct (IH (not_isin (t :: rest) f_clean)) as (r & Hr & Hsub & Hq); [lia|].
      exists r. repeat split; [exact Hr | | exact Hq].
      eapply subseries_trans; [exact Hsub | apply not_isin_subseries].
Qed.

(** X8.  The loop of [filter_laser_observations] on the gradient ends
    after at most as many passes as the series has observations; it
    returns the series with observations removed, and in what it returns
    no two consecutive observations differ by more than 500 mm. *)
Theorem gradient_loop_ends (f_clean : series) :
  exists r,
    remove_gradient_outliers (length f_clean) f_clean = Ret r /\
    subseries r f_clean /\
    (forall pre a b post, r = pre ++ a :: b :: post ->
                          -500 <= snd b - snd a <= 500).
Proof.
  destruct (remove_gradient_outliers_returns (length f_clean) f_clean (Nat.le_refl _))
    as (r & Hr & Hsub & Hq).
  exists r. repeat split; try assumption.
  - destruct (Z.le_gt_cases (-500) (snd b - snd a)) as [Hle | Hgt]; [exact Hle|].
    exfalso. apply jump_index_nil_iff in Hq. apply Hq.
    exists pre, a, b, post. split; [assumption|].
    unfold laser_beyond. apply orb_true_iff. right. now apply Z.ltb_lt.
  - destruct (Z.le_gt_cases (snd b - snd a) 500) as [Hle | Hgt]; [exact Hle|].
    exfalso. apply jump_index_nil_iff in Hq. apply Hq.
    exists pre, a, b, post. split; [assumption|].
    unfold laser_beyond. apply orb_true_iff. left. apply Z.ltb_lt. lia.
Qed.

Example gradient_loop_run :
  remove_gradient_outliers 5 (quarter_hourly [0; 600; 650; 10; 20]) = Ret [(0, 0)] /\
  remove_gradient_outliers 5 (quarter_hourly [0; 600; 10; 20; 30]) =
    Ret [(0, 0); (2700, 20); (3600, 30)].
Proof. split; reflexivity. Qed.

Lemma fold_min_le (v : Z) (l : list Z) :
  fold_right Z.min v l <= v /\ (forall x, In x l -> fold_right Z.min v l <= x).
Proof.
  induction l as [|y l [IH1 IH2]]; cbn [fold_right]; [split; [lia | intros x []]|].
  split; [lia|].
  intros x [<- | Hx]; [lia|]. specialize (IH2 x Hx). lia.
Qed.

Lemma fold_min_in (v : Z) (l : list Z) : In (fold_right Z.min v l) (v :: l).
Proof.
  induction l as [|y l IH]; cbn [fold_right]; [now left|].
  destruct (Z.min_spec y (fold_right Z.min v l)) as [[_ ->] | [_ ->]].
  - right; now left.
  - destruct IH as [<- | IH]; [now left | right; now right].
Qed.

(** X9.  The step "remove huge outliers" keeps exactly the observations
    whose value is above the smallest value of the series: every
    observation that carries the minimum is removed, and a series whose
    values are all the same (a single observation included) is emptied. *)
Theorem above_min_removes_minimum (dsh : series) :
  (forall t v, In (t, v) (above_min dsh) <->
               In (t, v) dsh /\ exists e, In e dsh /\ snd e < v) /\
  ((forall e e', In e dsh -> In e' dsh -> snd e = snd e') -> above_min dsh = []).
Proof.
  assert (Hchar : forall t v, In (t, v) (above_min dsh) <->
               In (t, v) dsh /\ exists e, In e dsh /\ snd e < v).
  { intros t v. unfold above_min. rewrite filter_In. cbn [snd].
    unfold series_min, values.
    destruct dsh as [|[t0 v0] dsh]; [split; [intros [[] _] | intros [[] _]]|].
    cbn [map snd].
    destruct (fold_min_le v0 (map snd dsh)) as [H0 Hall].
    split; intros [Hin H]; (split; [exact Hin|]).
    - apply Z.ltb_lt in H.
      destruct (fold_min_in v0 (map snd dsh)) as [E | Hm].
      + exists (t0, v0). split; [now left | cbn; lia].
      + apply in_map_iff in Hm as (e & Ee & He).
        exists e. split; [now right | lia].
    - destruct H as (e & He & Hlt). apply Z.ltb_lt.
      destruct He as [<- | He]; [cbn in Hlt; lia|].
      assert (fold_right Z.min v0 (map snd dsh) <= snd e) by (apply Hall; now apply in_map).
      lia. }
  split; [exact Hchar|].
  intros Hconst.
  destruct (above_min dsh) as [|[t v] r] eqn:E; [reflexivity|].
  exfalso.
  assert (Hin : In (t, v) ((t, v) :: r)) by now left.
  apply Hchar in Hin as (Hin & e & He & Hlt).
  specialize (Hconst e (t, v) He Hin). cbn in Hconst. lia.
Qed.

Lemma error_free_In (laser : list (label * laser_row)) (t : label) (v : Z) :
  In (t, v) (error_free laser) <-> In (t, LaserRow 0 v) laser.
Proof.
  unfold error_free. rewrite in_map_iff. split.
  - intros ([t' [err d]] & E & H). cbn in E. injection E as -> ->.
    apply filter_In in H as [H Herr]. cbn in Herr. apply Z.eqb_eq in Herr. now subst.
  - intros H. exists (t, LaserRow 0 v). split; [reflexivity|].
    apply filter_In. split; [exact H | reflexivity].
Qed.

Lemma increasing_nondecreasing (l : list label) :
  strictly_increasing l = true -> nondecreasing l = true.
Proof.
  induction l as [|a [|b l] IH]; intros H; try reflexivity.
  change (strictly_increasing (a :: b :: l)) with ((a <? b) && strictly_increasing (b :: l)) in H.
  change (nondecreasing (a :: b :: l)) with ((a <=? b) && nondecreasing (b :: l)).
  apply andb_true_iff in H as [Hab H]. apply Z.ltb_lt in Hab.
  rewrite (IH H), andb_true_r. apply Z.leb_le. lia.
Qed.

(** X10.  On a laser frame with strictly increasing timestamps the
    cleaning of [filter_laser_observations] (error-free rows, minimum
    removed, rolling sigma filter over seven days, gradient loop) returns
    a series, for every multiplier; each of its observations is a row of
    the frame with error code 0, with its timestamp and its value, and no
    two consecutive observations of it differ by more than 500 mm.  On a
    frame whose error-free rows above the minimum are in no order, it
    raises [ValueError]. *)
Theorem laser_cleaning_returns (threshold : Q) (laser : list (label * laser_row)) :
  strictly_increasing (index laser) = true ->
  (exists f_clean,
    laser_f_clean (length laser) threshold laser = Ret f_clean /\
    (forall t v, In (t, v) f_clean -> In (t, LaserRow 0 v) laser) /\
    (length f_clean <= length laser)%nat /\
    (forall pre a b post, f_clean = pre ++ a :: b :: post ->
                          -500 <= snd b - snd a <= 500)) /\
  (forall fuel unsorted,
     nondecreasing (index (above_min (error_free unsorted))) = false ->
     nonincreasing (index (above_min (error_free unsorted))) = false ->
     laser_f_clean fuel threshold unsorted =
       Raise (LibraryError "ValueError: index must be monotonic")).
Proof.
  intros Hinc. split.
  2: { intros fuel unsorted H1 H2. unfold laser_f_clean. now rewrite H1, H2. }
  unfold laser_f_clean.
  set (dsh := error_free laser).
  set (f := above_min dsh).
  assert (Hf : nondecreasing (index f) = true).
  { apply increasing_nondecreasing.
    apply (subseries_increasing _ (index laser)); [|exact Hinc].
    apply (subseries_trans _ _ (index dsh)).
    - apply subseries_map, filter_subseries.
    - unfold dsh, error_free, index. rewrite map_map. cbn [fst].
      apply subseries_map, filter_subseries. }
  rewrite Hf. cbn [orb].
  set (s := sigma_filter seven_days threshold f).
  assert (Hs : subseries s dsh).
  { eapply subseries_trans; [apply select_subseries | apply filter_subseries]. }
  assert (Hlen : (length s <= length laser)%nat).
  { apply subseries_length in Hs. unfold dsh, error_free in Hs.
    rewrite length_map in Hs. pose proof (filter_length_le
      (fun e : Z * laser_row => laser_error (snd e) =? 0) laser). lia. }
  destruct (remove_gradient_outliers_returns (length laser) s Hlen) as (r & Hr & Hsub & Hq).
  exists r. split; [exact Hr|]. split; [|split].
  - intros t v Hin. apply error_free_In. fold dsh.
    apply (subseries_In _ _ _ _ Hs). now apply (subseries_In _ _ _ _ Hsub).
  - apply subseries_length in Hsub. lia.
  - intros pre a b post E.
    assert (Hn : ~ has_jump laser_beyond r) by now apply jump_index_nil_iff.
    split.
    + destruct (Z.le_gt_cases (-500) (snd b - snd a)) as [Hle | Hgt]; [exact Hle|].
      exfalso. apply Hn. exists pre, a, b, post. split; [assumption|].
      unfold laser_beyond. apply orb_true_iff. right. now apply Z.ltb_lt.
    + destruct (Z.le_gt_cases (snd b - snd a) 500) as [Hle | Hgt]; [exact Hle|].
      exfalso. apply Hn. exists pre, a, b, post. split; [assumption|].
      unfold laser_beyond. apply orb_true_iff. left. apply Z.ltb_lt. lia.
Qed.

(** Five rows a quarter of an hour apart, one of them with an error
    code. *)
Lemma laser_cleaning_returns_witness :
  exists f_clean,
    laser_f_clean 5 2
      [(0, LaserRow 0 100); (900, LaserRow 0 104); (1800, LaserRow 3 9000);
       (2700, LaserRow 0 102); (3600, LaserRow 0 103)] = Ret f_clean /\
    (length f_clean <= 5)%nat.
Proof.
  destruct (laser_cleaning_returns 2
              [(0, LaserRow 0 100); (900, LaserRow 0 104); (1800, LaserRow 3 9000);
               (2700, LaserRow 0 102); (3600, LaserRow 0 103)])
    as [(f_clean & H & _ & Hlen & _) _].
  - reflexivity.
  - exists f_clean. split; [exact H | exact Hlen].
Defined.

Example laser_cleaning_unsorted :
  laser_f_clean 5 2
    [(900, LaserRow 0 100); (0, LaserRow 0 104); (1800, LaserRow 0 102);
     (2700, LaserRow 0 90)] =
  Raise (LibraryError "ValueError: index must be monotonic").
Proof. reflexivity. Qed.

(** ** SWE to snow height and back *)

Lemma get_absent (s : fseries) (t : label) : ~ In t (index s) -> get s t = NaN.
Proof.
  induction s as [|[t' x] s IH]; intros H; [reflexivity|].
  cbn [get]. destruct (Z.eqb_spec t' t) as [-> | Hne].
  - exfalso. apply H. now left.
  - apply IH. intros Hin. apply H. now right.
Qed.

Lemma get_present (s : fseries) (t : label) : get s t <> NaN -> In t (index s).
Proof.
  intros H. destruct (in_dec Z.eq_dec t (index s)) as [Hin | Hn]; [exact Hin|].
  now rewrite get_absent in H.
Qed.

Lemma insert_label_In (t x : label) (l : list label) :
  In x (insert_label t l) <-> x = t \/ In x l.
Proof.
  induction l as [|t' l IH]; cbn [insert_label].
  - split; [intros [<- | []]; now left | intros [-> | []]; now left].
  - destruct (Z.ltb_spec t t').
    + cbn [In]. split; [intros [<- | H']; auto | intros [-> | H']; auto].
    + destruct (Z.eqb_spec t t') as [-> | Hne].
      * cbn [In]. split; [auto | intros [-> | H']; auto].
      * cbn [In]. rewrite IH. split; [intros [<- | [-> | H']]; auto | intros [-> | [<- | H']]; auto].
Qed.

Lemma union_index_In (a b : fseries) (t : label) :
  In t (union_index a b) <-> In t (index a) \/ In t (index b).
Proof.
  unfold union_index. rewrite <- in_app_iff.
  induction (index a ++ index b) as [|x l IH]; cbn [fold_right]; [reflexivity|].
  rewrite insert_label_In, IH. cbn [In]. split; intros [H | H]; auto.
Qed.

Lemma insert_label_increasing (t : label) (l : list label) :
  strictly_increasing l = true -> strictly_increasing (insert_label t l) = true.
Proof.
  induction l as [|t' l IH]; intros H; [reflexivity|].
  cbn [insert_label].
  destruct (Z.ltb_spec t t') as [Hlt | Hge].
  - change (strictly_increasing (t :: t' :: l)) with ((t <? t') && strictly_increasing (t' :: l)).
    rewrite H, andb_true_r. now apply Z.ltb_lt.
  - destruct (Z.eqb_spec t t') as [-> | Hne]; [exact H|].
    destruct (strictly_increasing_cons _ _ H) as [Hl Hall].
    specialize (IH Hl).
    destruct (insert_label t l) as [|y l'] eqn:E; [reflexivity|].
    change (strictly_increasing (t' :: y :: l')) with ((t' <? y) && strictly_increasing (y :: l')).
    rewrite IH, andb_true_r. apply Z.ltb_lt.
    assert (Hy : In y (insert_label t l)) by (rewrite E; now left).
    apply insert_label_In in Hy as [-> | Hy]; [lia|].
    rewrite Forall_forall in Hall. now apply Hall.
Qed.

Lemma union_index_increasing (a b : fseries) :
  strictly_increasing (union_index a b) = true.
Proof.
  unfold union_index. induction (index a ++ index b) as [|x l IH]; [reflexivity|].
  cbn [fold_right]. now apply insert_label_increasing.
Qed.

Section Aligned.

(** A series computed label by label over a list of labels, then
    [dropna]. *)
Variable f : label -> fnum.

Lemma aligned_In (L : list label) (t : label) (v : fnum) :
  In (t, v) (fdropna (map (fun t => (t, f t)) L)) <->
  In t L /\ v = f t /\ v <> NaN.
Proof.
  unfold fdropna. rewrite filter_In, in_map_iff. cbn [snd]. split.
  - intros [(t' & E & Hin) Hv]. injection E as -> <-.
    repeat split; [exact Hin|]. intros E. now rewrite E in Hv.
  - intros (Hin & -> & Hv). split; [now exists t|].
    destruct (f t); try reflexivity. now contradiction Hv.
Qed.

Lemma aligned_get (L : list label) (t : label) :
  (~ In t L -> f t = NaN) ->
  get (fdropna (map (fun t => (t, f t)) L)) t = f t.
Proof.
  intros Hout.
  destruct (in_dec Z.eq_dec t L) as [Hin | Hn].
  - clear Hout. induction L as [|t0 L IH]; [destruct Hin|].
    cbn [map fdropna filter snd]. fold (fdropna (map (fun t => (t, f t)) L)).
    destruct (Z.eq_dec t0 t) as [-> | Hne].
    + destruct (f t) eqn:E; cbn [get]; rewrite ?Z.eqb_refl; try reflexivity.
      destruct (in_dec Z.eq_dec t L) as [Hin' | Hn'].
      * exact (IH Hin').
      * apply get_absent. intros H. apply Hn'.
        unfold index in H. apply in_map_iff in H as ([t' x] & Et & H).
        cbn in Et. subst t'. now apply aligned_In in H as (H & _).
    + destruct Hin as [-> | Hin]; [contradiction|].
      destruct (f t0); cbn [get];
        try (destruct (Z.eqb_spec t0 t); [contradiction|]); now apply IH.
  - rewrite Hout by exact Hn. apply get_absent. intros H. apply Hn.
    unfold index in H. apply in_map_iff in H as ([t' x] & Et & H).
    cbn in Et. subst t'. now apply aligned_In in H as (H & _).
Qed.

Lemma aligned_index_increasing (L : list label) :
  strictly_increasing L = true ->
  strictly_increasing (index (fdropna (map (fun t => (t, f t)) L))) = true.
Proof.
  intros H. apply (subseries_increasing _ L); [|exact H].
  replace L with (index (map (fun t => (t, f t)) L)) at 2.
  - apply subseries_map, filter_subseries.
  - unfold index. rewrite map_map. apply map_id.
Qed.

End Aligned.

Lemma get_scalar (g : fnum -> fnum) (s : fseries) (t : label) :
  g NaN = NaN -> get (map (fun e => (fst e, g (snd e))) s) t = g (get s t).
Proof. apply get_map_value. Qed.

Lemma fmul_thousand (x : fnum) : fmul x (Fin 1000) = fmul_1000 x.
Proof. destruct x; reflexivity. Qed.

Lemma fdiv_thousand (x : fnum) :
  fdiv x (Fin 1000) = match x with Fin a => Fin (a / 1000) | other => other end.
Proof. destruct x; reflexivity. Qed.

Lemma Qlt_bool_of_le (q : Q) :
  Qeq_bool q 0 = false -> Qlt_bool 0 q = Qle_bool 0 q.
Proof.
  intros Ez. unfold Qlt_bool.
  destruct (Qle_bool 0 q) eqn:E0, (Qle_bool q 0) eqn:E1; try reflexivity.
  - apply Qle_bool_iff in E0, E1.
    assert (E : (q == 0)%Q) by now apply Qle_antisym.
    apply Qeq_bool_iff in E. congruence.
  - exfalso. apply Qle_bool_false in E0, E1.
    apply (Qlt_irrefl 0). now apply Qlt_trans with q.
Qed.

Lemma there_and_back_sound (x d : fnum) :
  there_and_back x d <> NaN ->
  x <> NaN /\ exists q, d = Fin q /\ ~ (q == 0)%Q.
Proof.
  intros H. split; [intros ->; apply H; reflexivity|].
  revert H. unfold there_and_back. rewrite fmul_thousand, fdiv_thousand.
  destruct d as [q| | |].
  - destruct (Qeq_bool q 0) eqn:Ez.
    + (* zero density *)
      intros H. exfalso. apply H.
      destruct x as [m| | |]; cbv [fmul_1000 fdiv fmul Qis_zero]; rewrite ?Ez.
      * destruct (Qeq_bool (m * 1000) 0); [reflexivity|].
        destruct (Qlt_bool 0 (m * 1000)); now rewrite ?Ez.
      * destruct (Qle_bool 0 q); now rewrite ?Ez.
      * destruct (Qle_bool 0 q); now rewrite ?Ez.
      * reflexivity.
    + intros _. exists q. split; [reflexivity|].
      intros E; apply Qeq_bool_iff in E; congruence.
  - intros H. exfalso. apply H. destruct x; reflexivity.
  - intros H. exfalso. apply H. destruct x; reflexivity.
  - intros H. exfalso. apply H. destruct x; reflexivity.
Qed.

Lemma there_and_back_complete (x : fnum) (q : Q) :
  x <> NaN -> ~ (q == 0)%Q -> there_and_back x (Fin q) <> NaN.
Proof.
  intros Hx Hq. unfold there_and_back. rewrite fmul_thousand, fdiv_thousand.
  assert (Ez : Qeq_bool q 0 = false).
  { destruct (Qeq_bool q 0) eqn:E; [|reflexivity]. apply Qeq_bool_iff in E. contradiction. }
  destruct x as [m| | |]; cbv [fmul_1000 fdiv fmul Qis_zero]; rewrite ?Ez;
    try (now contradiction Hx).
  - discriminate.
  - destruct (Qle_bool 0 q); rewrite ?Ez; destruct (Qlt_bool 0 q); discriminate.
  - destruct (Qle_bool 0 q); rewrite ?Ez; destruct (Qlt_bool 0 q); discriminate.
Qed.

Lemma Qis_zero_thousand (m : Q) : Qis_zero (m * 1000) = Qis_zero m.
Proof.
  unfold Qis_zero.
  destruct (Qeq_bool m 0) eqn:E.
  - apply Qeq_bool_iff in E. apply Qeq_bool_iff. rewrite E. reflexivity.
  - destruct (Qeq_bool (m * 1000) 0) eqn:E'; [|reflexivity].
    apply Qeq_bool_iff in E'.
    assert (Hm : (m == 0)%Q).
    { assert (H := Qmult_integral _ _ E'). destruct H as [H | H]; [exact H|].
      discriminate H. }
    apply Qeq_bool_iff in Hm. congruence.
Qed.

(** When the height of one bucket is missing. *)
Lemma height_missing (x d : fnum) :
  fdiv (fmul x (Fin 1000)) d = NaN <->
  x = NaN \/ d = NaN \/ (is_zero x = true /\ is_zero d = true) \/
  (is_inf x = true /\ is_inf d = true).
Proof.
  rewrite fmul_thousand.
  destruct x as [m| | |], d as [q| | |]; cbn [fmul_1000 fdiv is_zero is_inf];
    rewrite ?Qis_zero_thousand;
    try (split; [discriminate | intros [H | [H | [[H1 H2] | [H1 H2]]]]; discriminate]);
    try (split; [intros _; tauto | reflexivity]);
    try (split; [intros _; right; right; right; now split | reflexivity]).
  - destruct (Qis_zero q), (Qis_zero m); cbn;
      try (split; [intros _; right; right; left; now split | reflexivity]);
      try (destruct (Qlt_bool 0 (m * 1000)));
      split; try discriminate;
      intros [H | [H | [[H1 H2] | [H1 H2]]]]; discriminate.
  - destruct (Qle_bool 0 q);
      (split; [discriminate | intros [H | [H | [[H1 H2] | [H1 H2]]]]; discriminate]).
  - destruct (Qle_bool 0 q);
      (split; [discriminate | intros [H | [H | [[H1 H2] | [H1 H2]]]]; discriminate]).
Qed.

Lemma swe2sh_get (swe density : fseries) (t : label) :
  get (convert_swe2sh swe (Some density)) t
  = fdiv (fmul (get swe t) (Fin 1000)) (get density t).
Proof.
  unfold convert_swe2sh, divide.
  rewrite (aligned_get (fun t => fdiv (get (mul_scalar swe 1000) t) (get density t))).
  - unfold mul_scalar. now rewrite (get_scalar (fun x => fmul x (Fin 1000))).
  - intros Hn. rewrite union_index_In in Hn.
    rewrite (get_absent density) by tauto.
    destruct (get (mul_scalar swe 1000) t); reflexivity.
Qed.

Lemma index_In_get (s : fseries) (t : label) :
  In t (index (fdropna s)) <-> exists v, In (t, v) (fdropna s).
Proof.
  unfold index. rewrite in_map_iff. split.
  - intros ([t' v] & E & H). cbn in E. subst t'. now exists v.
  - intros (v & H). now exists (t, v).
Qed.

(** X11.  With interpolated densities given as a series, on series with
    strictly increasing timestamps, [convert_swe2sh] keeps a timestamp
    exactly when neither the SWE nor the density is missing there, they
    are not both zero and not both infinite.  It does not guard against
    a zero density: a SWE other than zero over a density of zero gives
    an infinite snow height, which [dropna] keeps.  With the constant
    density the index is the one of the SWE series. *)
Theorem swe_to_height_entries (swe density : fseries) (t : label) :
  strictly_increasing (index swe) = true ->
  strictly_increasing (index density) = true ->
  let sh := convert_swe2sh swe (Some density) in
  (In t (index sh) <->
   get swe t <> NaN /\ get density t <> NaN /\
   ~ (is_zero (get swe t) = true /\ is_zero (get density t) = true) /\
   ~ (is_inf (get swe t) = true /\ is_inf (get density t) = true)) /\
  (forall m q, get swe t = Fin m -> ~ (m == 0)%Q ->
               get density t = Fin q -> (q == 0)%Q ->
               In (t, PInf) sh \/ In (t, NInf) sh) /\
  index (convert_swe2sh swe None) = index swe.
Proof.
  intros _ _ sh.
  assert (Hin : forall v, In (t, v) sh <->
            v = fdiv (fmul (get swe t) (Fin 1000)) (get density t) /\ v <> NaN).
  { intros v. unfold sh, convert_swe2sh, divide. rewrite aligned_In.
    unfold mul_scalar. rewrite (get_scalar (fun x => fmul x (Fin 1000))) by reflexivity.
    split; [tauto|]. intros [-> Hv]. split; [|now split].
    apply union_index_In.
    destruct (in_dec Z.eq_dec t (index density)) as [Hd | Hd]; [now right|].
    exfalso. apply Hv. rewrite (get_absent density) by exact Hd.
    destruct (fmul (get swe t) (Fin 1000)); reflexivity. }
  split; [|split].
  - unfold sh, convert_swe2sh. rewrite index_In_get.
    fold (convert_swe2sh swe (Some density)). fold sh.
    pose proof (height_missing (get swe t) (get density t)) as Hm.
    split.
    + intros (v & Hv). apply Hin in Hv as [Ev Hn]. subst v.
      repeat split; intros H; apply Hn, Hm; tauto.
    + intros (H1 & H2 & H3 & H4).
      exists (fdiv (fmul (get swe t) (Fin 1000)) (get density t)).
      apply Hin. split; [reflexivity|].
      intros E. apply Hm in E. tauto.
  - intros m q Hs Hm0 Hd Hq0.
    assert (Ez : Qis_zero q = true) by (now apply Qeq_bool_iff).
    assert (Em : Qis_zero (m * 1000) = false).
    { rewrite Qis_zero_thousand. unfold Qis_zero.
      destruct (Qeq_bool m 0) eqn:E; [|reflexivity].
      apply Qeq_bool_iff in E. contradiction. }
    assert (Ev : fdiv (fmul (get swe t) (Fin 1000)) (get density t)
                 = if Qlt_bool 0 (m * 1000) then PInf else NInf).
    { rewrite Hs, Hd. cbn [fmul fdiv]. now rewrite Ez, Em. }
    destruct (Qlt_bool 0 (m * 1000)); [left | right]; apply Hin;
      rewrite Ev; split; try reflexivity; discriminate.
  - unfold convert_swe2sh, div_scalar, mul_scalar, index. rewrite !map_map. reflexivity.
Qed.

Lemma swe_to_height_entries_witness :
  In (86400, PInf)
     (convert_swe2sh [(0, Fin 120); (86400, Fin 130); (172800, Fin 140)]
        (Some [(0, Fin 400); (86400, Fin 0); (259200, Fin 410)])) \/
  In (86400, NInf)
     (convert_swe2sh [(0, Fin 120); (86400, Fin 130); (172800, Fin 140)]
        (Some [(0, Fin 400); (86400, Fin 0); (259200, Fin 410)])).
Proof.
  destruct (swe_to_height_entries
              [(0, Fin 120); (86400, Fin 130); (172800, Fin 140)]
              [(0, Fin 400); (86400, Fin 0); (259200, Fin 410)] 86400)
    as (_ & H & _).
  - reflexivity.
  - reflexivity.
  - apply (H 130 0)%Q; try reflexivity. discriminate.
Defined.

(** X12.  With interpolated densities, on series with strictly increasing
    timestamps, converting a series of SWE to snow height and back keeps
    a timestamp exactly when the SWE there is not missing and the density
    there is a number other than zero: the buckets whose density is
    zero, missing or infinite are lost, and no other. *)
Theorem round_trip_retention (swe density : fseries) (t : label) :
  strictly_increasing (index swe) = true ->
  strictly_increasing (index density) = true ->
  let back := convert_sh2swe (convert_swe2sh swe (Some density)) (Some density) in
  In t (index back) <->
  get swe t <> NaN /\ exists q, get density t = Fin q /\ ~ (q == 0)%Q.
Proof.
  intros _ _ back.
  assert (Hval : fmul (get (div_scalar (convert_swe2sh swe (Some density)) 1000) t)
                      (get density t)
                 = there_and_back (get swe t) (get density t)).
  { unfold div_scalar. rewrite (get_scalar (fun x => fdiv x (Fin 1000))) by reflexivity.
    now rewrite swe2sh_get. }
  unfold back, convert_sh2swe. rewrite index_In_get. unfold multiply. split.
  - intros (v & Hin).
    apply aligned_In in Hin as (_ & -> & Hv).
    cbv beta in *. rewrite Hval in *.
    now apply there_and_back_sound.
  - intros (Hswe & q & Hq & Hnz).
    exists (there_and_back (get swe t) (get density t)).
    apply aligned_In. cbv beta. rewrite Hval. repeat split.
    + apply union_index_In. right. apply get_present. rewrite Hq. discriminate.
    + rewrite Hq. now apply there_and_back_complete.
Qed.

Lemma round_trip_retention_witness :
  In 0 (index (convert_sh2swe
                 (convert_swe2sh [(0, Fin 120); (86400, Fin 130); (172800, Fin 140)]
                    (Some [(0, Fin 400); (86400, Fin 0); (259200, Fin 410)]))
                 (Some [(0, Fin 400); (86400, Fin 0); (259200, Fin 410)]))) <->
  get [(0, Fin 120); (86400, Fin 130); (172800, Fin 140)] 0 <> NaN /\
  exists q, get [(0, Fin 400); (86400, Fin 0); (259200, Fin 410)] 0 = Fin q /\ ~ (q == 0)%Q.
Proof.
  apply (round_trip_retention
           [(0, Fin 120); (86400, Fin 130); (172800, Fin 140)]
           [(0, Fin 400); (86400, Fin 0); (259200, Fin 410)] 0).
  - reflexivity.
  - reflexivity.
Defined.

Example round_trip_run :
  index (convert_sh2swe
           (convert_swe2sh [(0, Fin 120); (86400, Fin 130); (172800, Fin 140)]
              (Some [(0, Fin 400); (86400, Fin 0); (259200, Fin 410)]))
           (Some [(0, Fin 400); (86400, Fin 0); (259200, Fin 410)])) = [0].
Proof. reflexivity. Qed.

(** X13.  On a SWE and a height series with strictly increasing
    timestamps, the density series of [convert_swesh2density] has
    strictly increasing timestamps, each of them a timestamp of both
    series. *)
Theorem density_index (swe sh : fseries) :
  strictly_increasing (index swe) = true ->
  strictly_increasing (index sh) = true ->
  strictly_increasing (index (convert_swesh2density swe sh)) = true /\
  (forall t, In t (index (convert_swesh2density swe sh)) ->
             In t (index swe) /\ In t (index sh)).
Proof.
  intros _ _. split.
  - unfold convert_swesh2density.
    apply (subseries_increasing _ (index (fdropna
             (divide (map (fun e => (fst e, fmul_1000 (snd e))) swe) sh)))).
    + apply subseries_map, filter_subseries.
    + unfold divide.
      apply (aligned_index_increasing
               (fun t => fdiv (get (map (fun e => (fst e, fmul_1000 (snd e))) swe) t) (get sh t))).
      apply union_index_increasing.
  - intros t Hin. unfold index in Hin.
    apply in_map_iff in Hin as ([t' v] & E & Hin). cbn in E. subst t'.
    destruct (density_retained _ _ _ _ Hin) as (Hv & Hnan & _).
    split; apply get_present; intros E; apply Hnan; rewrite Hv, E;
      [reflexivity | now destruct (fmul_1000 (get swe t))].
Qed.

Lemma density_index_witness :
  strictly_increasing
    (index (convert_swesh2density [(0, Fin 300); (86400, Fin 310); (172800, Fin 10)]
                                  [(0, Fin 1000); (86400, Fin 1000); (172800, Fin 1000)]))
    = true /\
  (forall t,
     In t (index (convert_swesh2density [(0, Fin 300); (86400, Fin 310); (172800, Fin 10)]
                                        [(0, Fin 1000); (86400, Fin 1000); (172800, Fin 1000)])) ->
     In t (index [(0, Fin 300); (86400, Fin 310); (172800, Fin 10)]) /\
     In t (index [(0, Fin 1000); (86400, Fin 1000); (172800, Fin 1000)])).
Proof.
  apply (density_index [(0, Fin 300); (86400, Fin 310); (172800, Fin 10)]
                       [(0, Fin 1000); (86400, Fin 1000); (172800, Fin 1000)]).
  - reflexivity.
  - reflexivity.
Defined.

(** ** Data frames and the density of new snow *)

Lemma labels_increasing (l : list label) :
  strictly_increasing (fold_right insert_label [] l) = true.
Proof.
  induction l as [|x l IH]; [reflexivity|].
  cbn [fold_right]. now apply insert_label_increasing.
Qed.

Lemma labels_In (l : list label) (t : label) :
  In t (fold_right insert_label [] l) <-> In t l.
Proof.
  induction l as [|x l IH]; cbn [fold_right]; [reflexivity|].
  rewrite insert_label_In, IH. cbn [In]. split; intros [H | H]; auto.
Qed.

Lemma union_all_In (cols : list fseries) (t : label) :
  In t (union_all cols) <-> exists c, In c cols /\ In t (index c).
Proof.
  unfold union_all. rewrite labels_In, in_concat. split.
  - intros (l & Hl & Ht). apply in_map_iff in Hl as (c & <- & Hc). now exists c.
  - intros (c & Hc & Ht). exists (index c). split; [now apply in_map|exact Ht].
Qed.

Lemma no_nan_Forall (row : list fnum) :
  forallb (fun x => negb (is_nan x)) row = true <-> Forall (fun v => v <> NaN) row.
Proof.
  rewrite forallb_forall, Forall_forall. split; intros H x Hx; specialize (H x Hx).
  - intros ->. discriminate H.
  - destruct x; try reflexivity. now contradiction H.
Qed.

(** The rows of a frame built from at least one series. *)
Lemma frame_rows (x : fseries) (cols : list fseries) (t : label) (row : list fnum) :
  In (t, row) (dropna_rows (concat_columns (x :: cols))) <->
  row = map (fun c => get c t) (x :: cols) /\ Forall (fun v => v <> NaN) row.
Proof.
  unfold dropna_rows, concat_columns. rewrite filter_In, in_map_iff. cbn [snd]. split.
  - intros [(t' & E & _) Hrow]. injection E as -> <-.
    split; [reflexivity|]. now apply no_nan_Forall.
  - intros [-> Hrow]. split; [|now apply no_nan_Forall].
    exists t. split; [reflexivity|].
    apply union_all_In. exists x. split; [now left|].
    apply get_present. now inversion Hrow.
Qed.

(** X14.  On series with strictly increasing timestamps,
    [create_new_df] returns when the optional series are handed over
    without a gap ([y_data3] only with [y_data2], [y_data4] only with
    [y_data3]) and raises [ValueError] otherwise.  When it returns, the
    frame holds a row for a timestamp exactly when every series has a
    value there, the row holds these values in the order of the
    parameters, and the second frame is the first one indexed by the
    values of [x_data]. *)
Theorem create_new_df_rows (x_data y_data : fseries) (y_data2 y_data3 y_data4 : option fseries) :
  Forall (fun c => strictly_increasing (index c) = true)
         (x_data :: y_data :: given [y_data2; y_data3; y_data4]) ->
  match create_new_df x_data y_data y_data2 y_data3 y_data4 with
  | Ret (dataframe, df_x_index) =>
      in_order y_data2 y_data3 y_data4 = true /\
      df_x_index = set_index dataframe /\
      forall t row,
        In (t, row) dataframe <->
        row = map (fun c => get c t) (x_data :: y_data :: given [y_data2; y_data3; y_data4]) /\
        Forall (fun v => v <> NaN) row
  | Raise e =>
      in_order y_data2 y_data3 y_data4 = false /\
      e = LibraryError "ValueError: Length mismatch"
  | OutOfFuel => False
  end.
Proof.
  intros _.
  destruct y_data2 as [y2|], y_data3 as [y3|], y_data4 as [y4|];
    cbv [create_new_df given flat_map app length Nat.eqb in_order];
    try (split; reflexivity);
    (split; [reflexivity|]); (split; [reflexivity|]);
    intros t row; apply frame_rows.
Qed.

Lemma create_new_df_rows_witness :
  match create_new_df [(0, Fin 1); (86400, Fin 2); (172800, NaN)]
                      [(86400, Fin 20); (172800, Fin 30); (259200, Fin 40)]
                      None None None with
  | Ret (dataframe, df_x_index) =>
      in_order None None None = true /\
      df_x_index = set_index dataframe /\
      forall t row,
        In (t, row) dataframe <->
        row = map (fun c => get c t)
                  ([(0, Fin 1); (86400, Fin 2); (172800, NaN)] ::
                   [(86400, Fin 20); (172800, Fin 30); (259200, Fin 40)] ::
                   given [None; None; None]) /\
        Forall (fun v => v <> NaN) row
  | Raise e =>
      in_order None None None = false /\
      e = LibraryError "ValueError: Length mismatch"
  | OutOfFuel => False
  end.
Proof.
  apply (create_new_df_rows [(0, Fin 1); (86400, Fin 2); (172800, NaN)]
                            [(86400, Fin 20); (172800, Fin 30); (259200, Fin 40)]
                            None None None).
  repeat constructor.
Defined.

Example create_new_df_run :
  create_new_df [(0, Fin 1); (86400, Fin 2); (172800, NaN)]
                [(86400, Fin 20); (172800, Fin 30); (259200, Fin 40)] None None None =
    Ret ([(86400, [Fin 2; Fin 20])], [(Fin 2, [Fin 20])]) /\
  create_new_df [(0, Fin 1)] [(0, Fin 2)] None (Some [(0, Fin 3)]) None =
    Raise (LibraryError "ValueError: Length mismatch").
Proof. split; reflexivity. Qed.

(** Series computed position by position. *)
Lemma combine_map_same (A B C : Type) (f : A -> B) (g : A -> C) (l : list A) :
  combine (map f l) (map g l) = map (fun x => (f x, g x)) l.
Proof. induction l as [|a l IH]; [reflexivity|]. cbn. now rewrite IH. Qed.

Lemma index_by_position (V : Type) (L : list label) (F : nat -> V) :
  index (map (fun i => (nth i L 0, F i)) (seq 0 (length L))) = L.
Proof.
  unfold index. rewrite map_map. cbn [fst].
  revert F. induction L as [|a L IH]; intros F; [reflexivity|].
  cbn [length seq map nth]. f_equal.
  rewrite <- seq_shift, map_map. cbn [nth]. exact (IH F).
Qed.

Lemma get_by_position (L : list label) (F : nat -> fnum) (i : nat) :
  strictly_increasing L = true -> (i < length L)%nat ->
  get (map (fun i => (nth i L 0, F i)) (seq 0 (length L))) (nth i L 0) = F i.
Proof.
  revert F i. induction L as [|a L IH]; intros F i Hs Hi; [cbn in Hi; lia|].
  cbn [length seq map]. rewrite <- seq_shift, map_map.
  cbn [get nth]. destruct i as [|i].
  - now rewrite Z.eqb_refl.
  - destruct (strictly_increasing_cons _ _ Hs) as [HL Hall].
    cbn [length] in Hi.
    assert (Hin : In (nth i L 0) L) by (apply nth_In; lia).
    rewrite Forall_forall in Hall. specialize (Hall _ Hin).
    destruct (Z.eqb_spec a (nth i L 0)); [lia|].
    apply (IH (fun i => F (S i))); [exact HL | lia].
Qed.

Lemma In_position (L : list label) (t : label) :
  In t L -> exists i, (i < length L)%nat /\ nth i L 0 = t.
Proof. intros H. destruct (In_nth _ _ 0 H) as (i & Hi & E). now exists i. Qed.

Lemma gain_series (s : fseries) (interval : Z) :
  sub_same (shift s (- Z.quot interval 2)) (shift s (Z.quot interval 2)) =
  map (fun i => (nth i (index s) 0, gain s interval i)) (seq 0 (length s)).
Proof.
  unfold sub_same, shift. rewrite combine_map_same, map_map.
  apply map_ext. intros i. cbn [fst snd]. unfold gain. do 3 f_equal. lia.
Qed.

Lemma gain_above_series (s : fseries) (interval : Z) (min_acc : Q) :
  mask_below (sub_same (shift s (- Z.quot interval 2)) (shift s (Z.quot interval 2))) min_acc =
  map (fun i => (nth i (index s) 0, gain_above s interval min_acc i)) (seq 0 (length s)).
Proof.
  rewrite gain_series. unfold mask_below. rewrite map_map.
  apply map_ext. intros i. cbn [fst snd]. unfold gain_above.
  now destruct (flt (gain s interval i) min_acc).
Qed.

Lemma length_index (V : Type) (s : list (label * V)) : length (index s) = length s.
Proof. apply length_map. Qed.

Lemma get_gain (s : fseries) (interval : Z) (F : nat -> fnum) (t : label) :
  strictly_increasing (index s) = true ->
  get (map (fun i => (nth i (index s) 0, F i)) (seq 0 (length s))) t <> NaN ->
  exists i, (i < length s)%nat /\ nth i (index s) 0 = t /\
            get (map (fun i => (nth i (index s) 0, F i)) (seq 0 (length s))) t = F i.
Proof.
  intros Hs Hget. apply get_present in Hget.
  rewrite <- (length_index _ s) in *. rewrite index_by_position in Hget.
  destruct (In_position _ _ Hget) as (i & Hi & <-).
  exists i. repeat split; [exact Hi|]. now apply get_by_position.
Qed.

Lemma fdiv_finite (m h : Q) :
  ~ (h == 0)%Q -> fdiv (Fin m) (Fin h) = Fin (m / h).
Proof.
  intros Hh. cbn [fdiv]. unfold Qis_zero.
  destruct (Qeq_bool h 0) eqn:E; [|reflexivity].
  apply Qeq_bool_iff in E. contradiction.
Qed.

(** X15.  [calc_new_snow_density] on two series with strictly increasing
    timestamps returns, and its frame holds a row [h, swe, density] at a
    timestamp exactly when: the timestamp is in both series; [h] is the
    height [int(interval/2)] positions later minus the height as many
    positions earlier, is not missing and is not below [min_acc]; [swe]
    is the same difference of the SWE series and is not missing; and
    [density = swe / h] is not missing.  With a positive [min_acc] and
    finite gains the density is the finite quotient: no division by zero
    reaches the result. *)
Theorem new_snow_density_rows
  (snow_height swe : fseries) (interval : Z) (min_acc : Q)
  (Hheight : strictly_increasing (index snow_height) = true)
  (Hswe : strictly_increasing (index swe) = true) :
  exists new_snow_datetimeindex,
    calc_new_snow_density snow_height swe interval min_acc =
      Ret (new_snow_datetimeindex, set_index new_snow_datetimeindex) /\
    (forall t row,
       In (t, row) new_snow_datetimeindex <->
       exists i j,
         (i < length snow_height)%nat /\ nth i (index snow_height) 0 = t /\
         (j < length swe)%nat /\ nth j (index swe) 0 = t /\
         let h := gain snow_height interval i in
         let m := gain swe interval j in
         row = [h; m; fdiv m h] /\
         h <> NaN /\ flt h min_acc = false /\ m <> NaN /\ fdiv m h <> NaN) /\
    (forall t h m d hq mq,
       In (t, [h; m; d]) new_snow_datetimeindex ->
       (0 < min_acc)%Q -> h = Fin hq -> m = Fin mq ->
       (min_acc <= hq)%Q /\ d = Fin (mq / hq)).
Proof.
  unfold calc_new_snow_density.
  rewrite gain_above_series, gain_series.
  set (h_new := map (fun i => (nth i (index snow_height) 0,
                               gain_above snow_height interval min_acc i))
                    (seq 0 (length snow_height))).
  set (m_new := map (fun i => (nth i (index swe) 0, gain swe interval i))
                    (seq 0 (length swe))).
  cbv [create_new_df given flat_map app length Nat.eqb].
  eexists. split; [reflexivity|].
  assert (Hd : forall t, get (divide m_new h_new) t = fdiv (get m_new t) (get h_new t)).
  { intros t. unfold divide.
    destruct (in_dec Z.eq_dec t (union_index m_new h_new)) as [Hin | Hn].
    - clear - Hin. induction (union_index m_new h_new) as [|a L IH]; [destruct Hin|].
      cbn [map get]. destruct (Z.eqb_spec a t) as [-> | Hne]; [reflexivity|].
      destruct Hin as [-> | Hin]; [contradiction|]. now apply IH.
    - rewrite get_absent.
      + rewrite union_index_In in Hn.
        rewrite (get_absent h_new) by tauto.
        destruct (get m_new t); reflexivity.
      + unfold index. rewrite map_map. cbn [fst]. now rewrite map_id. }
  assert (Hrows : forall t row,
    In (t, row) (dropna_rows (concat_columns [h_new; m_new; divide m_new h_new])) <->
    exists i j,
      (i < length snow_height)%nat /\ nth i (index snow_height) 0 = t /\
      (j < length swe)%nat /\ nth j (index swe) 0 = t /\
      row = [gain snow_height interval i; gain swe interval j;
             fdiv (gain swe interval j) (gain snow_height interval i)] /\
      gain snow_height interval i <> NaN /\
      flt (gain snow_height interval i) min_acc = false /\
      gain swe interval j <> NaN /\
      fdiv (gain swe interval j) (gain snow_height interval i) <> NaN).
  { intros t row. rewrite frame_rows. cbn [map]. rewrite Hd. split.
    - intros [-> Hall].
      inversion Hall as [|? ? Hh Hall1]; subst.
      inversion Hall1 as [|? ? Hm Hall2]; subst.
      inversion Hall2 as [|? ? Hq _]; subst.
      destruct (get_gain snow_height interval _ t Hheight Hh) as (i & Hi & Ei & Gi).
      destruct (get_gain swe interval _ t Hswe Hm) as (j & Hj & Ej & Gj).
      fold h_new in Gi. fold m_new in Gj.
      exists i, j.
      assert (Hga : gain_above snow_height interval min_acc i = gain snow_height interval i
                    /\ flt (gain snow_height interval i) min_acc = false).
      { rewrite Gi in Hh. unfold gain_above in *.
        destruct (flt (gain snow_height interval i) min_acc); [now contradiction Hh|now split]. }
      destruct Hga as [Hga Hflt].
      rewrite Gi, Gj, Hga in *. now repeat split.
    - intros (i & j & Hi & Ei & Hj & Ej & -> & Hh & Hflt & Hm & Hq).
      assert (Gi : get h_new t = gain snow_height interval i).
      { subst t. unfold h_new. rewrite <- (length_index _ snow_height) in *.
        rewrite get_by_position by assumption.
        unfold gain_above. now rewrite Hflt. }
      assert (Gj : get m_new t = gain swe interval j).
      { rewrite <- Ej. unfold m_new. rewrite <- (length_index _ swe) in *.
        now rewrite get_by_position. }
      rewrite Gi, Gj. split; [reflexivity|].
      repeat constructor; assumption. }
  split; [exact Hrows|].
  intros t h m d hq mq Hin Hpos -> ->.
  apply Hrows in Hin as (i & j & _ & _ & _ & _ & E & _ & Hflt & _).
  injection E as Eh Em ->. rewrite <- Eh in Hflt. rewrite <- Eh, <- Em.
  cbn [flt] in Hflt. apply Qlt_bool_false in Hflt.
  split; [exact Hflt|].
  apply fdiv_finite. intros E0. rewrite E0 in Hflt.
  apply (Qlt_irrefl 0). now apply Qlt_le_trans with min_acc.
Qed.

Lemma new_snow_density_rows_witness :
  exists new_snow_datetimeindex,
    calc_new_snow_density
      [(0, Fin 1); (86400, Fin 1); (172800, Fin (3 # 2)); (259200, Fin 2)]
      [(0, Fin 400); (86400, Fin 400); (172800, Fin 550); (259200, Fin 700)]
      2 (3 # 100) =
      Ret (new_snow_datetimeindex, set_index new_snow_datetimeindex).
Proof.
  destruct (new_snow_density_rows
              [(0, Fin 1); (86400, Fin 1); (172800, Fin (3 # 2)); (259200, Fin 2)]
              [(0, Fin 400); (86400, Fin 400); (172800, Fin 550); (259200, Fin 700)]
              2 (3 # 100) eq_refl eq_refl) as (df & H & _).
  exists df. exact H.
Defined.

Example new_snow_density_run :
  calc_new_snow_density
    [(0, Fin 1); (86400, Fin 1); (172800, Fin (3 # 2)); (259200, Fin 2)]
    [(0, Fin 400); (86400, Fin 400); (172800, Fin 550); (259200, Fin 700)]
    2 (3 # 100) =
  Ret ([(86400, [Fin ((3 # 2) - 1); Fin (550 - 400); Fin ((550 - 400) / ((3 # 2) - 1))]);
        (172800, [Fin (2 - 1); Fin (700 - 400); Fin ((700 - 400) / (2 - 1))])],
       [(Fin ((3 # 2) - 1), [Fin (550 - 400); Fin ((550 - 400) / ((3 # 2) - 1))]);
        (Fin (2 - 1), [Fin (700 - 400); Fin ((700 - 400) / (2 - 1))])]).
Proof. reflexivity. Qed.

(** ** Error per density *)

Lemma func_err_prop2_nth (a b c m_err h_err density1 density2 density3 density4 : R) (i : nat) :
  (i < 1001)%nat ->
  nth i (func_err_prop2 a b c m_err h_err density1 density2 density3 density4)
        (DensityRow 0 0 0 0 0 0) =
  let h := (INR i / 100)%R in
  let m := func_exp h a b c in
  let rel := sqrt ((m_err / m) ^ 2 + (h_err / h) ^ 2) in
  DensityRow h rel (rel * density1) (rel * density2) (rel * density3) (rel * density4)%R.
Proof.
  intros Hi. unfold func_err_prop2.
  set (h := linspace 0 10 1001).
  set (m := map (fun x => func_exp x a b c) h).
  assert (Lh : length h = 1001%nat) by apply linspace_length.
  assert (Lm : length m = 1001%nat) by (unfold m; now rewrite length_map).
  assert (Nh : nth i h 0%R = (INR i / 100)%R) by now apply height_grid.
  assert (Nm : nth i m 0%R = func_exp (INR i / 100) a b c).
  { unfold m. rewrite (nth_map_in _ _ _ _ _ 0%R) by lia. now rewrite Nh. }
  set (rel := zip_with (fun mi hi => sqrt ((m_err / mi) ^ 2 + (h_err / hi) ^ 2)) m h).
  assert (Lr : length rel = 1001%nat)
    by (unfold rel; rewrite zip_with_length, Lh, Lm; apply Nat.min_id).
  assert (Nr : nth i rel 0%R =
               sqrt ((m_err / func_exp (INR i / 100) a b c) ^ 2 + (h_err / (INR i / 100)) ^ 2)).
  { unfold rel. rewrite (zip_with_nth _ _ _ _ _ _ i 0%R 0%R) by lia. now rewrite Nh, Nm. }
  assert (Na : forall d, nth i (map (fun r => (r * d)%R) rel) 0%R = (nth i rel 0 * d)%R).
  { intros d. now rewrite (nth_map_in _ _ _ _ _ 0%R) by lia. }
  rewrite (zip_with_nth _ _ _ _ _ _ i 0%R (0%R, ((0%R, 0%R), (0%R, 0%R))))
    by (rewrite ?length_combine, ?length_map, ?Lr, ?Lh, ?Nat.min_id; lia).
  rewrite !combine_nth by (rewrite ?length_combine, ?length_map, ?Lr, ?Nat.min_id; reflexivity).
  cbn [fst snd]. now rewrite !Na, Nr, Nh.
Qed.

Lemma sqrt_sum_squares_ge (x y : R) : (Rabs y <= sqrt (x ^ 2 + y ^ 2))%R.
Proof.
  rewrite <- sqrt_Rsqr_abs. apply sqrt_le_1_alt.
  rewrite Rsqr_pow2. pose proof (pow2_ge_0 x). lra.
Qed.

(** X16.  At every height h > 0 of the grid, [func_err_prop2] holds the
    relative error of [func_err_prop_single] for the same model and the
    same errors, and as absolute errors this relative error times each of
    the four densities.  The relative error is at least the relative
    error of the height alone, |h_err| / h, and at least the one of the
    mass alone, |m_err / mass(h)|. *)
Theorem density_error_rows
  (a b c m_err h_err density1 density2 density3 density4 : R) (i : nat) :
  (1 <= i <= 1000)%nat ->
  let single := nth i (func_err_prop_single a b c m_err h_err) (Row 0 0 0) in
  let row := nth i (func_err_prop2 a b c m_err h_err density1 density2 density3 density4)
                 (DensityRow 0 0 0 0 0 0) in
  let h := (INR i / 100)%R in
  dens_h row = h /\ row_h single = h /\
  dens_rel_err row = rel_err single /\
  abs_err1 row = (rel_err single * density1)%R /\
  abs_err2 row = (rel_err single * density2)%R /\
  abs_err3 row = (rel_err single * density3)%R /\
  abs_err4 row = (rel_err single * density4)%R /\
  (Rabs h_err / h <= dens_rel_err row)%R /\
  (Rabs (m_err / func_exp h a b c) <= dens_rel_err row)%R.
Proof.
  intros Hi single row h.
  assert (Hlt : (i < 1001)%nat) by lia.
  unfold single, row.
  rewrite func_err_prop2_nth, func_err_prop_single_nth by exact Hlt.
  cbn [dens_h row_h dens_rel_err rel_err abs_err1 abs_err2 abs_err3 abs_err4].
  fold h.
  assert (Hh : (0 < h)%R).
  { unfold h. apply Rdiv_lt_0_compat; [|lra]. apply lt_0_INR. lia. }
  repeat split.
  - replace (Rabs h_err / h)%R with (Rabs (h_err / h)).
    + apply sqrt_sum_squares_ge.
    + unfold Rdiv. rewrite Rabs_mult. f_equal.
      apply Rabs_pos_eq. left. now apply Rinv_0_lt_compat.
  - rewrite Rplus_comm. apply sqrt_sum_squares_ge.
Qed.

Lemma density_error_rows_witness :
  let single := nth 100 (func_err_prop_single 120 1 (-120) 10 (1 / 10)) (Row 0 0 0) in
  let row := nth 100 (func_err_prop2 120 1 (-120) 10 (1 / 10) 300 400 500 600)
                 (DensityRow 0 0 0 0 0 0) in
  let h := (INR 100 / 100)%R in
  dens_h row = h /\ row_h single = h /\
  dens_rel_err row = rel_err single /\
  abs_err1 row = (rel_err single * 300)%R /\
  abs_err2 row = (rel_err single * 400)%R /\
  abs_err3 row = (rel_err single * 500)%R /\
  abs_err4 row = (rel_err single * 600)%R /\
  (Rabs (1 / 10) / h <= dens_rel_err row)%R /\
  (Rabs (10 / func_exp h 120 1 (-120)) <= dens_rel_err row)%R.
Proof.
  apply (density_error_rows 120 1 (-120) 10 (1 / 10) 300 400 500 600 100).
  lia.
Defined.

(** ** Footprint *)

Lemma sin_over_index (s n : R) :
  (-1 <= s <= 1)%R -> (1 < n)%R -> (-1 <= s / n <= 1)%R.
Proof.
  intros Hs Hn.
  assert (Hi : (0 < / n < 1)%R).
  { split; [apply Rinv_0_lt_compat; lra|].
    rewrite <- Rinv_1. apply Rinv_lt_contravar; lra. }
  unfold Rdiv. split; nra.
Qed.

(** Snell's law in closed form. *)
Lemma func_footprint_closed (h n a : R) :
  (1 < n)%R ->
  func_footprint h n a =
  (h * sin (radians a) / sqrt (n ^ 2 - sin (radians a) ^ 2))%R.
Proof.
  intros Hn. unfold func_footprint.
  set (s := sin (radians a)).
  assert (Hs : (-1 <= s <= 1)%R) by apply SIN_bound.
  rewrite tan_asin by now apply sin_over_index.
  assert (Hpos : (0 < n ^ 2 - s ^ 2)%R) by nra.
  assert (Hsq : (0 < sqrt (n ^ 2 - s ^ 2))%R) by now apply sqrt_lt_R0.
  replace (1 - (s / n)²)%R with ((n ^ 2 - s ^ 2) / n ^ 2)%R
    by (unfold Rsqr; field; lra).
  rewrite sqrt_div_alt by nra.
  replace (sqrt (n ^ 2)) with n.
  - field. split; lra.
  - replace (n ^ 2)%R with (n²)%R by (unfold Rsqr; ring).
    rewrite sqrt_Rsqr; lra.
Qed.

Lemma sin_radians_nonneg (a : R) : (0 <= a <= 180)%R -> (0 <= sin (radians a))%R.
Proof.
  intros Ha. pose proof PI_RGT_0 as Hpi. apply sin_ge_0; unfold radians; nra.
Qed.

Lemma func_footprint_order (h n1 n2 a : R) :
  (0 <= h)%R -> (0 <= a <= 180)%R -> (1 < n1 <= n2)%R ->
  (0 <= func_footprint h n2 a <= func_footprint h n1 a)%R.
Proof.
  intros Hh Ha Hn.
  rewrite !func_footprint_closed by lra.
  pose proof (sin_radians_nonneg a Ha) as Hs0.
  pose proof (SIN_bound (radians a)) as Hs1.
  set (s := sin (radians a)) in *.
  assert (H1 : (0 < n1 ^ 2 - s ^ 2)%R) by nra.
  assert (H2 : (n1 ^ 2 - s ^ 2 <= n2 ^ 2 - s ^ 2)%R) by nra.
  assert (Q1 : (0 < sqrt (n1 ^ 2 - s ^ 2))%R) by now apply sqrt_lt_R0.
  assert (Q12 : (sqrt (n1 ^ 2 - s ^ 2) <= sqrt (n2 ^ 2 - s ^ 2))%R) by now apply sqrt_le_1_alt.
  assert (Hhs : (0 <= h * s)%R) by now apply Rmult_le_pos.
  assert (I2 : (0 < / sqrt (n2 ^ 2 - s ^ 2))%R) by (apply Rinv_0_lt_compat; lra).
  assert (I12 : (/ sqrt (n2 ^ 2 - s ^ 2) <= / sqrt (n1 ^ 2 - s ^ 2))%R)
    by (apply Rinv_le_contravar; lra).
  unfold Rdiv. split.
  - apply Rmult_le_pos; lra.
  - now apply Rmult_le_compat_l.
Qed.

Lemma footprint_grid (i : nat) (d : R) :
  (i < 201)%nat -> nth i (linspace 0 2 201) d = (INR i / 100)%R.
Proof.
  intros Hi. rewrite linspace_nth by exact Hi.
  replace (201 - 1)%nat with 200%nat by reflexivity.
  rewrite (INR_IZR_INZ 200).
  change (Z.of_nat 200) with 200%Z.
  field.
Qed.

Lemma calc_footprint_nth (incident_angle : R) (i : nat) :
  (i < 201)%nat ->
  nth i (calc_footprint incident_angle) (FootprintRow 0 0 0 0 0) =
  let h := (INR i / 100)%R in
  FootprintRow (h * 100)
    (func_footprint h (132 / 100) incident_angle * 100)
    (func_footprint h (148 / 100) incident_angle * 100)
    (func_footprint h (181 / 100) incident_angle * 100)
    (func_footprint h (23 / 10) incident_angle * 100)%R.
Proof.
  intros Hi. unfold calc_footprint.
  set (sh := linspace 0 2 201).
  assert (Lh : length sh = 201%nat) by apply linspace_length.
  assert (Nh : nth i sh 0%R = (INR i / 100)%R) by now apply footprint_grid.
  assert (Nf : forall n, nth i (map (fun x => (x * 100)%R)
                                    (map (fun h => func_footprint h n incident_angle) sh)) 0%R
                         = (func_footprint (INR i / 100) n incident_angle * 100)%R).
  { intros n. rewrite (nth_map_in _ _ _ _ _ 0%R) by (rewrite length_map; lia).
    rewrite (nth_map_in _ _ _ _ _ 0%R) by lia. now rewrite Nh. }
  rewrite (zip_with_nth _ _ _ _ _ _ i 0%R ((0%R, 0%R), (0%R, 0%R)))
    by (rewrite ?length_combine, ?length_map, ?Lh, ?Nat.min_id; lia).
  rewrite !combine_nth by (rewrite ?length_combine, ?length_map, ?Lh, ?Nat.min_id; reflexivity).
  cbn [fst snd]. rewrite !Nf.
  rewrite (nth_map_in _ _ _ _ _ 0%R) by lia. now rewrite Nh.
Qed.

(** X17.  For an angle of incidence between 0 and 180 degrees, row k of
    [calc_footprint] (k = 0, ..., 200) holds the height k cm and four
    radii in centimetres, each the closed form of Snell's law
    h sin(a) / sqrt(n^2 - sin(a)^2) for its refractive index n; the radii are
    not negative and do not grow with the wetness of the snow:
    very wet <= wet <= moist <= dry. *)
Theorem footprint_rows (incident_angle : R) (k : nat) :
  (0 <= incident_angle <= 180)%R -> (k <= 200)%nat ->
  let row := nth k (calc_footprint incident_angle) (FootprintRow 0 0 0 0 0) in
  let s := sin (radians incident_angle) in
  let radius := fun n => (INR k * s / sqrt (n ^ 2 - s ^ 2))%R in
  fp_h row = INR k /\
  r_ds row = radius (132 / 100)%R /\
  r_ms row = radius (148 / 100)%R /\
  r_ws row = radius (181 / 100)%R /\
  r_vws row = radius (23 / 10)%R /\
  (0 <= r_vws row <= r_ws row)%R /\
  (r_ws row <= r_ms row <= r_ds row)%R.
Proof.
  intros Ha Hk row s radius.
  assert (Hlt : (k < 201)%nat) by lia.
  unfold row. rewrite calc_footprint_nth by exact Hlt.
  cbn [fp_h r_ds r_ms r_ws r_vws].
  assert (Hh : (0 <= INR k / 100)%R).
  { apply Rmult_le_pos; [apply pos_INR | lra]. }
  assert (Hr : forall n, (1 < n)%R ->
             (func_footprint (INR k / 100) n incident_angle * 100)%R = radius n).
  { intros n Hn. rewrite func_footprint_closed by exact Hn.
    unfold radius. fold s.
    pose proof (SIN_bound (radians incident_angle)) as Hs. fold s in Hs.
    assert (Hpos : (0 < n ^ 2 - s ^ 2)%R) by nra.
    assert (Hsq : (0 < sqrt (n ^ 2 - s ^ 2))%R) by now apply sqrt_lt_R0.
    field. lra. }
  pose proof (func_footprint_order (INR k / 100) (181 / 100) (23 / 10) incident_angle
                Hh Ha ltac:(lra)) as O1.
  pose proof (func_footprint_order (INR k / 100) (148 / 100) (181 / 100) incident_angle
                Hh Ha ltac:(lra)) as O2.
  pose proof (func_footprint_order (INR k / 100) (132 / 100) (148 / 100) incident_angle
                Hh Ha ltac:(lra)) as O3.
  split; [field|].
  split; [apply Hr; lra|].
  split; [apply Hr; lra|].
  split; [apply Hr; lra|].
  split; [apply Hr; lra|].
  split; lra.
Qed.

Lemma footprint_rows_witness :
  let row := nth 100 (calc_footprint 90) (FootprintRow 0 0 0 0 0) in
  let s := sin (radians 90) in
  let radius := fun n => (INR 100 * s / sqrt (n ^ 2 - s ^ 2))%R in
  fp_h row = INR 100 /\
  r_ds row = radius (132 / 100)%R /\
  r_ms row = radius (148 / 100)%R /\
  r_ws row = radius (181 / 100)%R /\
  r_vws row = radius (23 / 10)%R /\
  (0 <= r_vws row <= r_ws row)%R /\
  (r_ws row <= r_ms row <= r_ds row)%R.
Proof.
  apply (footprint_rows 90 100); [lra | lia].
Defined.

(** ** The jump correction lowers the series by a step function *)

Lemma stepped_weaken (c : Z) (k k0 : nat) (u w : series) :
  stepped c k u w -> (k0 <= k)%nat -> stepped c k0 u w.
Proof.
  intros H Hk. destruct H as [k | k k' t v u w Hle H]; constructor; [lia | exact H].
Qed.

Lemma stepped_refl (c : Z) (u : series) : stepped c 0 u u.
Proof.
  induction u as [|[t v] u IH]; [constructor|].
  replace (t, v) with (t, v - Z.of_nat 0 * c) at 2 by (f_equal; lia).
  now constructor.
Qed.

Lemma stepped_index (c : Z) (k : nat) (u w : series) :
  stepped c k u w -> index w = index u.
Proof.
  induction 1 as [k | k k' t v u w Hle H IH]; [reflexivity|].
  cbn [index map fst]. fold (index w) (index u). now rewrite IH.
Qed.

Lemma stepped_sub_scalar (c : Z) (k : nat) (u w : series) :
  stepped c k u w -> stepped c (S k) u (sub_scalar w c).
Proof.
  induction 1 as [k | k k' t v u w Hle H IH]; [constructor|].
  cbn [sub_scalar map fst snd]. fold (sub_scalar w c).
  replace (v - Z.of_nat k' * c - c) with (v - Z.of_nat (S k') * c) by lia.
  constructor; [lia|].
  apply (stepped_weaken c (S k')); [exact IH | lia].
Qed.

Lemma stepped_sub_tail (c : Z) (k : nat) (u pre post : series) :
  stepped c k u (pre ++ post) -> stepped c k u (pre ++ sub_scalar post c).
Proof.
  revert k u. induction pre as [|e pre IH]; intros k u H; cbn [app] in *.
  - apply (stepped_weaken c (S k)); [now apply stepped_sub_scalar | lia].
  - inversion H as [|k1 k' t v u' w' Hle H' E1 E2]; subst.
    constructor; [exact Hle|]. now apply IH.
Qed.

Lemma stepped_In (c : Z) (k : nat) (u w : series) (t : label) (x : Z) :
  stepped c k u w -> In (t, x) w ->
  exists v k', In (t, v) u /\ x = v - Z.of_nat k' * c.
Proof.
  induction 1 as [k | k k' t' v u w Hle H IH]; intros Hin; [destruct Hin|].
  destruct Hin as [E | Hin].
  - injection E as -> <-. exists v, k'. split; [now left | reflexivity].
  - destruct (IH Hin) as (v0 & k0 & Hv & E). exists v0, k0. split; [now right | exact E].
Qed.


Section Steps.

Variable beyond : Z -> bool.

Lemma while_jump_stepped (fuel : nat) (jump_val : Z) (t0 : label) (v0 : Z) (u r w : series) :
  strictly_increasing (index ((t0, v0) :: u)) = true ->
  stepped jump_val 0 u r ->
  while_jump beyond fuel jump_val ((t0, v0) :: r) = Ret w ->
  exists r', w = (t0, v0) :: r' /\ stepped jump_val 0 u r'.
Proof.
  revert r. induction fuel as [|fuel IH]; intros r Hinc Hst; cbn [while_jump].
  - destruct (jump_index beyond ((t0, v0) :: r)); [|discriminate].
    intros [= <-]. now exists r.
  - destruct (jump_index beyond ((t0, v0) :: r)) as [|t rest] eqn:E.
    + intros [= <-]. now exists r.
    + assert (Hinc' : strictly_increasing (index ((t0, v0) :: r)) = true).
      { cbn [index map fst] in Hinc |- *. fold (index r). fold (index u) in Hinc.
        now rewrite (stepped_index _ _ _ _ Hst). }
      rewrite jump_index_cons in E.
      destruct (jumps_from_first _ _ _ _ _ E) as (pre & v & post & -> & _ & _).
      change ((t0, v0) :: pre ++ (t, v) :: post)
        with (((t0, v0) :: pre) ++ (t, v) :: post) in Hinc' |- *.
      unfold adjust. rewrite (from_cut _ _ _ _ Hinc'), (before_cut _ _ _ _ Hinc').
      cbn [app]. apply IH; [exact Hinc|].
      now apply stepped_sub_tail.
Qed.

Lemma correct_jumps_stepped (fuel : nat) (u w : series) :
  strictly_increasing (index u) = true ->
  correct_jumps beyond fuel u = Ret w ->
  exists jump_val e u' w',
    beyond jump_val = true /\ u = e :: u' /\ w = e :: w' /\ stepped jump_val 0 u' w'.
Proof.
  intros Hinc. unfold correct_jumps.
  destruct (jump_index beyond u) as [|t rest] eqn:E; [discriminate|].
  cbn [first_label bind].
  destruct u as [|[t0 v0] u]; [discriminate|].
  rewrite jump_index_cons in E.
  destruct (jumps_from_first _ _ _ _ _ E) as (pre & v & post & -> & _ & Hb).
  change ((t0, v0) :: pre ++ (t, v) :: post)
    with (((t0, v0) :: pre) ++ (t, v) :: post) in Hinc |- *.
  rewrite (loc_cut _ _ _ _ Hinc), (upto_cut _ _ _ _ Hinc). cbn [bind].
  replace (iloc_neg2 (((t0, v0) :: pre) ++ [(t, v)]))
    with (@Ret Z (last (values pre) v0)).
  - cbn [bind app]. intros H.
    destruct (while_jump_stepped fuel _ t0 v0 (pre ++ (t, v) :: post) _ w Hinc
                (stepped_refl _ _) H) as (r' & -> & Hst).
    exists (v - last (values pre) v0), (t0, v0), (pre ++ (t, v) :: post), r'.
    now repeat split.
  - clear. revert t0 v0. induction pre as [|[t1 v1] pre IH] using rev_ind; intros t0 v0.
    + reflexivity.
    + replace (((t0, v0) :: pre ++ [(t1, v1)]) ++ [(t, v)])
        with (((t0, v0) :: pre) ++ [(t1, v1); (t, v)])
        by (cbn [app]; now rewrite <- app_assoc).
      rewrite iloc_neg2_snoc2. unfold values. rewrite map_app. cbn [map snd].
      now rewrite last_last.
Qed.



Hypothesis beyond_zero : beyond 0 = false.


End Steps.



(** ** [sort_index] *)

Section SortIndex.

Variable V : Type.

Lemma insert_row_In (e x : label * V) (l : list (label * V)) :
  In x (insert_row e l) <-> x = e \/ In x l.
Proof.
  induction l as [|e' l IH]; cbn [insert_row].
  - cbn [In]. split; [intros [<- | []]; now left | intros [-> | []]; now left].
  - destruct (fst e <=? fst e'); cbn [In].
    + split; [intros [<- | H]; auto | intros [-> | H]; auto].
    + rewrite IH. split; [intros [<- | [-> | H]]; auto | intros [-> | [<- | H]]; auto].
Qed.

Lemma sort_index_In (x : label * V) (l : list (label * V)) :
  In x (sort_index l) <-> In x l.
Proof.
  induction l as [|e l IH]; [reflexivity|].
  cbn [sort_index fold_right]. fold (sort_index l).
  rewrite insert_row_In, IH. cbn [In]. split; intros [H | H]; auto.
Qed.

Lemma insert_row_increasing (e : label * V) (l : list (label * V)) :
  strictly_increasing (index l) = true -> ~ In (fst e) (index l) ->
  strictly_increasing (index (insert_row e l)) = true.
Proof.
  induction l as [|e' l IH]; intros Hs Hn; [reflexivity|].
  cbn [insert_row].
  destruct (Z.leb_spec (fst e) (fst e')) as [Hle | Hgt].
  - cbn [index map].
    change (strictly_increasing (fst e :: fst e' :: map fst l))
      with ((fst e <? fst e') && strictly_increasing (fst e' :: map fst l)).
    apply andb_true_intro. split; [|exact Hs].
    apply Z.ltb_lt. cbn [index map In] in Hn.
    assert (fst e' <> fst e) by (intros E; apply Hn; now left). lia.
  - cbn [index map] in Hs |- *. fold (index l) in Hs. fold (index (insert_row e l)).
    destruct (strictly_increasing_cons _ _ Hs) as [Hl Hall].
    assert (IH' : strictly_increasing (index (insert_row e l)) = true).
    { apply IH; [exact Hl|]. intros Hin. apply Hn. cbn [index map In]. now right. }
    destruct (index (insert_row e l)) as [|y r] eqn:E; [reflexivity|].
    change (strictly_increasing (fst e' :: y :: r))
      with ((fst e' <? y) && strictly_increasing (y :: r)).
    rewrite IH', andb_true_r. apply Z.ltb_lt.
    assert (Hy : In y (index (insert_row e l))) by (rewrite E; now left).
    unfold index in Hy. apply in_map_iff in Hy as (x & <- & Hx).
    apply insert_row_In in Hx as [-> | Hx]; [lia|].
    rewrite Forall_forall in Hall. apply Hall. now apply in_map.
Qed.

Lemma sort_index_increasing (l : list (label * V)) :
  NoDup (index l) -> strictly_increasing (index (sort_index l)) = true.
Proof.
  induction l as [|e l IH]; intros Hnd; [reflexivity|].
  cbn [index map] in Hnd. fold (index l) in Hnd.
  inversion Hnd as [|? ? Hn Hnd']; subst.
  cbn [sort_index fold_right]. fold (sort_index l).
  apply insert_row_increasing; [now apply IH|].
  intros Hin. apply Hn. unfold index in *.
  apply in_map_iff in Hin as (x & Ex & Hx). apply (proj1 (sort_index_In _ _)) in Hx.
  rewrite <- Ex. apply (in_map fst). exact Hx.
Qed.

Lemma NoDup_index_filter (f : label * V -> bool) (l : list (label * V)) :
  NoDup (index l) -> NoDup (index (filter f l)).
Proof.
  induction l as [|e l IH]; intros Hnd; [constructor|].
  cbn [index map] in Hnd. fold (index l) in Hnd.
  inversion Hnd as [|? ? Hn Hnd']; subst.
  cbn [filter]. destruct (f e); [|now apply IH].
  cbn [index map]. fold (index (filter f l)). constructor; [|now apply IH].
  intros Hin. apply Hn. unfold index in *.
  apply in_map_iff in Hin as (x & Ex & Hx). apply filter_In in Hx as [Hx _].
  rewrite <- Ex. now apply in_map.
Qed.

Lemma index_map_value (W : Type) (g : V -> W) (l : list (label * V)) :
  index (map (fun e => (fst e, g (snd e))) l) = index l.
Proof. unfold index. rewrite map_map. reflexivity. Qed.

End SortIndex.

Lemma strictly_increasing_shift (c : Z) (l : list label) :
  strictly_increasing (map (fun t => t + c) l) = strictly_increasing l.
Proof.
  induction l as [|a [|b l] IH]; try reflexivity.
  change (strictly_increasing (map (fun t => t + c) (a :: b :: l)))
    with ((a + c <? b + c) && strictly_increasing (map (fun t => t + c) (b :: l))).
  change (strictly_increasing (a :: b :: l)) with ((a <? b) && strictly_increasing (b :: l)).
  rewrite IH. f_equal.
  destruct (Z.ltb_spec (a + c) (b + c)), (Z.ltb_spec a b); try reflexivity; lia.
Qed.

Lemma date_of_min_spec (s : series) :
  (forall t, In t (date_of_min s) ->
     exists v, In (t, v) s /\ forall e, In e s -> v <= snd e) /\
  (s <> [] -> date_of_min s <> []).
Proof.
  unfold date_of_min, series_min, values.
  destruct s as [|[t0 v0] s]; [split; [intros t [] | intros H; now contradiction H]|].
  cbn [map snd].
  destruct (fold_min_le v0 (map snd s)) as [H0 Hall].
  set (m := fold_right Z.min v0 (map snd s)) in *.
  split.
  - intros t Hin. unfold index in Hin.
    apply in_map_iff in Hin as ([t' v] & Et & Hin). cbn in Et. subst t'.
    apply filter_In in Hin as [Hin Hv]. cbn in Hv. apply Z.eqb_eq in Hv. subst v.
    exists m. split; [exact Hin|].
    intros e [<- | He]; [exact H0 | apply Hall; now apply in_map].
  - intros _ E.
    assert (Hm : exists e, In e ((t0, v0) :: s) /\ snd e = m).
    { destruct (fold_min_in v0 (map snd s)) as [Em | Hm].
      - exists (t0, v0). split; [now left | exact Em].
      - fold m in Hm. apply in_map_iff in Hm as (e & Ee & He).
        exists e. split; [now right | exact Ee]. }
    destruct Hm as (e & He & Em).
    assert (Hin : In (fst e) (index (filter (fun e => snd e =? m) ((t0, v0) :: s)))).
    { unfold index. apply in_map. apply filter_In. split; [exact He|].
      now apply Z.eqb_eq. }
    rewrite E in Hin. destruct Hin.
Qed.

(** X19.  When [filter_rtklib_solutions] returns on a frame without
    duplicated timestamps, and the jumps it detects once the false jumps
    are erased are not all at midnight, every SWE observation it returns
    stems from a solution of the selected ambiguity state, 18 seconds
    earlier, and is not below that solution's up component minus the
    baseline length; the timestamps of the SWE series increase strictly;
    [date_of_min] holds the timestamps at which the SWE is smallest, at
    least one when the series is not empty; and the daily series have one
    entry per day the SWE series spans. *)
Theorem rtklib_filter_provenance
  (fuel : nat) (df_enu : list (label * enu_row)) (ambiguity : Z) (threshold : Q)
  (baseline_length : Z) (out : rtklib_filtered) :
  NoDup (index df_enu) ->
  (forall u1, remove_false_jumps (selected_u df_enu ambiguity) = Ret u1 ->
              dates_only (jump_index rtklib_beyond u1) = false) ->
  filter_rtklib_solutions fuel df_enu ambiguity threshold baseline_length = Ret out ->
  let swe := out_swe_gnss out in
  strictly_increasing (index swe) = true /\
  (forall t s, In (t, s) swe ->
     exists row, In (t - 18, row) df_enu /\ amb_state row = ambiguity /\
                 U_mm row - baseline_length <= s) /\
  (forall t, In t (out_date_of_min out) ->
     exists s, In (t, s) swe /\ forall e, In e swe -> s <= snd e) /\
  (swe <> [] -> out_date_of_min out <> []) /\
  length (out_swe_gnss_daily out) = days_spanned swe /\
  length (out_std_gnss_daily out) = days_spanned swe.
Proof.
  intros Hnd _. unfold filter_rtklib_solutions, rtklib_heightening.
  set (fil_df := sort_index (filter (fun e => amb_state (snd e) =? ambiguity) df_enu)).
  set (u0 := map (fun e => (fst e, U_mm (snd e))) fil_df).
  assert (Hs0 : strictly_increasing (index u0) = true).
  { unfold u0. rewrite index_map_value. apply sort_index_increasing.
    now apply NoDup_index_filter. }
  destruct (remove_false_jumps u0) as [u1| |] eqn:E1; cbn [bind]; try discriminate.
  pose proof (remove_false_jumps_subseries _ _ E1) as Hsub1.
  assert (Hs1 : strictly_increasing (index u1) = true).
  { apply (subseries_increasing _ (index u0)); [|exact Hs0]. now apply subseries_map. }
  unfold rtklib_correct_jumps.
  destruct (correct_jumps rtklib_beyond fuel u1) as [u2| |] eqn:E2; cbn [bind]; try discriminate.
  intros [= <-]. cbn [out_swe_gnss out_date_of_min out_swe_gnss_daily out_std_gnss_daily].
  destruct (correct_jumps_stepped _ _ _ _ Hs1 E2) as (c & e & u' & w' & Hb & -> & -> & Hst).
  apply Z.ltb_lt in Hb.
  assert (Hs2 : strictly_increasing (index (e :: w')) = true).
  { cbn [index map] in Hs1 |- *. fold (index w'). fold (index u') in Hs1.
    now rewrite (stepped_index _ _ _ _ Hst). }
  pose proof (select_subseries _
    (map (fun p => fst p && snd p)
       (combine
          (map (fun p => gt_limit (snd (fst p)) (snd p))
             (combine (e :: w')
                (limits (map median (rolling three_days (e :: w'))) (- threshold)
                   (map std (rolling three_days (e :: w'))))))
          (map (fun p => lt_limit (snd (fst p)) (snd p))
             (combine (e :: w')
                (limits (map median (rolling three_days (e :: w'))) threshold
                   (map std (rolling three_days (e :: w'))))))))
    (e :: w')) as Hsub3.
  fold (sigma_filter three_days threshold (e :: w')) in Hsub3.
  fold (u_clean threshold (e :: w')) in Hsub3.
  set (cleaned := u_clean threshold (e :: w')) in *.
  split; [|split; [|split; [|split; [|split]]]].
  - unfold swe_gnss. unfold index. rewrite map_map. cbn [fst].
    rewrite <- (map_map fst (fun t => t + 18)), <- (map_map fst (fun t => t)).
    rewrite strictly_increasing_shift, map_id.
    fold (index (sub_scalar cleaned baseline_length)).
    rewrite index_sub_scalar.
    apply (subseries_increasing _ (index (e :: w'))); [|exact Hs2].
    now apply subseries_map.
  - intros t s Hin. unfold swe_gnss, sub_scalar in Hin. rewrite map_map in Hin.
    apply in_map_iff in Hin as ([t1 x] & E & Hin). cbn [fst snd] in E.
    injection E as <- <-.
    apply (subseries_In _ _ _ _ Hsub3) in Hin.
    assert (Hv : exists v, In (t1, v) (e :: u') /\ v <= x).
    { destruct Hin as [E | Hin].
      - exists x. split; [now left | lia].
      - destruct (stepped_In _ _ _ _ _ _ Hst Hin) as (v & k' & Hv & ->).
        exists v. split; [now right | nia]. }
    destruct Hv as (v & Hv & Hle).
    apply (subseries_In _ _ _ _ Hsub1) in Hv.
    unfold u0 in Hv. apply in_map_iff in Hv as ([t2 row] & E & Hrow).
    cbn [fst snd] in E. injection E as -> <-.
    unfold fil_df in Hrow. apply (proj1 (sort_index_In _ _ _)) in Hrow.
    apply filter_In in Hrow as [Hrow Hamb]. cbn [snd] in Hamb. apply Z.eqb_eq in Hamb.
    exists row. replace (t1 + 18 - 18) with t1 by lia.
    repeat split; [exact Hrow | exact Hamb | lia].
  - apply date_of_min_spec.
  - apply date_of_min_spec.
  - apply resample_D_length.
  - apply resample_D_length.
Qed.

Lemma increasing_NoDup (l : list label) : strictly_increasing l = true -> NoDup l.
Proof.
  induction l as [|a l IH]; intros H; [constructor|].
  destruct (strictly_increasing_cons _ _ H) as [Hl Hall].
  constructor; [|now apply IH].
  intros Hin. rewrite Forall_forall in Hall. specialize (Hall _ Hin). lia.
Qed.

Lemma rtklib_filter_provenance_witness :
  let df_enu :=
    [(0, EnuRow 5000 1); (900, EnuRow 5004 1); (1800, EnuRow 9999 2);
     (2700, EnuRow 5002 1); (3600, EnuRow 2001 1); (4500, EnuRow 2003 1)] in
  let swe := [(918, 4004); (2718, 4002); (3618, 4002); (4518, 4004)] in
  strictly_increasing (index swe) = true /\
  (forall t s, In (t, s) swe ->
     exists row, In (t - 18, row) df_enu /\ amb_state row = 1 /\ U_mm row - 1000 <= s) /\
  (forall t, In t [2718; 3618] ->
     exists s, In (t, s) swe /\ forall e, In e swe -> s <= snd e) /\
  (swe <> [] -> [2718; 3618] <> []) /\
  length [(0, Some (8006 # 2))] = days_spanned swe /\
  length [(0, Some (Sqrt (16 # 12)))] = days_spanned swe.
Proof.
  apply (rtklib_filter_provenance 3
           [(0, EnuRow 5000 1); (900, EnuRow 5004 1); (1800, EnuRow 9999 2);
            (2700, EnuRow 5002 1); (3600, EnuRow 2001 1); (4500, EnuRow 2003 1)]
           1 2 1000
           (RtklibFiltered
              [(0, EnuRow 5000 1); (900, EnuRow 5004 1); (2700, EnuRow 5002 1);
               (3600, EnuRow 2001 1); (4500, EnuRow 2003 1)]
              [(0, 5000); (900, 5004); (2700, 5002); (3600, 5002); (4500, 5004)]
              [(900, 5004); (2700, 5002); (3600, 5002); (4500, 5004)]
              [(918, 4004); (2718, 4002); (3618, 4002); (4518, 4004)]
              [(0, Some (8006 # 2))]
              [(0, Some (Sqrt (16 # 12)))]
              [2718; 3618])).
  - apply increasing_NoDup. reflexivity.
  - intros u1 H. vm_compute in H. injection H as <-. reflexivity.
  - reflexivity.
Defined.

(** X20.  On a frame without duplicated timestamps whose detected jumps
    are not all at midnight, when [filter_gnssir] reaches its line 3172
    the local [gnssir_rh] (the corrected reflector heights) holds only
    observations that stem from a row of the chosen frequency whose
    azimuth lies strictly between 30 and 160 or strictly between 210 and
    310 degrees, none above that row's height; the local
    [gnssir_rh_clean] there is [gnssir_rh] with observations removed, and
    its timestamps increase strictly.  (What the function returns is
    computed from the 15-minute medians of [gnssir_rh_clean].) *)
Theorem gnssir_cleaning_provenance
  (fuel : nat) (df_rh : list (label * rh_row)) (choice : frequency) (threshold : Q)
  (gnssir_rh gnssir_rh_clean : series) :
  NoDup (index df_rh) ->
  dates_only (jump_index gnssir_beyond (selected_rh df_rh choice)) = false ->
  gnssir_cleaning fuel df_rh choice threshold = Ret (gnssir_rh, gnssir_rh_clean) ->
  strictly_increasing (index gnssir_rh_clean) = true /\
  subseries gnssir_rh_clean gnssir_rh /\
  (forall t v, In (t, v) gnssir_rh ->
     exists row, In (t, row) df_rh /\ selects choice (freq row) = true /\
                 ((30 < Azim row /\ Azim row < 160) \/ (210 < Azim row /\ Azim row < 310))%Q /\
                 v <= RH_mm row).
Proof.
  intros Hnd _. unfold gnssir_cleaning, selected_rh.
  set (sel := filter (fun e => Qlt_bool 210 (Azim (snd e)) || Qlt_bool (Azim (snd e)) 160)
               (filter (fun e => Qlt_bool 30 (Azim (snd e)) && Qlt_bool (Azim (snd e)) 310)
                  (filter (fun e => selects choice (freq (snd e))) df_rh))).
  set (u0 := sort_index (map (fun e => (fst e, RH_mm (snd e))) sel)).
  assert (Hs0 : strictly_increasing (index u0) = true).
  { unfold u0. apply sort_index_increasing. rewrite index_map_value.
    unfold sel. now repeat apply NoDup_index_filter. }
  unfold gnssir_correct_jumps.
  destruct (correct_jumps gnssir_beyond fuel u0) as [u1| |] eqn:E1; cbn [bind]; try discriminate.
  intros [= <- <-].
  destruct (correct_jumps_stepped _ _ _ _ Hs0 E1) as (c & e & u' & w' & Hb & Eu & -> & Hst).
  apply Z.ltb_lt in Hb.
  assert (Hs1 : strictly_increasing (index (e :: w')) = true).
  { rewrite Eu in Hs0. cbn [index map] in Hs0 |- *. fold (index w'). fold (index u') in Hs0.
    now rewrite (stepped_index _ _ _ _ Hst). }
  assert (Hsub : subseries (sigma_filter three_days threshold (e :: w')) (e :: w'))
    by apply select_subseries.
  split; [|split].
  - apply (subseries_increasing _ (index (e :: w'))); [|exact Hs1].
    now apply subseries_map.
  - exact Hsub.
  - intros t x Hin.
    assert (Hv : exists v, In (t, v) u0 /\ x <= v).
    { rewrite Eu. destruct Hin as [E | Hin].
      - exists x. split; [now left | lia].
      - destruct (stepped_In _ _ _ _ _ _ Hst Hin) as (v & k' & Hv & ->).
        exists v. split; [now right | nia]. }
    destruct Hv as (v & Hv & Hle).
    unfold u0 in Hv. apply (proj1 (sort_index_In _ _ _)) in Hv.
    apply in_map_iff in Hv as ([t2 row] & E & Hrow).
    cbn [fst snd] in E. injection E as -> <-.
    unfold sel in Hrow.
    apply filter_In in Hrow as [Hrow Hsector].
    apply filter_In in Hrow as [Hrow Hzone].
    apply filter_In in Hrow as [Hrow Hfreq].
    cbn [snd] in *.
    apply andb_true_iff in Hzone as [H30 H310].
    assert (Hlt : forall a b, Qlt_bool a b = true -> (a < b)%Q).
    { intros a b H. unfold Qlt_bool in H. apply negb_true_iff in H.
      now apply Qle_bool_false. }
    apply Hlt in H30, H310.
    exists row. repeat split; [exact Hrow | exact Hfreq | | exact Hle].
    apply orb_true_iff in Hsector as [H | H]; apply Hlt in H; [right | left]; now split.
Qed.

Lemma gnssir_cleaning_provenance_witness :
  let df_rh :=
    [(0, RhRow 3000 100 1); (900, RhRow 3004 200 1); (1800, RhRow 3002 120 1);
     (2700, RhRow 3003 250 5); (3600, RhRow 6001 40 1); (4500, RhRow 6003 300 1);
     (5400, RhRow 6002 35 1)] in
  let gnssir_rh := [(0, 3000); (1800, 3002); (3600, 3002); (4500, 3004); (5400, 3003)] in
  let gnssir_rh_clean := [(1800, 3002); (3600, 3002); (4500, 3004); (5400, 3003)] in
  strictly_increasing (index gnssir_rh_clean) = true /\
  subseries gnssir_rh_clean gnssir_rh /\
  (forall t v, In (t, v) gnssir_rh ->
     exists row, In (t, row) df_rh /\ selects First (freq row) = true /\
                 ((30 < Azim row /\ Azim row < 160) \/ (210 < Azim row /\ Azim row < 310))%Q /\
                 v <= RH_mm row).
Proof.
  apply (gnssir_cleaning_provenance 3
           [(0, RhRow 3000 100 1); (900, RhRow 3004 200 1); (1800, RhRow 3002 120 1);
            (2700, RhRow 3003 250 5); (3600, RhRow 6001 40 1); (4500, RhRow 6003 300 1);
            (5400, RhRow 6002 35 1)]
           First 2
           [(0, 3000); (1800, 3002); (3600, 3002); (4500, 3004); (5400, 3003)]
           [(1800, 3002); (3600, 3002); (4500, 3004); (5400, 3003)]).
  - apply increasing_NoDup. reflexivity.
  - reflexivity.
  - reflexivity.
Defined.

(** ** The days of a resampled series *)

Lemma min_label_le (t0 : label) (l : list label) :
  min_label t0 l <= t0 /\ forall t, In t l -> min_label t0 l <= t.
Proof.
  unfold min_label. induction l as [|y l [IH1 IH2]]; cbn [fold_right].
  - split; [lia | intros t []].
  - split; [lia|]. intros t [<- | Ht]; [lia|]. specialize (IH2 t Ht). lia.
Qed.

Lemma max_label_ge (t0 : label) (l : list label) :
  t0 <= max_label t0 l /\ forall t, In t l -> t <= max_label t0 l.
Proof.
  unfold max_label. induction l as [|y l [IH1 IH2]]; cbn [fold_right].
  - split; [lia | intros t []].
  - split; [lia|]. intros t [<- | Ht]; [lia|]. specialize (IH2 t Ht). lia.
Qed.

Lemma day_of_mono (a b : label) : a <= b -> day_of a <= day_of b.
Proof. intros H. unfold day_of. apply Z.div_le_mono; lia. Qed.

(** Every observation lies on a day of the axis. *)
Lemma day_axis_covers (u : series) (t : label) (v : Z) :
  In (t, v) u -> In (day_of t) (day_axis u).
Proof.
  intros Hin.
  assert (Ht : In t (index u)) by (unfold index; now apply (in_map fst _ (t, v))).
  unfold day_axis, days_spanned.
  destruct (index u) as [|t0 l] eqn:E; [destruct Ht|].
  destruct (min_label_le t0 l) as [Hm0 Hm].
  destruct (max_label_ge t0 l) as [HM0 HM].
  assert (Hlo : min_label t0 l <= t) by (destruct Ht as [<- | Ht]; [exact Hm0 | now apply Hm]).
  assert (Hhi : t <= max_label t0 l) by (destruct Ht as [<- | Ht]; [exact HM0 | now apply HM]).
  apply day_of_mono in Hlo, Hhi.
  apply in_map_iff.
  exists (Z.to_nat (day_of t - day_of (min_label t0 l))). split; [lia|].
  apply in_seq. lia.
Qed.

Lemma day_axis_increasing (u : series) :
  strictly_increasing (map (fun d => 86400 * d) (day_axis u)) = true.
Proof.
  unfold day_axis. destruct (index u) as [|t0 l]; [reflexivity|].
  generalize (day_of (min_label t0 l)) as d0.
  generalize (days_spanned u) as n.
  intros n d0. rewrite map_map.
  assert (H : forall s, strictly_increasing
            (map (fun i => 86400 * (d0 + Z.of_nat i)) (seq s n)) = true).
  { induction n as [|n IH]; intros s; [reflexivity|].
    cbn [seq map]. specialize (IH (S s)).
    destruct n as [|n]; [reflexivity|].
    cbn [seq map] in IH |- *.
    change (strictly_increasing (?a :: ?b :: ?r))
      with ((a <? b) && strictly_increasing (b :: r)).
    rewrite IH, andb_true_r. apply Z.ltb_lt. lia. }
  apply H.
Qed.

Lemma bucket_nonempty (u : series) (d : Z) :
  bucket u d <> [] <-> exists t v, In (t, v) u /\ day_of t = d.
Proof.
  unfold bucket, values. split.
  - intros H. destruct (filter (fun e => day_of (fst e) =? d) u) as [|[t v] r] eqn:E;
      [now contradiction H|].
    assert (Hin : In (t, v) (filter (fun e => day_of (fst e) =? d) u))
      by (rewrite E; now left).
    apply filter_In in Hin as [Hin Hd]. cbn in Hd. apply Z.eqb_eq in Hd.
    now exists t, v.
  - intros (t & v & Hin & Hd) E.
    assert (Hf : In (t, v) (filter (fun e => day_of (fst e) =? d) u)).
    { apply filter_In. split; [exact Hin|]. cbn. now apply Z.eqb_eq. }
    apply (in_map snd) in Hf. rewrite E in Hf. destruct Hf.
Qed.

(** The entries of a daily median after [dropna]. *)
Lemma daily_median_entries (u : series) (t : label) (x : option Q) :
  In (t, x) (dropna (resample_D median u)) <->
  exists d m, t = 86400 * d /\ x = Some m /\ median (bucket u d) = Some m.
Proof.
  unfold dropna, resample_D. rewrite filter_In, in_map_iff. cbn [snd]. split.
  - intros [(d & E & _) Hx]. injection E as <- <-.
    destruct (median (bucket u d)) as [m|] eqn:Em; [|discriminate].
    now exists d, m.
  - intros (d & m & -> & -> & Em). split; [|reflexivity].
    exists d. rewrite Em. split; [reflexivity|].
    assert (Hne : bucket u d <> []).
    { intros E. apply median_none_iff in E. congruence. }
    apply bucket_nonempty in Hne as (t & v & Hin & <-).
    now apply (day_axis_covers u t v).
Qed.

Lemma daily_median_increasing (u : series) :
  strictly_increasing (index (dropna (resample_D median u))) = true.
Proof.
  apply (subseries_increasing _ (map (fun d => 86400 * d) (day_axis u)));
    [|apply day_axis_increasing].
  assert (E : index (resample_D median u) = map (fun d => 86400 * d) (day_axis u)).
  { unfold index, resample_D. rewrite map_map. reflexivity. }
  rewrite <- E. unfold index. apply subseries_map, filter_subseries.
Qed.

(** X21.  [resample_gnss] needs both receivers: with either one [None] it
    raises [UnboundLocalError].  With both given it returns, for each
    receiver, exactly one entry for every calendar day that holds at
    least one observation, labelled with the start of the day and holding
    the median of the day's observations; a day without observations has
    no entry; the labels increase strictly. *)
Theorem resample_gnss_days (leica emlid : series) :
  (forall other, resample_gnss None other = Raise UnboundLocalError) /\
  (forall other, resample_gnss other None = Raise UnboundLocalError) /\
  exists leica_res emlid_res,
    resample_gnss (Some leica) (Some emlid) = Ret (leica_res, emlid_res) /\
    (forall res u, (res, u) = (leica_res, leica) \/ (res, u) = (emlid_res, emlid) ->
       strictly_increasing (index res) = true /\
       (forall t x, In (t, x) res <->
          exists d m, t = 86400 * d /\ x = Some m /\ median (bucket u d) = Some m) /\
       (forall t v, In (t, v) u ->
          exists m, In (86400 * day_of t, Some m) res) /\
       (forall d, (forall t v, In (t, v) u -> day_of t <> d) ->
          ~ In (86400 * d) (index res))).
Proof.
  split; [reflexivity|]. split; [now intros [o|]|].
  eexists _, _. split; [reflexivity|].
  assert (H : forall u,
    strictly_increasing (index (dropna (resample_D median u))) = true /\
    (forall t x, In (t, x) (dropna (resample_D median u)) <->
       exists d m, t = 86400 * d /\ x = Some m /\ median (bucket u d) = Some m) /\
    (forall t v, In (t, v) u ->
       exists m, In (86400 * day_of t, Some m) (dropna (resample_D median u))) /\
    (forall d, (forall t v, In (t, v) u -> day_of t <> d) ->
       ~ In (86400 * d) (index (dropna (resample_D median u))))).
  { intros u. split; [apply daily_median_increasing|].
    split; [intros t x; apply daily_median_entries|]. split.
    - intros t v Hin.
      assert (Hne : bucket u (day_of t) <> []) by (apply bucket_nonempty; now exists t, v).
      destruct (median (bucket u (day_of t))) as [m|] eqn:Em.
      + exists m. apply daily_median_entries. now exists (day_of t), m.
      + now apply median_none_iff in Em.
    - intros d Hnone Hin. unfold index in Hin.
      apply in_map_iff in Hin as ([t x] & Et & Hin). cbn [fst] in Et. subst t.
      apply daily_median_entries in Hin as (d' & m & Ed & _ & Em).
      assert (d' = d) by lia. subst d'.
      assert (Hne : bucket u d <> []).
      { intros E. apply median_none_iff in E. congruence. }
      apply bucket_nonempty in Hne as (t & v & Hin & Hd).
      exact (Hnone t v Hin Hd). }
  intros res u [E | E]; injection E as -> ->; apply H.
Qed.

Lemma resample_D_index (S : Type) (stat : list Z -> option S) (u : series) (i : nat) :
  (i < days_spanned u)%nat ->
  nth i (index (resample_D stat u)) 0 =
  86400 * (nth 0 (day_axis u) 0 + Z.of_nat i).
Proof.
  intros Hi. unfold index, resample_D. rewrite map_map. cbn [fst].
  unfold day_axis. destruct (index u) as [|t0 l] eqn:E.
  - unfold days_spanned in Hi. rewrite E in Hi. lia.
  - rewrite map_map.
    rewrite (nth_map_seq _ (fun i => 86400 * (day_of (min_label t0 l) + Z.of_nat i)))
      by exact Hi.
    rewrite (nth_map_seq _ (fun i => day_of (min_label t0 l) + Z.of_nat i)) by lia.
    f_equal. lia.
Qed.

(** X22.  [resample_allobs] always returns: the two GNSS series, resampled
    like those of [resample_gnss], followed by the resampled reference
    series that were handed over, in the order buoy, poles, laser.  A
    resampled reference series has one entry for every day of its span,
    the labels one day apart; an entry holds the median of its day and is
    missing exactly when the day has no observation. *)
Theorem resample_allobs_returns (gnss_leica gnss_emlid : series) (buoy poles laser : option series) :
  let ref := fun s => match s with Some r => [resample_ref_obs r] | None => [] end in
  resample_allobs gnss_leica gnss_emlid buoy poles laser =
    Ret (dropna (resample_D median gnss_leica) :: dropna (resample_D median gnss_emlid) ::
         ref buoy ++ ref poles ++ ref laser) /\
  resample_gnss (Some gnss_leica) (Some gnss_emlid) =
    Ret (dropna (resample_D median gnss_leica), dropna (resample_D median gnss_emlid)) /\
  (forall r,
     length (resample_ref_obs r) = days_spanned r /\
     (forall i, (S i < days_spanned r)%nat ->
        nth (S i) (index (resample_ref_obs r)) 0 =
        nth i (index (resample_ref_obs r)) 0 + 86400) /\
     (forall t x, In (t, x) (resample_ref_obs r) ->
        exists d, t = 86400 * d /\ x = median (bucket r d) /\
                  (x = None <-> forall t' v, In (t', v) r -> day_of t' <> d)) /\
     (forall t v, In (t, v) r ->
        In (86400 * day_of t, median (bucket r (day_of t))) (resample_ref_obs r))).
Proof.
  intros ref. split; [|split].
  - destruct buoy, poles, laser; reflexivity.
  - reflexivity.
  - intros r. unfold resample_ref_obs. split; [apply resample_D_length|]. split; [|split].
    + intros i Hi. rewrite !resample_D_index by lia. lia.
    + intros t x Hin. unfold resample_D in Hin.
      apply in_map_iff in Hin as (d & E & _). injection E as <- <-.
      exists d. split; [reflexivity|]. split; [reflexivity|].
      rewrite median_none_iff. split.
      * intros Hb t' v Hin Hd.
        assert (Hne : bucket r d <> []) by (apply bucket_nonempty; now exists t', v).
        contradiction.
      * intros Hnone. destruct (bucket r d) eqn:Eb; [reflexivity|].
        assert (Hne : bucket r d <> []) by (rewrite Eb; discriminate).
        apply bucket_nonempty in Hne as (t' & v & Hin & Hd).
        now destruct (Hnone t' v Hin).
    + intros t v Hin. apply resample_D_entry. now apply (day_axis_covers r t v).
Qed.

(** ** Statistics of the residuals *)

Local Open Scope R_scope.

Lemma np_sum_squares_nonneg (f : R -> R) (l : list R) :
  (0 <= np_sum (map (fun x => f x ^ 2) l))%R.
Proof.
  induction l as [|x l IH]; [cbn; lra|].
  cbn [map np_sum fold_right]. fold (np_sum (map (fun x => f x ^ 2) l)).
  pose proof (pow2_ge_0 (f x)). lra.
Qed.

Lemma np_mean_squares_nonneg (f : R -> R) (l : list R) :
  (0 <= np_mean (map (fun x => f x ^ 2) l))%R.
Proof.
  unfold np_mean. rewrite length_map.
  destruct l as [|x l]; [cbn; lra|].
  apply Rmult_le_pos; [apply np_sum_squares_nonneg|].
  left. apply Rinv_0_lt_compat. apply lt_0_INR. cbn. lia.
Qed.

Lemma np_sum_abs (l : list R) : (Rabs (np_sum l) <= np_sum (map Rabs l))%R.
Proof.
  induction l as [|x l IH]; [cbn; rewrite Rabs_R0; lra|].
  cbn [map np_sum fold_right]. fold (np_sum l) (np_sum (map Rabs l)).
  pose proof (Rabs_triang x (np_sum l)). lra.
Qed.

Lemma fold_Rmax_ge (x : R) (l : list R) (y : R) :
  In y (x :: l) -> y <= fold_right Rmax x l.
Proof.
  induction l as [|z l IH]; cbn [fold_right].
  - intros [<- | []]. lra.
  - intros [<- | [<- | H]].
    + apply Rle_trans with (fold_right Rmax x l); [apply IH; now left | apply Rmax_r].
    + apply Rmax_l.
    + apply Rle_trans with (fold_right Rmax x l); [apply IH; now right | apply Rmax_r].
Qed.

Lemma fold_Rmin_le (x : R) (l : list R) (y : R) :
  In y (x :: l) -> fold_right Rmin x l <= y.
Proof.
  induction l as [|z l IH]; cbn [fold_right].
  - intros [<- | []]. lra.
  - intros [<- | [<- | H]].
    + apply Rle_trans with (fold_right Rmin x l); [apply Rmin_r | apply IH; now left].
    + apply Rmin_l.
    + apply Rle_trans with (fold_right Rmin x l); [apply Rmin_r | apply IH; now right].
Qed.

(** X23.  On two arrays of one length that are not empty,
    [calculate_stats] returns the residuals [data - reference_data],
    element by element; of the quantities it prints, the absolute mean
    error is at most the mean absolute error, every residual lies
    between the smallest and the largest one whose difference is the
    range, which is not negative, and the mean squared error is not
    negative.  On empty arrays it raises [ValueError], from [np.max]. *)
Theorem stats_of_residuals (reference_data data : list R) :
  length data = length reference_data -> data <> [] ->
  exists st,
    calculate_stats reference_data data = Ret st /\
    st_R st = zip_with Rminus data reference_data /\
    st_len st = length data /\
    (Rabs (st_ME st) <= st_MAE st)%R /\
    (forall r r', In r (st_R st) -> In r' (st_R st) -> r - r' <= st_range st) /\
    (0 <= st_range st)%R /\
    (0 <= st_MSE st)%R /\
    calculate_stats [] [] =
      Raise (LibraryError "ValueError: zero-size array to reduction operation").
Proof.
  intros Hlen Hne. unfold calculate_stats.
  set (res := zip_with Rminus data reference_data).
  set (res_p := zip_with (fun d r => ((d - r) / r * 100)%R) data reference_data).
  assert (Lr : length res = length data).
  { unfold res. rewrite zip_with_length, <- Hlen. apply Nat.min_id. }
  assert (Lp : length res_p = length data).
  { unfold res_p. rewrite zip_with_length, <- Hlen. apply Nat.min_id. }
  assert (Hr : res <> []).
  { intros E. rewrite E in Lr. destruct data; [now contradiction Hne | discriminate]. }
  assert (Hp : res_p <> []).
  { intros E. rewrite E in Lp. destruct data; [now contradiction Hne | discriminate]. }
  destruct res as [|r0 res'] eqn:Er; [now contradiction Hr|].
  destruct res_p as [|p0 res_p'] eqn:Ep; [now contradiction Hp|].
  cbn [np_max np_min bind].
  eexists. split; [reflexivity|].
  cbn [st_R st_len st_ME st_MAE st_range st_MSE].
  assert (Hrange : forall r r', In r (r0 :: res') -> In r' (r0 :: res') ->
            r - r' <= fold_right Rmax r0 res' - fold_right Rmin r0 res').
  { intros r r' H H'.
    pose proof (fold_Rmax_ge r0 res' r H). pose proof (fold_Rmin_le r0 res' r' H'). lra. }
  rewrite <- Er in *. clear Ep.
  split; [reflexivity|]. split; [exact Lr|].
  split.
  { unfold np_mean. rewrite length_map.
    assert (Hn : (0 < / INR (length res))%R).
    { apply Rinv_0_lt_compat, lt_0_INR. destruct res; [now contradiction Hr | cbn; lia]. }
    unfold Rdiv. rewrite Rabs_mult, (Rabs_pos_eq (/ INR (length res))) by lra.
    apply Rmult_le_compat_r; [lra | apply np_sum_abs]. }
  split; [exact Hrange|].
  split.
  { assert (H0 : In r0 res) by (rewrite Er; now left).
    pose proof (Hrange r0 r0 H0 H0). lra. }
  split; [|reflexivity].
  apply (np_mean_squares_nonneg (fun x => x) res).
Qed.

Lemma stats_of_residuals_witness :
  exists st,
    calculate_stats [1; 2; 3]%R [2; 2; 5]%R = Ret st /\
    (Rabs (st_ME st) <= st_MAE st)%R.
Proof.
  destruct (stats_of_residuals [1; 2; 3]%R [2; 2; 5]%R) as (st & H & _ & _ & Hd & _).
  - reflexivity.
  - discriminate.
  - exists st. split; [exact H | exact Hd].
Defined.

Local Close Scope R_scope.
